(** * MAS-SimulatorV2: queueing simulator and analytical calculator

    A shallow embedding of [lib/simulation] (the discrete-event engine:
    arrival table, service-time generators, single- and multi-server
    schedulers, utilization) and of [lib/queuing-calculations.ts] (the
    closed-form calculator), with the properties of the specification
    stated and settled on these definitions.

    Numbers.  The scheduler works on integers only (arrival times are sums
    of table indices, service times are [Math.ceil] results), so its clock
    and work counters are [Z].  Everything else is a JavaScript [number];
    it is embedded as an exact rational extended with the three special
    values the code can produce ([Infinity], [-Infinity], [NaN]).  IEEE
    rounding and the sign of zero are not represented there: a zero is
    [+0].  The properties that depend on rounding are stated on a second
    embedding of the functions they concern, on binary64 numbers (module
    [Binary64]). *)

From Stdlib Require Import ZArith QArith Qround Qabs Qminmax Lia Lqa Bool List String Sorted Floats.
From stdpp Require Import list strings pretty sorting.

Open Scope Z_scope.

(** ** JavaScript numbers *)

Inductive num : Type :=
| Fin (q : Q)
| PInf
| NInf
| NaN.

Definition sign_of (x : num) : comparison :=
  match x with
  | Fin q => (q ?= 0)%Q
  | PInf => Gt
  | NInf => Lt
  | NaN => Eq
  end.

(** The infinity carrying the sign [c]; no sign gives [NaN]. *)
Definition inf_of (c : comparison) : num :=
  match c with
  | Gt => PInf
  | Lt => NInf
  | Eq => NaN
  end.

Definition sign_mul (a b : comparison) : comparison :=
  match a, b with
  | Eq, _ | _, Eq => Eq
  | Gt, c => c
  | Lt, c => CompOpp c
  end.

Definition neg (x : num) : num :=
  match x with
  | Fin q => Fin (- q)
  | PInf => NInf
  | NInf => PInf
  | NaN => NaN
  end.

Definition add (x y : num) : num :=
  match x, y with
  | NaN, _ | _, NaN => NaN
  | Fin a, Fin b => Fin (a + b)
  | PInf, NInf | NInf, PInf => NaN
  | PInf, _ | _, PInf => PInf
  | NInf, _ | _, NInf => NInf
  end.

Definition sub (x y : num) : num := add x (neg y).

Definition mul (x y : num) : num :=
  match x, y with
  | NaN, _ | _, NaN => NaN
  | Fin a, Fin b => Fin (a * b)
  | _, _ => inf_of (sign_mul (sign_of x) (sign_of y))
  end.

(** [x / y].  A finite divisor equal to zero is [+0]: [0 / 0] is [NaN] and
    a non-zero dividend gives the infinity of its own sign. *)
Definition div (x y : num) : num :=
  match x, y with
  | NaN, _ | _, NaN => NaN
  | Fin a, Fin b => if Qeq_bool b 0 then inf_of (sign_of x) else Fin (a / b)
  | Fin _, _ => Fin 0
  | _, Fin b => if Qeq_bool b 0 then x else inf_of (sign_mul (sign_of x) (sign_of y))
  | _, _ => NaN
  end.

(** Comparisons; every comparison with [NaN] is false. *)
Definition lt (x y : num) : bool :=
  match x, y with
  | NaN, _ | _, NaN => false
  | Fin a, Fin b => negb (Qle_bool b a)
  | NInf, NInf => false
  | NInf, _ => true
  | _, PInf => match x with PInf => false | _ => true end
  | _, _ => false
  end.

Definition le (x y : num) : bool :=
  match x, y with
  | NaN, _ | _, NaN => false
  | Fin a, Fin b => Qle_bool a b
  | NInf, _ => true
  | _, PInf => true
  | _, _ => false
  end.

Definition ge (x y : num) : bool := le y x.

Definition abs (x : num) : num :=
  match x with
  | Fin q => Fin (Qabs q)
  | PInf | NInf => PInf
  | NaN => NaN
  end.

(** [Math.ceil]. *)
Definition ceil (x : num) : num :=
  match x with
  | Fin q => Fin (inject_Z (Qceiling q))
  | _ => x
  end.

(** [Math.max(a, b)] and [Math.min(a, b)]: [NaN] if either is [NaN]. *)
Definition max (x y : num) : num :=
  match x, y with
  | NaN, _ | _, NaN => NaN
  | _, _ => if le x y then y else x
  end.

Definition min (x y : num) : num :=
  match x, y with
  | NaN, _ | _, NaN => NaN
  | _, _ => if le x y then x else y
  end.

(** [Math.pow(x, k)] for a natural exponent, in exact arithmetic:
    [Math.pow(x, 0)] is [1] for every [x], [NaN] included. *)
Fixpoint pow (x : num) (k : nat) : num :=
  match k with
  | O => Fin 1
  | S k' => mul x (pow x k')
  end.

(** [Math.pow(x, s)] for an integer exponent. *)
Definition powZ (x : num) (s : Z) : num :=
  if (s <? 0)%Z then div (Fin 1) (pow x (Z.to_nat (- s))) else pow x (Z.to_nat s).

(** Two numbers denote the same value. *)
Definition num_eq (x y : num) : Prop :=
  match x, y with
  | Fin a, Fin b => (a == b)%Q
  | PInf, PInf | NInf, NInf | NaN, NaN => True
  | _, _ => False
  end.

(** [x] is a finite integer ([Number.isInteger]) that is at least 1. *)
Definition is_integer_ge1 (x : num) : Prop :=
  exists z : Z, (1 <= z)%Z /\ num_eq x (Fin (inject_Z z)).

(** [Math.abs(x - y) <= 1e-9], the way a test compares two results. *)
Definition within_tol (x y : num) : bool :=
  le (abs (sub x y)) (Fin (1 # 1000000000)).

(** ** Analytical calculator ([lib/queuing-calculations.ts]) *)

Inductive QueuingModel : Type := MM1 | MMS | MG1 | MGS | GG1 | GGS.

(** [QueuingInput]; an optional field that is absent is [None].  The server
    count is an integer. *)
Record QueuingInput : Type := mkInput {
  lambda : num;
  mu : num;
  s : option Z;
  sigma : option num;
  ca : option num;
  cs : option num
}.

Record QueuingResults : Type := mkResults {
  rho : num;
  stable : bool;
  Lq : num;
  Wq : num;
  W : num;
  L : num;
  error : option string
}.

(** [factorial(n)]: the product of [2..n], which is [1] for [n <= 1]; exact,
    where the product of doubles is rounded from [23!] on
    ([Binary64.factorial]). *)
Definition factorial (n : Z) : num :=
  Fin (inject_Z (fold_left Z.mul (map Z.of_nat (seq 2 (Z.to_nat n - 1))) 1%Z)).

(** [erlangC(lambda, mu, s)]: probability that an arriving customer waits. *)
Definition erlangC (lambda mu : num) (s : Z) : num :=
  let s' := Fin (inject_Z s) in
  let rho := div lambda (mul s' mu) in
  if ge rho (Fin 1) then Fin 1
  else
    let a := div lambda mu in
    let numerator := div (powZ a s) (factorial s) in
    let numerator := div numerator (sub (Fin 1) rho) in
    let denominator :=
      fold_left (fun acc k => add acc (div (pow a k) (factorial (Z.of_nat k))))
                (seq 0 (Z.to_nat s)) (Fin 0) in
    let denominator := add denominator numerator in
    div numerator denominator.

(** The result every calculator returns on inputs that fail validation. *)
Definition invalid_result (msg : string) : QueuingResults :=
  mkResults (Fin 0) false (Fin 0) (Fin 0) (Fin 0) (Fin 0) (Some msg).

(** The result for an unstable system, [rho >= 1]. *)
Definition unstable_result (rho : num) : QueuingResults :=
  mkResults rho false PInf PInf PInf PInf None.

Definition stable_result (rho Lq Wq W L : num) : QueuingResults :=
  mkResults rho true Lq Wq W L None.

Definition calculateMM1 (input : QueuingInput) : QueuingResults :=
  let lambda := lambda input in
  let mu := mu input in
  if le mu (Fin 0) || lt lambda (Fin 0) then
    invalid_result "Invalid lambda or mu values"
  else
    let rho := div lambda mu in
    if ge rho (Fin 1) then unstable_result rho
    else
      let Lq := div (mul rho rho) (sub (Fin 1) rho) in
      let Wq := div Lq lambda in
      let W := add Wq (div (Fin 1) mu) in
      let L := mul lambda W in
      stable_result rho Lq Wq W L.

Definition calculateMMS (input : QueuingInput) : QueuingResults :=
  let lambda := lambda input in
  let mu := mu input in
  let s := default 1%Z (s input) in
  let s' := Fin (inject_Z s) in
  if le mu (Fin 0) || lt lambda (Fin 0) || le s' (Fin 0) then
    invalid_result "Invalid input values"
  else
    let rho := div lambda (mul s' mu) in
    if ge rho (Fin 1) then unstable_result rho
    else
      let Pw := erlangC lambda mu s in
      let Wq := div Pw (sub (mul s' mu) lambda) in
      let Lq := mul lambda Wq in
      let W := add Wq (div (Fin 1) mu) in
      let L := mul lambda W in
      stable_result rho Lq Wq W L.

Definition calculateMG1 (input : QueuingInput) : QueuingResults :=
  let lambda := lambda input in
  let mu := mu input in
  let sigma := default (div (Fin 1) mu) (sigma input) in
  if le mu (Fin 0) || lt lambda (Fin 0) || lt sigma (Fin 0) then
    invalid_result "Invalid input values"
  else
    let rho := div lambda mu in
    if ge rho (Fin 1) then unstable_result rho
    else
      let lambda2 := mul lambda lambda in
      let Lq := div (add (mul (mul lambda2 sigma) sigma) (mul rho rho))
                    (mul (Fin 2) (sub (Fin 1) rho)) in
      let Wq := div Lq lambda in
      let W := add Wq (div (Fin 1) mu) in
      let L := mul lambda W in
      stable_result rho Lq Wq W L.

Definition calculateMGS (input : QueuingInput) : QueuingResults :=
  let lambda := lambda input in
  let mu := mu input in
  let s := default 1%Z (s input) in
  let s' := Fin (inject_Z s) in
  let sigma := default (div (Fin 1) mu) (sigma input) in
  if le mu (Fin 0) || lt lambda (Fin 0) || le s' (Fin 0) || lt sigma (Fin 0) then
    invalid_result "Invalid input values"
  else
    let rho := div lambda (mul s' mu) in
    if ge rho (Fin 1) then unstable_result rho
    else
      let mmsResult := calculateMMS (mkInput lambda mu (Some s) None None None) in
      if negb (stable mmsResult) then unstable_result rho
      else
        let Cs2 := mul (mul (mul sigma sigma) mu) mu in
        let WqMMS := Wq mmsResult in
        let Wq := div (mul WqMMS (add (Fin 1) Cs2)) (Fin 2) in
        let Lq := mul lambda Wq in
        let W := add Wq (div (Fin 1) mu) in
        let L := mul lambda W in
        stable_result rho Lq Wq W L.

Definition calculateGG1 (input : QueuingInput) : QueuingResults :=
  let lambda := lambda input in
  let mu := mu input in
  let sigma := default (div (Fin 1) mu) (sigma input) in
  let ca := default (Fin 1) (ca input) in
  let cs := default (mul sigma mu) (cs input) in
  if le mu (Fin 0) || lt lambda (Fin 0) || lt sigma (Fin 0)
     || lt ca (Fin 0) || lt cs (Fin 0) then
    invalid_result "Invalid input values"
  else
    let rho := div lambda mu in
    if ge rho (Fin 1) then unstable_result rho
    else
      let Ca2 := mul ca ca in
      let Cs2 := mul cs cs in
      let numerator :=
        mul (mul (mul rho rho) (add (Fin 1) Ca2)) (add Cs2 (mul (mul rho rho) Ca2)) in
      let denominator :=
        mul (mul (Fin 2) (sub (Fin 1) rho)) (add (Fin 1) (mul (mul rho rho) Cs2)) in
      let Lq := div numerator denominator in
      let Wq := div Lq lambda in
      let W := add Wq (div (Fin 1) mu) in
      let L := mul lambda W in
      stable_result rho Lq Wq W L.

Definition calculateGGS (input : QueuingInput) : QueuingResults :=
  let lambda := lambda input in
  let mu := mu input in
  let s := default 1%Z (s input) in
  let s' := Fin (inject_Z s) in
  let sigma := default (div (Fin 1) mu) (sigma input) in
  let ca := default (Fin 1) (ca input) in
  let cs := default (mul sigma mu) (cs input) in
  if le mu (Fin 0) || lt lambda (Fin 0) || le s' (Fin 0) || lt sigma (Fin 0)
     || lt ca (Fin 0) || lt cs (Fin 0) then
    invalid_result "Invalid input values"
  else
    let rho := div lambda (mul s' mu) in
    if ge rho (Fin 1) then unstable_result rho
    else
      let mmsResult := calculateMMS (mkInput lambda mu (Some s) None None None) in
      if negb (stable mmsResult) then unstable_result rho
      else
        let Ca2 := mul ca ca in
        let Cs2 := mul cs cs in
        let WqMMS := Wq mmsResult in
        let Wq := div (mul WqMMS (add Ca2 Cs2)) (Fin 2) in
        let Lq := mul lambda Wq in
        let W := add Wq (div (Fin 1) mu) in
        let L := mul lambda W in
        stable_result rho Lq Wq W L.

(** The dispatcher.  Its [default] branch ("Unknown model") is not
    reachable from a [QueuingModel]. *)
Definition calculateQueuingMetrics (model : QueuingModel) (input : QueuingInput)
  : QueuingResults :=
  match model with
  | MM1 => calculateMM1 input
  | MMS => calculateMMS input
  | MG1 => calculateMG1 input
  | MGS => calculateMGS input
  | GG1 => calculateGG1 input
  | GGS => calculateGGS input
  end.

(** ** Arrival table and generators ([lib/simulation]) *)

(** An array read is [l !!! i]; the default stands for an out-of-range
    read, which no index of the code performs. *)
#[global] Instance Q_inhabited : Inhabited Q := populate 0%Q.

Definition threshold : Q := 99999 # 100000.
Definition maxK : nat := 500.

(** [Math.round(cum * 100000) / 100000]; [Math.round] is the floor of its
    argument plus one half. *)
Definition round5 (cum : Q) : Q :=
  (inject_Z (Qfloor (cum * 100000 + (1 # 2))) / 100000)%Q.

(** The [while (true)] loop of [buildPoissonCDF], entered with the values
    [currentP], [cum] and [k] of the iteration; each iteration pushes one
    entry onto [cpCum] and [noBetweenArrivals].  [left] is [maxK - k], so
    that [k >= maxK] reads [left = 0]. *)
Fixpoint poissonLoop (left : nat) (lambda currentP cum : Q) (k : nat)
  : list (Q * nat) :=
  let cum := (cum + currentP)%Q in
  (round5 cum, k) ::
  match left with
  | O => []
  | S left' =>
      if Qle_bool threshold cum then []
      else
        let k := S k in
        poissonLoop left' lambda (currentP * (lambda / inject_Z (Z.of_nat k)))%Q cum k
  end.

(** [cpCum[cpCum.length - 1] = Math.min(cpCum[cpCum.length - 1], 1.0)]. *)
Definition clampLast (cpCum : list Q) : list Q :=
  match cpCum with
  | [] => []
  | _ => <[(length cpCum - 1)%nat := Qmin (cpCum !!! (length cpCum - 1)%nat) 1]> cpCum
  end.

Record PoissonCDF : Type := mkCDF {
  cpCum : list Q;
  cpLookup : list Q;
  noBetweenArrivals : list nat
}.

Section MathLibrary.

  (** The functions of [Math] the generators call, on the finite arguments
      where their value is finite.  [Math.random] is the stream
      [randomUniform]: its [j]-th call returns [randomUniform j]. *)
Variable Math_exp : Q -> Q.
Variable Math_ln : Q -> Q.
Variable Math_root : Q -> Q.
Variable Math_cosine : Q -> Q.
Variable Math_PI : Q.
Variable randomUniform : nat -> Q.

  (** [Math.log]: [-Infinity] at zero, [NaN] below. *)
Definition Math_log (x : num) : num :=
    match x with
    | Fin q =>
        if Qeq_bool q 0 then NInf
        else if Qle_bool q 0 then NaN
        else Fin (Math_ln q)
    | PInf => PInf
    | _ => NaN
    end.

  (** [Math.sqrt]: [NaN] on negative numbers. *)
Definition Math_sqrt (x : num) : num :=
    match x with
    | Fin q => if Qle_bool 0 q then Fin (Math_root q) else NaN
    | PInf => PInf
    | _ => NaN
    end.

  (** [Math.cos]: [NaN] at the infinities. *)
Definition Math_cos (x : num) : num :=
    match x with
    | Fin q => Fin (Math_cosine q)
    | _ => NaN
    end.

Definition buildPoissonCDF (lambda : Q) : PoissonCDF :=
    let p0 := Math_exp (- lambda) in
    let table := poissonLoop maxK lambda p0 0 0 in
    let cpCum := clampLast (map fst table) in
    let cpLookup := (0 : Q) :: removelast cpCum in
    mkCDF cpCum cpLookup (map snd table).

  (** The inner search of [generateInterArrivals]: the first slot [i] with
      [cpLookup[i] <= r <= cpCum[i]], else the last slot. *)
Definition findSlot (cpCum cpLookup : list Q) (r : Q) : nat :=
    let nRanges := length cpCum in
    match
      find (fun i => Qle_bool (cpLookup !!! i) r && Qle_bool r (cpCum !!! i))
           (seq 0 nRanges)
    with
    | Some i => i
    | None => (nRanges - 1)%nat
    end.

  (** [generateInterArrivals]; the draw of iteration [idx] is call number
      [idx - 1] of the random source. *)
Definition generateInterArrivals (cpCum cpLookup : list Q) : list Z :=
    let nRanges := length cpCum in
    0 :: map (fun idx => Z.of_nat (findSlot cpCum cpLookup (randomUniform (idx - 1))))
             (seq 1 (nRanges - 1)).

  (** One element of [generateServiceTimes]:
      [Math.max(1, Math.ceil(-mu * Math.log(randomUniform())))]. *)
Definition exponentialServiceTime (mu u : Q) : num :=
    max (Fin 1) (ceil (mul (neg (Fin mu)) (Math_log (Fin u)))).

Definition generateServiceTimes (mu : Q) (count : nat) : list num :=
    map (fun j => exponentialServiceTime mu (randomUniform j)) (seq 0 count).

  (** One element of [generateUniformServiceTimes]. *)
Definition uniformServiceTime (a b u : Q) : num :=
    max (Fin 1) (ceil (add (Fin a) (mul (sub (Fin b) (Fin a)) (Fin u)))).

Definition generateUniformServiceTimes (a b : Q) (count : nat) : list num :=
    map (fun j => uniformServiceTime a b (randomUniform j)) (seq 0 count).

  (** One element of [generateNormalServiceTimes] (Box-Muller), from its
      two draws [r1] and [r2]. *)
Definition normalServiceTime (mu sigma r1 r2 : Q) : num :=
    let z :=
      mul (Math_sqrt (mul (Fin (-2))
                          (Math_log (Fin (if Qeq_bool r1 0 then 1 # 10000 else r1)))))
          (Math_cos (mul (mul (Fin 2) (Fin Math_PI)) (Fin r2))) in
    max (Fin 1) (ceil (add (Fin mu) (mul (Fin sigma) z))).

Definition generateNormalServiceTimes (mu sigma : Q) (count : nat) : list num :=
    map (fun j => normalServiceTime mu sigma (randomUniform (2 * j))
                                    (randomUniform (2 * j + 1)))
        (seq 0 count).

End MathLibrary.

(** [cumSum]. *)
Definition cumSum (arr : list Z) : list Z :=
  snd (fold_left (fun '(sum, result) v => (sum + v, result ++ [sum + v])) arr (0, [])).

(** ** Scheduler data *)

Record ServiceChunk : Type := mkChunk {
  label : string;
  start : Z;
  end_ : Z;
  server : option string
}.

Record SimulationRow : Type := mkRow {
  observation : nat;
  interArrival : Z;
  arrivalTime : Z;
  serviceTime : Z;
  priority : Z;
  rowServiceStart : Z;
  rowServiceEnd : Z;
  turnaroundTime : Z;
  waitTime : Z;
  responseTime : Z;
  rowServer : option string
}.

Record SimulationAverages : Type := mkAverages {
  avgTurnaround : num;
  avgWait : num;
  avgResponse : num;
  avgInterArrival : num;
  avgService : num;
  serverUtilization : num;
  totalCustomers : nat
}.

Record SimulationResult : Type := mkResult {
  rows : list SimulationRow;
  resultChunks : list ServiceChunk;
  averages : SimulationAverages
}.

(** The template strings [`C${idx + 1}`] and [`S${sIdx + 1}`]. *)
Definition customerLabel (idx : nat) : string := "C" +:+ pretty (idx + 1)%nat.
Definition serverLabel (sIdx : nat) : string := "S" +:+ pretty (sIdx + 1)%nat.

Definition ofZ (z : Z) : num := Fin (inject_Z z).

(** [arr.reduce((a, b) => a + b, 0)]. *)
Definition sumZ (arr : list Z) : Z := fold_left Z.add arr 0.

(** [Math.min(...arr)] on a non-empty array of integers. *)
Definition minZ (arr : list Z) : Z := fold_left Z.min (tl arr) (hd 0 arr).

(** [Math.max(...arr)] and [Math.min(...arr)] on any array: the empty one
    gives [-Infinity] and [Infinity]. *)
Definition maxOf (arr : list Z) : num := fold_left (fun acc z => max acc (ofZ z)) arr NInf.
Definition minOf (arr : list Z) : num := fold_left (fun acc z => min acc (ofZ z)) arr PInf.

(** [Math.min(...waitingPool)] on a non-empty pool. *)
Definition pickMin (pool : list nat) : nat := fold_left Nat.min (tl pool) (hd 0%nat pool).

(** [waitingPool.reduce((best, cur) =>
      priorities[cur] < priorities[best] ? cur : best, waitingPool[0])]. *)
Definition pickPriority (priorities : list Z) (pool : list nat) : nat :=
  fold_left (fun best cur => if priorities !!! cur <? priorities !!! best then cur else best)
            pool (hd 0%nat pool).

(** The selection both schedulers make from a non-empty waiting pool. *)
Definition pick (usePriority : bool) (priorities : list Z) (pool : list nat) : nat :=
  if usePriority then pickPriority priorities pool else pickMin pool.

(** [pool.splice(pool.indexOf(x), 1)]: the first occurrence of [x] leaves
    the pool; were [x] absent, [indexOf] would be [-1] and [splice] would
    remove the last element. *)
Fixpoint removeFirst (x : nat) (pool : list nat) : list nat :=
  match pool with
  | [] => []
  | y :: pool' => if (x =? y)%nat then pool' else y :: removeFirst x pool'
  end.

Definition spliceOut (x : nat) (pool : list nat) : list nat :=
  if existsb (Nat.eqb x) pool then removeFirst x pool else removelast pool.

(** The per-customer columns of the result table. *)
Definition buildRows (interArrivals arrivalTimes serviceTimes priorities
                      serviceStarts serviceEnds : list Z)
                     (serverAssigned : nat -> option string) : list SimulationRow :=
  map (fun i =>
         let turnaround := serviceEnds !!! i - arrivalTimes !!! i in
         mkRow (i + 1) (interArrivals !!! i) (arrivalTimes !!! i) (serviceTimes !!! i)
               (priorities !!! i) (serviceStarts !!! i) (serviceEnds !!! i)
               turnaround (turnaround - serviceTimes !!! i)
               (serviceStarts !!! i - arrivalTimes !!! i) (serverAssigned i))
      (seq 0 (length arrivalTimes)).

Definition buildAverages (rows : list SimulationRow) (interArrivals serviceTimes : list Z)
                         (utilization : num) (n : nat) : SimulationAverages :=
  let mean (xs : list Z) := div (ofZ (sumZ xs)) (ofZ (Z.of_nat n)) in
  mkAverages (mean (map turnaroundTime rows)) (mean (map waitTime rows))
             (mean (map responseTime rows)) (mean interArrivals) (mean serviceTimes)
             utilization n.

(** ** Single-server scheduler ([mm1Simulation], [mg1Simulation]) *)

Module Single.

  (** The variables the [while] loop mutates. *)
Record State : Type := mkState {
    currentTime : Z;
    remainingTimes : list Z;
    serviceStarts : list Z;
    serviceEnds : list Z;
    servedMask : list bool;
    chunks : list ServiceChunk
  }.

Section Loop.

Variable arrivalTimes : list Z.
Variable priorities : list Z.
Variable usePriority : bool.

Let n := length arrivalTimes.

Definition waitingPool (st : State) : list nat :=
      List.filter (fun i => negb (servedMask st !!! i)
                            && (arrivalTimes !!! i <=? currentTime st))
                  (seq 0 n).

    (** The scan for [nextArr]; [None] is the initial [Infinity]. *)
Definition nextArrival (st : State) : option Z :=
      fold_left (fun nextArr i =>
                   if negb (servedMask st !!! i)
                      && match nextArr with
                         | None => true
                         | Some t => arrivalTimes !!! i <? t
                         end
                   then Some (arrivalTimes !!! i) else nextArr)
                (seq 0 n) None.

Definition interruptors (st : State) (chosenIdx : nat) : list nat :=
      List.filter (fun i => (currentTime st <? arrivalTimes !!! i)
                            && (priorities !!! i <? priorities !!! chosenIdx))
                  (seq 0 n).

    (** One pass through the loop body.  [None] stands for the clock set to
        [Infinity], which needs a waiting pool and a set of unserved
        customers that are both empty. *)
Definition step (st : State) : option State :=
      match waitingPool st with
      | [] =>
          match nextArrival st with
          | Some nextArr =>
              Some (mkState nextArr (remainingTimes st) (serviceStarts st)
                            (serviceEnds st) (servedMask st) (chunks st))
          | None => None
          end
      | (_ :: _) as pool =>
          let chosenIdx := pick usePriority priorities pool in
          let serviceStarts' :=
            if serviceStarts st !!! chosenIdx =? -1
            then <[chosenIdx := currentTime st]> (serviceStarts st)
            else serviceStarts st in
          let interruptors := interruptors st chosenIdx in
          let timeToEvent :=
            match interruptors with
            | _ :: _ =>
                if usePriority
                then minZ (map (fun i => arrivalTimes !!! i) interruptors) - currentTime st
                else remainingTimes st !!! chosenIdx
            | [] => remainingTimes st !!! chosenIdx
            end in
          let workDuration := Z.min (remainingTimes st !!! chosenIdx) timeToEvent in
          let startChunk := currentTime st in
          let currentTime' := currentTime st + workDuration in
          let remaining' := remainingTimes st !!! chosenIdx - workDuration in
          let remainingTimes' := <[chosenIdx := remaining']> (remainingTimes st) in
          let chunks' :=
            chunks st ++ [mkChunk (customerLabel chosenIdx) startChunk currentTime' None] in
          if remaining' =? 0 then
            Some (mkState currentTime' remainingTimes' serviceStarts'
                          (<[chosenIdx := currentTime']> (serviceEnds st))
                          (<[chosenIdx := true]> (servedMask st)) chunks')
          else
            Some (mkState currentTime' remainingTimes' serviceStarts'
                          (serviceEnds st) (servedMask st) chunks')
      end.

    (** [while (!servedMask.every(Boolean)) { ... }], at most [fuel] passes. *)
Fixpoint loop (fuel : nat) (st : State) : option State :=
      if forallb id (servedMask st) then Some st
      else
        match fuel with
        | O => None
        | S fuel' =>
            match step st with
            | Some st' => loop fuel' st'
            | None => None
            end
        end.

End Loop.

Definition initial (n : nat) (serviceTimes : list Z) : State :=
    mkState 0 serviceTimes (replicate n (-1)) (replicate n 0) (replicate n false) [].

  (** What follows the loop: rows, utilization and averages. *)
Definition utilization (serviceTimes : list Z) (st : State) : num :=
    let totalBusy := ofZ (sumZ serviceTimes) in
    let totalTime := sub (maxOf (serviceEnds st)) (minOf (serviceStarts st)) in
    if lt (Fin 0) totalTime then mul (div totalBusy totalTime) (Fin 100) else Fin 0.

Definition result (interArrivals arrivalTimes serviceTimes priorities : list Z)
                    (st : State) : SimulationResult :=
    let rows := buildRows interArrivals arrivalTimes serviceTimes priorities
                          (serviceStarts st) (serviceEnds st) (fun _ => None) in
    mkResult rows (chunks st)
             (buildAverages rows interArrivals serviceTimes
                            (utilization serviceTimes st) (length arrivalTimes)).

  (** The body shared by [mm1Simulation] and [mg1Simulation], which differ
      in the generator of [serviceTimes] only.  The arrays drawn before the
      loop are the arguments: [interArrivals] from [generateInterArrivals],
      [serviceTimes] from the service-time generator, [priorities] from
      [generatePriorities]. *)
Definition simulate (interArrivals serviceTimes priorities : list Z)
                      (usePriority : bool) (fuel : nat) : option SimulationResult :=
    let arrivalTimes := cumSum interArrivals in
    let n := length arrivalTimes in
    match loop arrivalTimes priorities usePriority fuel (initial n serviceTimes) with
    | Some st => Some (result interArrivals arrivalTimes serviceTimes priorities st)
    | None => None
    end.

End Single.

Definition mm1Simulation := Single.simulate.
Definition mg1Simulation := Single.simulate.

(** ** Multi-server scheduler ([mmsSSimulation], [mgsSSimulation]) *)

Module Multi.

Record State : Type := mkState {
    currentTime : Z;
    remainingTimes : list Z;
    serviceStart : list Z;
    serviceEnd : list Z;
    serverAssigned : list string;
    servedMask : list bool;
    serverOccupancy : list (option nat);
    lastChunkStart : list Z;
    chunks : list ServiceChunk
  }.

  (** [serverOccupancy.includes(i)]. *)
Definition includes (occupancy : list (option nat)) (i : nat) : bool :=
    existsb (fun o => match o with Some c => (c =? i)%nat | None => false end) occupancy.

  (** A customer is put on server [sIdx] at the current time: the four
      assignments that end both the idle-server branch and the preemption
      branch. *)
Definition install (sIdx chosen : nat) (st : State) : State :=
    mkState (currentTime st) (remainingTimes st)
            (if serviceStart st !!! chosen =? -1
             then <[chosen := currentTime st]> (serviceStart st)
             else serviceStart st)
            (serviceEnd st)
            (<[chosen := serverLabel sIdx]> (serverAssigned st))
            (servedMask st)
            (<[sIdx := Some chosen]> (serverOccupancy st))
            (<[chosen := currentTime st]> (lastChunkStart st))
            (chunks st).

Definition pushChunk (c : ServiceChunk) (st : State) : State :=
    mkState (currentTime st) (remainingTimes st) (serviceStart st) (serviceEnd st)
            (serverAssigned st) (servedMask st) (serverOccupancy st)
            (lastChunkStart st) (chunks st ++ [c]).

Section Loop.

Variable arrivalTimes : list Z.
Variable priorities : list Z.
Variable servers : nat.
Variable usePriority : bool.

Let n := length arrivalTimes.

    (** 1. Waiting customers that are on no server. *)
Definition waitingPool (st : State) : list nat :=
      List.filter (fun i => negb (servedMask st !!! i)
                            && (arrivalTimes !!! i <=? currentTime st)
                            && negb (includes (serverOccupancy st) i))
                  (seq 0 n).

    (** 2. The body of the idle-server loop, for server [sIdx]. *)
Definition assignServer (sp : State * list nat) (sIdx : nat) : State * list nat :=
      let (st, pool) := sp in
      match serverOccupancy st !!! sIdx, pool with
      | None, _ :: _ =>
          let chosen := pick usePriority priorities pool in
          (install sIdx chosen st, spliceOut chosen pool)
      | _, _ => sp
      end.

    (** 3. The body of the preemption loop, for server [sIdx]. *)
Definition preemptServer (sp : State * list nat) (sIdx : nat) : State * list nat :=
      let (st, pool) := sp in
      match serverOccupancy st !!! sIdx, pool with
      | Some currCust, _ :: _ =>
          let bestInPool := pickPriority priorities pool in
          if priorities !!! bestInPool <? priorities !!! currCust then
            let duration := currentTime st - lastChunkStart st !!! currCust in
            let st :=
              if 0 <? duration
              then pushChunk (mkChunk (customerLabel currCust)
                                      (lastChunkStart st !!! currCust) (currentTime st)
                                      (Some (serverLabel sIdx))) st
              else st in
            let pool := pool ++ [currCust] in
            (install sIdx bestInPool st, spliceOut bestInPool pool)
          else sp
      | _, _ => sp
      end.

Definition preemption (sp : State * list nat) : State * list nat :=
      match usePriority, snd sp with
      | true, _ :: _ => fold_left preemptServer (seq 0 servers) sp
      | _, _ => sp
      end.

    (** 4. The candidate times of the next event. *)
Definition possibleEvents (st : State) : list Z :=
      match find (fun i => currentTime st <? arrivalTimes !!! i) (seq 0 n) with
      | Some i => [arrivalTimes !!! i]
      | None => []
      end
      ++ flat_map (fun sIdx =>
                     match serverOccupancy st !!! sIdx with
                     | Some cIdx => [currentTime st + remainingTimes st !!! cIdx]
                     | None => []
                     end)
                  (seq 0 servers).

    (** 5. The body of the work loop, for server [sIdx]. *)
Definition workServer (nextEventTime timeJump : Z) (st : State) (sIdx : nat) : State :=
      match serverOccupancy st !!! sIdx with
      | Some cIdx =>
          let remaining' := remainingTimes st !!! cIdx - timeJump in
          let remainingTimes' := <[cIdx := remaining']> (remainingTimes st) in
          if remaining' <=? 0 then
            mkState (currentTime st) remainingTimes' (serviceStart st)
                    (<[cIdx := nextEventTime]> (serviceEnd st))
                    (serverAssigned st)
                    (<[cIdx := true]> (servedMask st))
                    (<[sIdx := None]> (serverOccupancy st))
                    (lastChunkStart st)
                    (chunks st ++ [mkChunk (customerLabel cIdx) (lastChunkStart st !!! cIdx)
                                           nextEventTime (Some (serverLabel sIdx))])
          else
            mkState (currentTime st) remainingTimes' (serviceStart st) (serviceEnd st)
                    (serverAssigned st) (servedMask st) (serverOccupancy st)
                    (lastChunkStart st) (chunks st)
      | None => st
      end.

Definition setTime (t : Z) (st : State) : State :=
      mkState t (remainingTimes st) (serviceStart st) (serviceEnd st)
              (serverAssigned st) (servedMask st) (serverOccupancy st)
              (lastChunkStart st) (chunks st).

    (** How one pass through the loop body ends. *)
Inductive Outcome : Type :=
    | Continue (st : State)
    | Break (st : State).

Definition step (st : State) : Outcome :=
      let sp := fold_left assignServer (seq 0 servers) (st, waitingPool st) in
      let st := fst (preemption sp) in
      match possibleEvents st with
      | [] => Break st
      | (_ :: _) as events =>
          let nextEventTime := minZ events in
          let timeJump := nextEventTime - currentTime st in
          let st := fold_left (workServer nextEventTime timeJump) (seq 0 servers) st in
          Continue (setTime nextEventTime st)
      end.

Fixpoint loop (fuel : nat) (st : State) : option State :=
      if forallb id (servedMask st) then Some st
      else
        match fuel with
        | O => None
        | S fuel' =>
            match step st with
            | Continue st' => loop fuel' st'
            | Break st' => Some st'
            end
        end.

End Loop.

Definition initial (n servers : nat) (serviceTimes : list Z) : State :=
    mkState 0 serviceTimes (replicate n (-1)) (replicate n 0) (replicate n "")
            (replicate n false) (replicate servers None) (replicate n 0) [].

  (** The occupancy histogram: [timeline[t] += 1] for every [t] from
      [serviceStart] up to [serviceEnd - 1] of each valid row. *)
Definition markBusy (timeline : list Z) (r : SimulationRow) : list Z :=
    fold_left (fun tl t => <[t := tl !!! t + 1]> tl)
              (seq (Z.to_nat (rowServiceStart r))
                   (Z.to_nat (rowServiceEnd r - rowServiceStart r)))
              timeline.

Definition utilization (servers : nat) (rows : list SimulationRow) (st : State) : num :=
    let validRows :=
      List.filter (fun r => (0 <=? rowServiceStart r) && (0 <=? rowServiceEnd r)) rows in
    let simulationEnd := fold_left Z.max (serviceEnd st) 0 in
    let timeline := replicate (Z.to_nat (simulationEnd + 1)) 0 in
    let timeline := fold_left markBusy validRows timeline in
    let totalBusyTime :=
      fold_left (fun acc val => acc + Z.min val (Z.of_nat servers)) timeline 0 in
    let totalTimeObserved := simulationEnd in
    let utilization :=
      if 0 <? totalTimeObserved
      then mul (div (ofZ totalBusyTime) (ofZ (totalTimeObserved * Z.of_nat servers)))
               (Fin 100)
      else Fin 0 in
    min utilization (Fin 100).

Definition result (interArrivals arrivalTimes serviceTimes priorities : list Z)
                    (servers : nat) (st : State) : SimulationResult :=
    let rows := buildRows interArrivals arrivalTimes serviceTimes priorities
                          (serviceStart st) (serviceEnd st)
                          (fun i => Some (serverAssigned st !!! i)) in
    mkResult rows (chunks st)
             (buildAverages rows interArrivals serviceTimes
                            (utilization servers rows st) (length arrivalTimes)).

  (** The body shared by [mmsSSimulation] and [mgsSSimulation]; the arrays
      drawn before the loop are the arguments, as for the single server. *)
Definition simulate (interArrivals serviceTimes priorities : list Z)
                      (servers : nat) (usePriority : bool) (fuel : nat)
    : option SimulationResult :=
    let arrivalTimes := cumSum interArrivals in
    let n := length arrivalTimes in
    match loop arrivalTimes priorities servers usePriority fuel
               (initial n servers serviceTimes) with
    | Some st => Some (result interArrivals arrivalTimes serviceTimes priorities servers st)
    | None => None
    end.

End Multi.

Definition mmsSSimulation := Multi.simulate.
Definition mgsSSimulation := Multi.simulate.

(** ** Vocabulary of the properties *)

(** *** Calculator *)

(** The models with one server, whose utilization is [lambda / mu]. *)
Definition single_server (model : QueuingModel) : bool :=
  match model with MM1 | MG1 | GG1 => true | _ => false end.

(** The destructuring defaults: [s = 1], [sigma = 1 / mu], [ca = 1],
    [cs = sigma * mu]. *)
Definition serversOf (input : QueuingInput) : num := Fin (inject_Z (default 1 (s input))).
Definition sigmaOf (input : QueuingInput) : num := default (div (Fin 1) (mu input)) (sigma input).
Definition caOf (input : QueuingInput) : num := default (Fin 1) (ca input).
Definition csOf (input : QueuingInput) : num := default (mul (sigmaOf input) (mu input)) (cs input).

(** The guard that opens each calculator: true when the input is rejected. *)
Definition fails_validation (model : QueuingModel) (input : QueuingInput) : bool :=
  match model with
  | MM1 => le (mu input) (Fin 0) || lt (lambda input) (Fin 0)
  | MMS => le (mu input) (Fin 0) || lt (lambda input) (Fin 0) || le (serversOf input) (Fin 0)
  | MG1 => le (mu input) (Fin 0) || lt (lambda input) (Fin 0) || lt (sigmaOf input) (Fin 0)
  | MGS => le (mu input) (Fin 0) || lt (lambda input) (Fin 0) || le (serversOf input) (Fin 0)
           || lt (sigmaOf input) (Fin 0)
  | GG1 => le (mu input) (Fin 0) || lt (lambda input) (Fin 0) || lt (sigmaOf input) (Fin 0)
           || lt (caOf input) (Fin 0) || lt (csOf input) (Fin 0)
  | GGS => le (mu input) (Fin 0) || lt (lambda input) (Fin 0) || le (serversOf input) (Fin 0)
           || lt (sigmaOf input) (Fin 0) || lt (caOf input) (Fin 0) || lt (csOf input) (Fin 0)
  end.

(** [rho] as each calculator computes it. *)
Definition utilization_of (model : QueuingModel) (input : QueuingInput) : num :=
  if single_server model then div (lambda input) (mu input)
  else div (lambda input) (mul (serversOf input) (mu input)).

(** A value that is zero or [NaN]: what a product or quotient with a zero
    numerator can be. *)
Definition zero_or_nan (x : num) : Prop :=
  match x with
  | Fin q => (q == 0)%Q
  | NaN => True
  | _ => False
  end.

(** *** Arrival table *)

Open Scope Q_scope.

(** A concrete [Math.exp] for evaluating the table: the Taylor polynomial
    of degree 40, which is within [1e-30] of the exponential on [[-3, 0]]. *)
Definition exp_taylor (x : Q) : Q :=
  fst (fold_left (fun '(acc, term) k =>
                    let term := Qred (term * x / inject_Z (Z.of_nat k)) in
                    (Qred (acc + term), term))
                 (seq 1 40) (1, 1)).

Definition nondecreasing (c : list Q) : Prop :=
  forall i j : nat, (i <= j)%nat -> (j < length c)%nat -> c !!! i <= c !!! j.

Close Scope Q_scope.

(** *** Schedulers *)

(** Ties broken by lowest index: the chosen customer is in the pool, no customer
    of the pool has a smaller priority number (priority mode), and among
    the customers tied with it none has a lower index. *)
Definition lowest_index_tie_break (usePriority : bool) (priorities : list Z)
                                  (pool : list nat) (chosen : nat) : Prop :=
  chosen ∈ pool /\
  forall c : nat, c ∈ pool ->
    if usePriority
    then priorities !!! chosen <= priorities !!! c /\
         (priorities !!! c = priorities !!! chosen -> (chosen <= c)%nat)
    else (chosen <= c)%nat.

(** A pool listed by increasing customer index, as the scan that builds it
    leaves it. *)
Definition increasing (pool : list nat) : Prop := StronglySorted Nat.lt pool.

(** The work recorded for one label: the sum of [end - start] over the
    chunks that carry it. *)
Definition chunkTotal (lbl : string) (cs : list ServiceChunk) : Z :=
  sumZ (map (fun c => end_ c - start c)
            (List.filter (fun c => String.eqb (label c) lbl) cs)).

(** The customers that have not arrived at time [t]. *)
Definition notArrived (arrivalTimes : list Z) (t : Z) : list nat :=
  List.filter (fun i => t <? arrivalTimes !!! i) (seq 0 (length arrivalTimes)).

(** What the single-server loop keeps true of its variables between two
    passes, for the arrays [arrivalTimes] and [serviceTimes] it was started
    on. *)
Record SingleInv (arrivalTimes serviceTimes : list Z) (st : Single.State) : Prop := {
  si_len_remaining : length (Single.remainingTimes st) = length arrivalTimes;
  si_len_starts : length (Single.serviceStarts st) = length arrivalTimes;
  si_len_ends : length (Single.serviceEnds st) = length arrivalTimes;
  si_len_served : length (Single.servedMask st) = length arrivalTimes;
  si_time : 0 <= Single.currentTime st;
  si_remaining : forall i, (i < length arrivalTimes)%nat ->
    0 <= Single.remainingTimes st !!! i <= serviceTimes !!! i;
  si_served : forall i, (i < length arrivalTimes)%nat ->
    (Single.servedMask st !!! i = true <-> Single.remainingTimes st !!! i = 0);
  si_chunks : forall i, (i < length arrivalTimes)%nat ->
    chunkTotal (customerLabel i) (Single.chunks st)
    = serviceTimes !!! i - Single.remainingTimes st !!! i;
  si_stamp : forall i, (i < length arrivalTimes)%nat -> Single.servedMask st !!! i = true ->
    Single.serviceStarts st !!! i + serviceTimes !!! i <= Single.serviceEnds st !!! i /\
    Single.serviceEnds st !!! i <= Single.currentTime st /\
    exists c, c ∈ Single.chunks st /\ label c = customerLabel i
              /\ end_ c = Single.serviceEnds st !!! i;
  si_starts : forall i, (i < length arrivalTimes)%nat ->
    Single.serviceStarts st !!! i = -1 \/
    0 <= Single.serviceStarts st !!! i <= Single.currentTime st;
  si_busy : sumZ (Single.remainingTimes st) = sumZ serviceTimes \/
    exists i0, (i0 < length arrivalTimes)%nat /\ 0 <= Single.serviceStarts st !!! i0 /\
      sumZ serviceTimes - sumZ (Single.remainingTimes st) + Single.serviceStarts st !!! i0
      <= Single.currentTime st;
  si_last : forallb id (Single.servedMask st) = true ->
    length arrivalTimes = 0%nat \/
    exists i, (i < length arrivalTimes)%nat /\
              Single.serviceEnds st !!! i = Single.currentTime st;
  si_begun : forall i, (i < length arrivalTimes)%nat ->
    (Single.serviceStarts st !!! i = -1 ->
     Single.remainingTimes st !!! i = serviceTimes !!! i) /\
    (Single.serviceStarts st !!! i <> -1 ->
     arrivalTimes !!! i <= Single.serviceStarts st !!! i /\
     Single.serviceStarts st !!! i + (serviceTimes !!! i - Single.remainingTimes st !!! i)
     <= Single.currentTime st);
  si_chain : StronglySorted (fun a b => end_ a <= start b) (Single.chunks st) /\
    forall c, c ∈ Single.chunks st -> 0 <= start c < end_ c /\ end_ c <= Single.currentTime st
}.

(** The quantity that bounds the passes left: the work still to do plus
    the number of customers still to arrive. *)
Definition singleMeasure (arrivalTimes : list Z) (st : Single.State) : Z :=
  sumZ (Single.remainingTimes st)
  + Z.of_nat (length (notArrived arrivalTimes (Single.currentTime st))).

(** Customer [c] is on no server. *)
Definition offServer (st : Multi.State) (c : nat) : Prop :=
  forall sIdx, (sIdx < length (Multi.serverOccupancy st))%nat ->
               Multi.serverOccupancy st !!! sIdx <> Some c.

(** What the multi-server loop keeps true of its variables.  Between two
    passes the clock is [now = next].  Inside the work loop [now] is the
    clock, [next] the time of the next event, and the servers below [k]
    have been advanced to [next] already. *)
Record MultiInvG (arrivalTimes serviceTimes : list Z) (servers k : nat) (now next : Z)
                 (st : Multi.State) : Prop := {
  mg_len_remaining : length (Multi.remainingTimes st) = length arrivalTimes;
  mg_len_start : length (Multi.serviceStart st) = length arrivalTimes;
  mg_len_end : length (Multi.serviceEnd st) = length arrivalTimes;
  mg_len_assigned : length (Multi.serverAssigned st) = length arrivalTimes;
  mg_len_served : length (Multi.servedMask st) = length arrivalTimes;
  mg_len_last : length (Multi.lastChunkStart st) = length arrivalTimes;
  mg_len_occ : length (Multi.serverOccupancy st) = servers;
  mg_now : Multi.currentTime st = now;
  mg_time : 0 <= now <= next;
  mg_remaining : forall i, (i < length arrivalTimes)%nat ->
    0 <= Multi.remainingTimes st !!! i <= serviceTimes !!! i;
  mg_served : forall i, (i < length arrivalTimes)%nat ->
    (Multi.servedMask st !!! i = true <-> Multi.remainingTimes st !!! i = 0);
  mg_occ : forall sIdx c, (sIdx < servers)%nat -> Multi.serverOccupancy st !!! sIdx = Some c ->
    (c < length arrivalTimes)%nat /\ Multi.servedMask st !!! c = false /\
    0 <= Multi.lastChunkStart st !!! c <= now /\
    Multi.serviceStart st !!! c <> -1 /\
    arrivalTimes !!! c <= Multi.serviceStart st !!! c /\
    arrivalTimes !!! c <= now /\
    Multi.serviceStart st !!! c + chunkTotal (customerLabel c) (Multi.chunks st)
      <= Multi.lastChunkStart st !!! c /\
    ((k <= sIdx)%nat -> next - now <= Multi.remainingTimes st !!! c);
  mg_inj : forall sIdx sIdx' c, (sIdx < servers)%nat -> (sIdx' < servers)%nat ->
    Multi.serverOccupancy st !!! sIdx = Some c ->
    Multi.serverOccupancy st !!! sIdx' = Some c -> sIdx = sIdx';
  mg_on : forall sIdx c, (sIdx < servers)%nat -> Multi.serverOccupancy st !!! sIdx = Some c ->
    chunkTotal (customerLabel c) (Multi.chunks st)
    + ((if (sIdx <? k)%nat then next else now) - Multi.lastChunkStart st !!! c)
    = serviceTimes !!! c - Multi.remainingTimes st !!! c;
  mg_off : forall i, (i < length arrivalTimes)%nat -> offServer st i ->
    chunkTotal (customerLabel i) (Multi.chunks st)
    = serviceTimes !!! i - Multi.remainingTimes st !!! i /\
    (Multi.serviceStart st !!! i = -1 -> chunkTotal (customerLabel i) (Multi.chunks st) = 0) /\
    (Multi.serviceStart st !!! i <> -1 ->
     arrivalTimes !!! i <= Multi.serviceStart st !!! i /\
     Multi.serviceStart st !!! i + chunkTotal (customerLabel i) (Multi.chunks st) <= next);
  mg_stamp : forall i, (i < length arrivalTimes)%nat -> Multi.servedMask st !!! i = true ->
    Multi.serviceStart st !!! i <> -1 /\
    Multi.serviceStart st !!! i + serviceTimes !!! i <= Multi.serviceEnd st !!! i /\
    Multi.serviceEnd st !!! i <= next /\
    exists c, c ∈ Multi.chunks st /\ label c = customerLabel i
              /\ end_ c = Multi.serviceEnd st !!! i;
  mg_chunks : forall c, c ∈ Multi.chunks st -> 0 <= start c < end_ c /\ end_ c <= next
}.

(** The invariant between two passes of the loop. *)
Definition MultiInv (arrivalTimes serviceTimes : list Z) (servers : nat)
                    (st : Multi.State) : Prop :=
  MultiInvG arrivalTimes serviceTimes servers 0
            (Multi.currentTime st) (Multi.currentTime st) st.

(** What holds of the waiting pool while servers are assigned and
    preempted: its customers are distinct, have arrived, are unserved and
    are on no server. *)
Definition PoolOK (arrivalTimes : list Z) (st : Multi.State) (pool : list nat) : Prop :=
  NoDup pool /\
  forall c, c ∈ pool ->
    (c < length arrivalTimes)%nat /\ Multi.servedMask st !!! c = false /\
    arrivalTimes !!! c <= Multi.currentTime st /\ offServer st c.

(** Server [sIdx] freed; the preemption branch overwrites the occupant in
    one assignment, which the proofs split into freeing and installing. *)
Definition vacate (sIdx : nat) (st : Multi.State) : Multi.State :=
  Multi.mkState (Multi.currentTime st) (Multi.remainingTimes st) (Multi.serviceStart st)
                (Multi.serviceEnd st) (Multi.serverAssigned st) (Multi.servedMask st)
                (<[sIdx := None]> (Multi.serverOccupancy st))
                (Multi.lastChunkStart st) (Multi.chunks st).

(** What the assignment and preemption passes leave alone: the clock, the
    work counters, the served flags and the completion times; and a busy
    server stays busy. *)
Definition passFrame (st st' : Multi.State) : Prop :=
  Multi.currentTime st' = Multi.currentTime st /\
  Multi.remainingTimes st' = Multi.remainingTimes st /\
  Multi.servedMask st' = Multi.servedMask st /\
  Multi.serviceEnd st' = Multi.serviceEnd st /\
  forall sIdx, Multi.serverOccupancy st !!! sIdx <> None ->
               Multi.serverOccupancy st' !!! sIdx <> None.

Definition multiMeasure (arrivalTimes : list Z) (st : Multi.State) : Z :=
  sumZ (Multi.remainingTimes st)
  + Z.of_nat (length (notArrived arrivalTimes (Multi.currentTime st))).

(** The four entry points of [lib/simulation]. *)
Inductive Variant : Type := VMM1 | VMMS | VMG1 | VMGS.

Definition runSimulation (v : Variant) (interArrivals serviceTimes priorities : list Z)
                         (servers : nat) (usePriority : bool) (fuel : nat)
  : option SimulationResult :=
  match v with
  | VMM1 => mm1Simulation interArrivals serviceTimes priorities usePriority fuel
  | VMG1 => mg1Simulation interArrivals serviceTimes priorities usePriority fuel
  | VMMS => mmsSSimulation interArrivals serviceTimes priorities servers usePriority fuel
  | VMGS => mgsSSimulation interArrivals serviceTimes priorities servers usePriority fuel
  end.

(** A percentage: a finite number between 0 and 100. *)
Definition is_percentage (x : num) : Prop :=
  exists q : Q, x = Fin q /\ (0 <= q)%Q /\ (q <= 100)%Q.

(** A completion time that was stamped: it is the end of a chunk of the
    customer, and lies at least the service time after the arrival. *)
Definition stamped (arrivalTimes serviceTimes serviceEnds : list Z)
                   (chunks : list ServiceChunk) (i : nat) : Prop :=
  arrivalTimes !!! i + serviceTimes !!! i <= serviceEnds !!! i /\
  exists c, c ∈ chunks /\ label c = customerLabel i /\ end_ c = serviceEnds !!! i.

(** *** Further functions of the two libraries *)

(** [getRequiredInputs]; the [default] branch is not reachable from a
    [QueuingModel]. *)
Definition getRequiredInputs (model : QueuingModel) : list string :=
  match model with
  | MM1 => ["lambda"; "mu"]
  | MMS => ["lambda"; "mu"; "s"]
  | MG1 => ["lambda"; "mu"; "sigma"]
  | MGS => ["lambda"; "mu"; "s"; "sigma"]
  | GG1 => ["lambda"; "mu"; "ca"; "cs"]
  | GGS => ["lambda"; "mu"; "s"; "ca"; "cs"]
  end.

(** One element of [generatePriorities]:
    [Math.floor(Math.random() * 3) + 1]. *)
Definition priorityOf (u : Q) : Z := Qfloor (u * 3) + 1.

(** [generatePriorities]; the [j]-th call of the random source returns
    [randomUniform j]. *)
Definition generatePriorities (randomUniform : nat -> Q) (count : nat) : list Z :=
  map (fun j => priorityOf (randomUniform j)) (seq 0 count).

(** *** Vocabulary of the further properties *)




(** The running sums of [arr] from [sum] on: what the loop of [cumSum]
    pushes. *)
Fixpoint prefixSums (sum : Z) (arr : list Z) : list Z :=
  match arr with
  | [] => []
  | v :: arr' => (sum + v) :: prefixSums (sum + v) arr'
  end.

(** The states the multi-server loop passes through: the initial one, and
    the one each pass that continues leaves behind. *)
Inductive multi_reachable (arrivalTimes serviceTimes priorities : list Z)
          (servers : nat) (usePriority : bool) : Multi.State -> Prop :=
| multi_reach_initial :
    multi_reachable arrivalTimes serviceTimes priorities servers usePriority
                    (Multi.initial (length arrivalTimes) servers serviceTimes)
| multi_reach_step st st' :
    multi_reachable arrivalTimes serviceTimes priorities servers usePriority st ->
    forallb id (Multi.servedMask st) = false ->
    Multi.step arrivalTimes priorities servers usePriority st = Multi.Continue st' ->
    multi_reachable arrivalTimes serviceTimes priorities servers usePriority st'.

(** The times of one row of the result table are consistent. *)
Definition row_times_ok (r : SimulationRow) : Prop :=
  arrivalTime r <= rowServiceStart r /\
  rowServiceStart r + serviceTime r <= rowServiceEnd r /\
  0 <= responseTime r /\ 0 <= waitTime r /\ serviceTime r <= turnaroundTime r.
(** *** The calculator on doubles

    Where a property depends on how the operations round, the functions
    it is about are embedded on binary64 numbers: [float] is the IEEE 754
    double of the kernel, and [+], [-], [*], [/] and the comparisons are
    the rounded operations of JavaScript.  The server count stays an
    integer, as in the embedding above. *)

Module Binary64.

(** An integer read as a [number]: the nearest double. *)
Definition ofZ (z : Z) : float := SF2Prim (binary_normalize prec emax z 0 false).

Record QueuingInput : Type := mkInput {
  lambda : float;
  mu : float;
  s : option Z;
  sigma : option float;
  ca : option float;
  cs : option float
}.

Record QueuingResults : Type := mkResults {
  rho : float;
  stable : bool;
  Lq : float;
  Wq : float;
  W : float;
  L : float;
  error : option string
}.

(** [factorial(n)]: [result *= i] for [i] from 2 to [n], on doubles. *)
Definition factorial (n : Z) : float :=
  fold_left (fun result i => (result * ofZ (Z.of_nat i))%float)
            (seq 2 (Z.to_nat n - 1)) 1%float.

Definition invalid_result (msg : string) : QueuingResults :=
  mkResults 0%float false 0%float 0%float 0%float 0%float (Some msg).

Definition unstable_result (rho : float) : QueuingResults :=
  mkResults rho false infinity infinity infinity infinity None.

Definition stable_result (rho Lq Wq W L : float) : QueuingResults :=
  mkResults rho true Lq Wq W L None.

Definition calculateMM1 (input : QueuingInput) : QueuingResults :=
  let lambda := lambda input in
  let mu := mu input in
  if (mu <=? 0)%float || (lambda <? 0)%float then
    invalid_result "Invalid lambda or mu values"
  else
    let rho := (lambda / mu)%float in
    if (1 <=? rho)%float then unstable_result rho
    else
      let Lq := (rho * rho / (1 - rho))%float in
      let Wq := (Lq / lambda)%float in
      let W := (Wq + 1 / mu)%float in
      let L := (lambda * W)%float in
      stable_result rho Lq Wq W L.

Section MathPow.

  (** [Math.pow] at an integer exponent. *)
Variable Math_pow : float -> Z -> float.

Definition erlangC (lambda mu : float) (s : Z) : float :=
    let s' := ofZ s in
    let rho := (lambda / (s' * mu))%float in
    if (1 <=? rho)%float then 1%float
    else
      let a := (lambda / mu)%float in
      let numerator := (Math_pow a s / factorial s)%float in
      let numerator := (numerator / (1 - rho))%float in
      let denominator :=
        fold_left (fun acc k => (acc + Math_pow a (Z.of_nat k) / factorial (Z.of_nat k))%float)
                  (seq 0 (Z.to_nat s)) 0%float in
      let denominator := (denominator + numerator)%float in
      (numerator / denominator)%float.

Definition calculateMMS (input : QueuingInput) : QueuingResults :=
    let lambda := lambda input in
    let mu := mu input in
    let s := default 1%Z (s input) in
    let s' := ofZ s in
    if (mu <=? 0)%float || (lambda <? 0)%float || (s' <=? 0)%float then
      invalid_result "Invalid input values"
    else
      let rho := (lambda / (s' * mu))%float in
      if (1 <=? rho)%float then unstable_result rho
      else
        let Pw := erlangC lambda mu s in
        let Wq := (Pw / (s' * mu - lambda))%float in
        let Lq := (lambda * Wq)%float in
        let W := (Wq + 1 / mu)%float in
        let L := (lambda * W)%float in
        stable_result rho Lq Wq W L.

End MathPow.

End Binary64.

(** A concrete [Math.pow] for evaluating the calculator: the product of
    [k] factors [x].  At the exponents 0 and 1 the product is exact, as
    [Math.pow] is. *)
Definition pow_by_products (x : float) (k : Z) : float :=
  Nat.iter (Z.to_nat k) (fun r => (x * r)%float) 1%float.

(** The integer a double holds, when it holds one. *)
Definition integer_value (x : float) : option Z :=
  match Prim2SF x with
  | S754_zero _ => Some 0
  | S754_finite sg m e =>
      if 0 <=? e then Some (cond_Zopp sg (Zpos m * 2 ^ e))
      else if Zpos m mod 2 ^ (- e) =? 0 then Some (cond_Zopp sg (Zpos m / 2 ^ (- e)))
      else None
  | _ => None
  end.

(** [k!] as an integer. *)
Fixpoint zfact (k : nat) : Z :=
  match k with
  | O => 1
  | S k' => Z.of_nat k * zfact k'
  end.
(** * Proofs *)

(** ** Calculator *)

Lemma validation_error model input :
  fails_validation model input = true <-> error (calculateQueuingMetrics model input) <> None.
Proof.
  destruct model; cbn [calculateQueuingMetrics fails_validation];
  unfold calculateMM1, calculateMMS, calculateMG1, calculateMGS, calculateGG1, calculateGGS,
    csOf, caOf, sigmaOf, serversOf; cbv zeta.
  all: match goal with |- ?b = true <-> _ => destruct b eqn:Hb end; cbn [error invalid_result].
  all: try (split; [discriminate | congruence]).
  all: repeat match goal with |- context [if ?c then _ else _] => destruct c end; cbn [error unstable_result stable_result]; (split; [discriminate | intros H; exfalso; apply H; reflexivity]).
Qed.

(** C6.  Whenever the input passes validation and the utilization is at
    least 1, every calculator returns [stable = false], the four metrics
    [+Infinity] and no error string. *)
Theorem unstable_when_rho_ge_1 (model : QueuingModel) (input : QueuingInput) :
  fails_validation model input = false ->
  ge (utilization_of model input) (Fin 1) = true ->
  let r := calculateQueuingMetrics model input in
  rho r = utilization_of model input /\ stable r = false /\
  Lq r = PInf /\ Wq r = PInf /\ W r = PInf /\ L r = PInf /\ error r = None.
Proof.
  intros Hv Hrho.
  destruct model; cbn [calculateQueuingMetrics fails_validation utilization_of single_server] in *;
  unfold calculateMM1, calculateMMS, calculateMG1, calculateMGS, calculateGG1, calculateGGS,
    csOf, caOf, sigmaOf, serversOf in *; cbv zeta.
  all: rewrite Hv, Hrho; cbn; repeat split; reflexivity.
Qed.

Open Scope Q_scope.

Lemma Qeq_bool_zero (a : Q) : a == 0 -> Qeq_bool a 0 = true.
Proof. apply Qeq_bool_iff. Qed.

Lemma Qeq_bool_nonzero (a : Q) : ~ a == 0 -> Qeq_bool a 0 = false.
Proof. intros H. destruct (Qeq_bool a 0) eqn:E; [|reflexivity]. apply Qeq_bool_iff in E. tauto. Qed.

Lemma Qle_bool_false (a b : Q) : b < a -> Qle_bool a b = false.
Proof.
  intros H. destruct (Qle_bool a b) eqn:E; [|reflexivity].
  apply Qle_bool_iff in E. lra.
Qed.

Lemma Qle_bool_true (a b : Q) : a <= b -> Qle_bool a b = true.
Proof. apply Qle_bool_iff. Qed.


Lemma sign_of_zero (a : Q) : a == 0 -> sign_of (Fin a) = Eq.
Proof. intros H. cbn. now apply Qeq_alt. Qed.

Lemma zero_or_nan_mul_l x y : zero_or_nan x -> zero_or_nan (mul x y).
Proof.
  destruct x as [a| | |], y as [b| | |]; cbn; try tauto.
  - intros ->. ring.
  - intros H. apply Qeq_alt in H. now rewrite H.
  - intros H. apply Qeq_alt in H. now rewrite H.
Qed.

Lemma zero_or_nan_mul_r x y : zero_or_nan y -> zero_or_nan (mul x y).
Proof.
  destruct x as [a| | |], y as [b| | |]; cbn; try tauto.
  - intros ->. ring.
  - intros H. apply Qeq_alt in H. now rewrite H.
  - intros H. apply Qeq_alt in H. now rewrite H.
Qed.

Lemma zero_or_nan_div x y : zero_or_nan x -> zero_or_nan (div x y).
Proof.
  destruct x as [a| | |], y as [b| | |]; cbn; try tauto; try reflexivity.
  intros H. destruct (Qeq_bool b 0) eqn:E.
  - apply Qeq_alt in H. now rewrite H.
  - cbn. rewrite H. apply Qeq_bool_neq in E. field. exact E.
Qed.

Lemma zero_or_nan_add x y : zero_or_nan x -> zero_or_nan y -> zero_or_nan (add x y).
Proof.
  destruct x as [a| | |], y as [b| | |]; cbn; try tauto.
  intros -> ->. ring.
Qed.

Lemma div_zero_or_nan_by_zero x (l : Q) : zero_or_nan x -> l == 0 -> div x (Fin l) = NaN.
Proof.
  destruct x as [a| | |]; cbn; try tauto.
  intros Ha Hl. rewrite (Qeq_bool_zero _ Hl). apply Qeq_alt in Ha. now rewrite Ha.
Qed.

Lemma add_NaN_l x : add NaN x = NaN.
Proof. reflexivity. Qed.

Lemma mul_NaN_r x : mul x NaN = NaN.
Proof. now destruct x. Qed.

Lemma zero_rate_utilization (l : Q) (mu : num) :
  l == 0 -> lt (Fin 0) mu = true -> exists r, div (Fin l) mu = Fin r /\ r == 0.
Proof.
  intros Hl Hmu. destruct mu as [m| | |]; try discriminate.
  - cbn in Hmu. destruct (Qeq_bool m 0) eqn:E.
    + apply Qeq_bool_iff in E. rewrite E in Hmu. discriminate.
    + exists (l / m). cbn. rewrite E. split; [reflexivity|].
      apply Qeq_bool_neq in E. rewrite Hl. now field.
  - exists 0. split; reflexivity.
Qed.

(** C10.  With [lambda = 0] and [mu > 0] the single-server calculators
    ([calculateMM1], [calculateMG1], [calculateGG1]) pass validation and
    report [stable = true] without error, and their [Wq], [W] and [L] are
    [NaN]: [Wq = Lq / lambda] divides zero by zero. *)
Theorem zero_arrival_rate_gives_NaN (model : QueuingModel) (input : QueuingInput) (l : Q) :
  single_server model = true ->
  lambda input = Fin l -> l == 0 ->
  lt (Fin 0) (mu input) = true ->
  fails_validation model input = false ->
  let r := calculateQueuingMetrics model input in
  stable r = true /\ error r = None /\ Wq r = NaN /\ W r = NaN /\ L r = NaN.
Proof.
  intros Hs Hl Hl0 Hmu Hv.
  destruct (zero_rate_utilization l (mu input) Hl0 Hmu) as (r & Hr & Hr0).
  assert (Hge : ge (Fin r) (Fin 1) = false).
  { cbn. apply Qle_bool_false. rewrite Hr0. reflexivity. }
  assert (Hrr : zero_or_nan (mul (Fin r) (Fin r))).
  { cbn. rewrite Hr0. ring. }
  destruct model; try discriminate Hs;
    cbn [calculateQueuingMetrics fails_validation] in *;
    unfold calculateMM1, calculateMG1, calculateGG1, csOf, caOf, sigmaOf in *; cbv zeta;
    rewrite Hv, Hl, Hr, Hge; cbn [stable error Wq W L stable_result].
  - rewrite (div_zero_or_nan_by_zero _ l); [| now apply zero_or_nan_div | exact Hl0].
    rewrite add_NaN_l, mul_NaN_r. tauto.
  - rewrite (div_zero_or_nan_by_zero _ l); [| | exact Hl0].
    + rewrite add_NaN_l, mul_NaN_r. tauto.
    + apply zero_or_nan_div, zero_or_nan_add; [| exact Hrr].
      apply zero_or_nan_mul_l, zero_or_nan_mul_l. cbn. rewrite Hl0. ring.
  - rewrite (div_zero_or_nan_by_zero _ l); [| | exact Hl0].
    + rewrite add_NaN_l, mul_NaN_r. tauto.
    + apply zero_or_nan_div, zero_or_nan_mul_l, zero_or_nan_mul_l. exact Hrr.
Qed.

Lemma zero_arrival_rate_gives_NaN_witness :
  let r := calculateQueuingMetrics MG1 (mkInput (Fin 0) (Fin 5) None (Some (Fin 2)) None None) in
  stable r = true /\ error r = None /\ Wq r = NaN /\ W r = NaN /\ L r = NaN.
Proof.
  apply (zero_arrival_rate_gives_NaN MG1 (mkInput (Fin 0) (Fin 5) None (Some (Fin 2)) None None) 0);
    reflexivity.
Defined.


Lemma Qpos_nonzero (a : Q) : 0 < a -> ~ a == 0.
Proof. intros H E. rewrite E in H. discriminate. Qed.



Section OneServer.
Variables l m : Q.
Hypothesis Hl : 0 < l.
Hypothesis Hlm : l < m.

Let Hm : 0 < m.
Proof. lra. Qed.

Let Hrho : 0 < 1 + - (l / m).
Proof.
    assert (l / m < 1) by (apply Qlt_shift_div_r; lra). lra.
Qed.

End OneServer.

Lemma unstable_when_rho_ge_1_witness :
  let input := mkInput (Fin 10) (Fin 5) None None None None in
  let r := calculateQueuingMetrics MM1 input in
  rho r = utilization_of MM1 input /\ stable r = false /\
  Lq r = PInf /\ Wq r = PInf /\ W r = PInf /\ L r = PInf /\ error r = None.
Proof.
  apply (unstable_when_rho_ge_1 MM1 (mkInput (Fin 10) (Fin 5) None None None None));
    reflexivity.
Defined.

(** C5.  At [lambda = 0], [mu = 1] the input passes validation with
    [rho = 0 < 1], yet [calculateMM1] returns [W = NaN]: neither
    [W = Wq + 1/mu] nor [L = lambda * W] holds within any tolerance.
    [calculateMMS] with one server, which computes [Wq] first and
    [Lq = lambda * Wq] from it, satisfies both at the same input. *)
Theorem littles_law_breaks_at_zero_arrival_rate :
  let input := mkInput (Fin 0) (Fin 1) (Some 1%Z) None None None in
  let r := calculateQueuingMetrics MM1 input in
  let r' := calculateQueuingMetrics MMS input in
  fails_validation MM1 input = false /\ lt (rho r) (Fin 1) = true /\
  stable r = true /\ error r = None /\ W r = NaN /\
  within_tol (W r) (add (Wq r) (div (Fin 1) (mu input))) = false /\
  within_tol (L r) (mul (lambda input) (W r)) = false /\
  within_tol (W r') (add (Wq r') (div (Fin 1) (mu input))) = true /\
  within_tol (L r') (mul (lambda input) (W r')) = true.
Proof. vm_compute. repeat split; reflexivity. Qed.

Close Scope Q_scope.

(** ** Generators and arrival table *)

Open Scope Q_scope.

Lemma max_one_ceil (x : Q) : is_integer_ge1 (max (Fin 1) (ceil (Fin x))).
Proof.
  unfold is_integer_ge1. cbn.
  destruct (Qle_bool 1 (inject_Z (Qceiling x))) eqn:E.
  - exists (Qceiling x). split; [|reflexivity].
    apply Qle_bool_iff in E. change 1 with (inject_Z 1) in E.
    now rewrite <- Zle_Qle in E.
  - exists 1%Z. split; [lia | reflexivity].
Qed.

Lemma uniformServiceTime_integer (a b u : Q) : is_integer_ge1 (uniformServiceTime a b u).
Proof. apply max_one_ceil. Qed.

Lemma exponentialServiceTime_integer (Math_ln : Q -> Q) (mu u : Q) :
  0 < u -> is_integer_ge1 (exponentialServiceTime Math_ln mu u).
Proof.
  intros Hu. unfold exponentialServiceTime, Math_log.
  rewrite (Qeq_bool_nonzero u) by (now apply Qpos_nonzero).
  rewrite (Qle_bool_false u 0) by exact Hu.
  apply max_one_ceil.
Qed.

Lemma normalServiceTime_integer (Math_ln Math_root Math_cosine : Q -> Q) (Math_PI : Q)
      (mu sigma r1 r2 : Q) :
  (forall q, 0 < q -> q < 1 -> Math_ln q <= 0) ->
  0 <= r1 -> r1 < 1 ->
  is_integer_ge1 (normalServiceTime Math_ln Math_root Math_cosine Math_PI mu sigma r1 r2).
Proof.
  intros Hln H0 H1. unfold normalServiceTime.
  set (r := if Qeq_bool r1 0 then 1 # 10000 else r1).
  assert (Hr : 0 < r /\ r < 1).
  { subst r. destruct (Qeq_bool r1 0) eqn:E.
    - split; reflexivity.
    - apply Qeq_bool_neq in E. split; [|exact H1].
      destruct (Qle_lt_or_eq _ _ H0) as [?|E']; [assumption|]. symmetry in E'. contradiction. }
  destruct Hr as [Hr0 Hr1]. unfold Math_log.
  rewrite (Qeq_bool_nonzero r) by (now apply Qpos_nonzero).
  rewrite (Qle_bool_false r 0) by exact Hr0.
  cbn [mul]. unfold Math_sqrt.
  rewrite Qle_bool_true.
  - cbn. apply max_one_ceil.
  - specialize (Hln r Hr0 Hr1). lra.
Qed.

(** C7.  On the draw [0] the exponential generator returns [Infinity],
    which is not an integer: [Math.log(0)] is [-Infinity] and the generator
    has no guard for it, unlike the normal generator. *)
Theorem exponentialServiceTime_zero_draw (Math_ln : Q -> Q) :
  exponentialServiceTime Math_ln 5 0 = PInf /\
  ~ is_integer_ge1 (exponentialServiceTime Math_ln 5 0).
Proof.
  assert (E : exponentialServiceTime Math_ln 5 0 = PInf) by reflexivity.
  split; [exact E|]. rewrite E. intros (z & _ & H). exact H.
Qed.

Lemma exponentialServiceTime_zero_draw_any_mean (Math_ln : Q -> Q) (mu : Q) :
  0 < mu -> exponentialServiceTime Math_ln mu 0 = PInf.
Proof.
  intros Hmu.
  assert (E : (- mu ?= 0) = Lt). { apply (proj1 (Qlt_alt _ _)). lra. }
  unfold exponentialServiceTime, Math_log. change (Qeq_bool 0 0) with true.
  cbv iota. unfold neg, mul, sign_of. rewrite E. reflexivity.
Qed.

Lemma round5_mono (a b : Q) : a <= b -> round5 a <= round5 b.
Proof.
  intros H. unfold round5.
  apply Qmult_le_compat_r; [|discriminate].
  rewrite <- Zle_Qle. apply Qfloor_resp_le. lra.
Qed.

Lemma round5_threshold (c : Q) : c <= threshold -> round5 c <= 1.
Proof.
  intros H. apply Qle_trans with (round5 threshold); [now apply round5_mono | discriminate].
Qed.

Lemma poissonLoop_entries (left : nat) :
  forall (lambda p cum : Q) (k : nat),
    0 <= lambda -> 0 <= p ->
    let t := map fst (poissonLoop left lambda p cum k) in
    StronglySorted Qle t /\ Forall (Qle (round5 (cum + p))) t /\
    Forall (fun x => x <= 1) (removelast t) /\ t <> [].
Proof.
  induction left as [|left IH]; intros lambda p cum k Hl Hp; cbn [poissonLoop map fst].
  - repeat split; try constructor; try discriminate; try apply Qle_refl; constructor.
  - destruct (Qle_bool threshold (cum + p)) eqn:E; cbn [map].
    + repeat split; try constructor; try discriminate; try apply Qle_refl; constructor.
    + assert (Hc : cum + p <= threshold).
      { destruct (Qlt_le_dec threshold (cum + p)) as [H|H]; [|exact H].
        apply Qlt_le_weak, Qle_bool_iff in H. congruence. }
      assert (Hp' : 0 <= p * (lambda / inject_Z (Z.of_nat (S k)))).
      { apply Qmult_le_0_compat; [exact Hp|].
        apply Qle_shift_div_l; [|lra].
        change 0 with (inject_Z 0). rewrite <- Zlt_Qlt. lia. }
      destruct (IH lambda (p * (lambda / inject_Z (Z.of_nat (S k)))) (cum + p) (S k) Hl Hp')
        as (Hs & Hge & Hrl & Hne).
      set (rest := map fst (poissonLoop left lambda _ (cum + p) (S k))) in *.
      assert (Hge' : Forall (Qle (round5 (cum + p))) rest).
      { eapply Forall_impl; [exact Hge|]. cbn. intros x Hx.
        eapply Qle_trans; [|exact Hx]. apply round5_mono. lra. }
      repeat split.
      * constructor; assumption.
      * constructor; [apply Qle_refl | assumption].
      * destruct rest as [|y rest'] eqn:Er; [congruence|].
        change (removelast (round5 (cum + p) :: y :: rest'))
          with (round5 (cum + p) :: removelast (y :: rest')).
        constructor; [now apply round5_threshold | exact Hrl].
      * discriminate.
Qed.

Lemma clampLast_snoc (t : list Q) :
  t <> [] -> clampLast t = removelast t ++ [Qmin (List.last t 0) 1].
Proof.
  intros Hne. destruct (exists_last Hne) as (t' & x & ->).
  unfold clampLast. destruct (t' ++ [x]) eqn:E; [now destruct t'|]. rewrite <- E.
  rewrite removelast_last, last_last, length_app. cbn [length].
  replace (length t' + 1 - 1)%nat with (length t' + 0)%nat by lia.
  rewrite insert_app_r. cbn.
  rewrite list_lookup_total_middle by lia. reflexivity.
Qed.

Lemma StronglySorted_snoc (t : list Q) (v : Q) :
  StronglySorted Qle t -> Forall (fun x => x <= v) t -> StronglySorted Qle (t ++ [v]).
Proof.
  induction 1 as [|x t Hs IH Hx]; intros Hv; cbn.
  - repeat constructor.
  - inversion Hv; subst. constructor; [now apply IH|].
    apply Forall_app; split; [exact Hx | now repeat constructor].
Qed.

Lemma StronglySorted_removelast (t : list Q) (x : Q) :
  StronglySorted Qle (t ++ [x]) -> StronglySorted Qle t /\ Forall (fun y => y <= x) t.
Proof.
  induction t as [|y t IH]; cbn; intros H.
  - split; constructor.
  - inversion H as [|? ? Hs Hy]; subst. destruct (IH Hs) as [Hs' Hx].
    apply Forall_app in Hy as [Hy Hyx]. inversion Hyx; subst.
    split; constructor; assumption.
Qed.

Lemma StronglySorted_nondecreasing (t : list Q) : StronglySorted Qle t -> nondecreasing t.
Proof.
  induction 1 as [|x t Hs IH Hx]; intros i j Hij Hj; cbn in Hj; [lia|].
  destruct i as [|i], j as [|j]; cbn; try lia.
  - apply Qle_refl.
  - rewrite Forall_forall in Hx. apply Hx, list_elem_of_lookup_total_2. lia.
  - apply IH; lia.
Qed.

Lemma poissonLoop_nonempty (left : nat) (lambda p cum : Q) (k : nat) :
  poissonLoop left lambda p cum k <> [].
Proof. destruct left; cbn [poissonLoop]; discriminate. Qed.

(** When the loop leaves before [k] reaches [maxK], it leaves on the
    threshold: the last running sum is at least 0.99999, and so is its
    rounding. *)
Lemma poissonLoop_threshold_exit (left : nat) :
  forall (lambda p cum : Q) (k : nat),
    (length (poissonLoop left lambda p cum k) <= left)%nat ->
    threshold <= List.last (map fst (poissonLoop left lambda p cum k)) 0.
Proof.
  induction left as [|left IH]; intros lambda p cum k Hlen; cbn [poissonLoop] in *.
  - cbn [length] in Hlen. lia.
  - destruct (Qle_bool threshold (cum + p)) eqn:E.
    + cbn [map fst List.last]. apply Qle_bool_iff in E.
      apply Qle_trans with (round5 threshold); [|now apply round5_mono].
      apply Qle_bool_iff. vm_compute. reflexivity.
    + cbn [length] in Hlen. cbn [map fst].
      pose proof (poissonLoop_nonempty left lambda
                    (p * (lambda / inject_Z (Z.of_nat (S k)))) (cum + p) (S k)) as Hne.
      specialize (IH lambda (p * (lambda / inject_Z (Z.of_nat (S k)))) (cum + p) (S k)
                     ltac:(lia)).
      destruct (poissonLoop left lambda _ (cum + p) (S k)) as [|y rest]; [congruence|].
      exact IH.
Qed.

Section Table.
Variable Math_exp : Q -> Q.
Variable lambda : Q.
Hypothesis lambda_pos : 0 < lambda.
Hypothesis exp_nonneg : 0 <= Math_exp (- lambda).

(** C3, amended.  For every [lambda > 0] the cumulative column of the
    table is non-empty and non-decreasing, and its final entry is at
    most 1; it is at least 0.99999 whenever the table has at most [maxK]
    rows, that is, whenever the loop leaves on the threshold and not on
    [k >= maxK]. *)
Theorem cpCum_nondecreasing_final_near_one :
    let c := cpCum (buildPoissonCDF Math_exp lambda) in
    c <> [] /\ nondecreasing c /\ c !!! (length c - 1)%nat <= 1 /\
    ((length c <= maxK)%nat -> threshold <= c !!! (length c - 1)%nat).
Proof.
    unfold buildPoissonCDF. cbn [cpCum].
    destruct (poissonLoop_entries maxK lambda (Math_exp (- lambda)) 0 0%nat
                (Qlt_le_weak _ _ lambda_pos) exp_nonneg) as (Hs & _ & Hrl & Hne).
    pose proof (poissonLoop_threshold_exit maxK lambda (Math_exp (- lambda)) 0 0%nat) as Hth.
    rewrite <- (length_map fst) in Hth.
    cbv zeta in Hs, Hrl, Hne.
    remember (map fst (poissonLoop maxK lambda (Math_exp (- lambda)) 0 0)) as t eqn:Ht.
    clear Ht.
    rewrite (clampLast_snoc t Hne).
    destruct (exists_last Hne) as (t' & x & Et). rewrite Et in *.
    rewrite removelast_last in *. rewrite last_last in *.
    apply StronglySorted_removelast in Hs as [Hs Hx].
    assert (Elen : length (t' ++ [Qmin x 1]) = length (t' ++ [x]))
      by (now rewrite !length_app).
    assert (Elast : (t' ++ [Qmin x 1]) !!! (length (t' ++ [Qmin x 1]) - 1)%nat = Qmin x 1).
    { rewrite length_app. cbn [length].
      replace (length t' + 1 - 1)%nat with (length t')%nat by lia.
      now rewrite list_lookup_total_middle by lia. }
    rewrite Elast. split; [now destruct t'|]. split; [|split].
    - apply StronglySorted_nondecreasing, StronglySorted_snoc; [exact Hs|].
      rewrite Forall_forall in *. intros y Hy.
      apply Q.min_glb; [now apply Hx | now apply Hrl].
    - apply Q.le_min_r.
    - rewrite Elen. intros Hrows. apply Q.min_glb; [now apply Hth|].
      apply Qle_bool_iff. vm_compute. reflexivity.
Qed.
End Table.

(** C3 as stated fails: for [lambda = 2] the running sum stops at
    [0.9999917], which rounds to [0.99999], and [Math.min(0.99999, 1.0)]
    leaves it there. *)
Lemma final_entry_below_one :
  (0 < 2)%Q /\ Qle_bool 0 (exp_taylor (- (2))) = true /\
  Qeq_bool (cpCum (buildPoissonCDF exp_taylor 2)
              !!! (length (cpCum (buildPoissonCDF exp_taylor 2)) - 1)%nat)
           (99999 # 100000) = true /\
  ~ cpCum (buildPoissonCDF exp_taylor 2)
      !!! (length (cpCum (buildPoissonCDF exp_taylor 2)) - 1)%nat == 1.
Proof.
  split; [reflexivity|]. split; [vm_compute; reflexivity|].
  split; [vm_compute; reflexivity|].
  intros H. apply Qeq_bool_iff in H. vm_compute in H. discriminate H.
Qed.

Lemma cpCum_nondecreasing_final_near_one_witness :
  let c := cpCum (buildPoissonCDF exp_taylor 2) in
  c <> [] /\ nondecreasing c /\ c !!! (length c - 1)%nat <= 1 /\
  ((length c <= maxK)%nat -> threshold <= c !!! (length c - 1)%nat).
Proof.
  assert (H1 : 0 < 2) by reflexivity.
  assert (H2 : 0 <= exp_taylor (- (2))) by (apply Qle_bool_iff; vm_compute; reflexivity).
  exact (cpCum_nondecreasing_final_near_one exp_taylor 2 H1 H2).
Defined.

Close Scope Q_scope.

(** ** Selection from the waiting pool *)

Lemma fold_min_le (l : list nat) (a : nat) :
  (fold_left Nat.min l a <= a)%nat /\ forall c, c ∈ l -> (fold_left Nat.min l a <= c)%nat.
Proof.
  revert a. induction l as [|x l IH]; intros a; cbn.
  - split; [lia|]. intros c Hc. inversion Hc.
  - destruct (IH (Nat.min a x)) as [H1 H2]. split; [lia|].
    intros c Hc. apply elem_of_cons in Hc as [->|Hc]; [lia | now apply H2].
Qed.

Lemma fold_min_in (l : list nat) (a : nat) :
  fold_left Nat.min l a = a \/ fold_left Nat.min l a ∈ l.
Proof.
  revert a. induction l as [|x l IH]; intros a; cbn; [now left|].
  destruct (IH (Nat.min a x)) as [H|H].
  - rewrite H. destruct (Nat.min_spec a x) as [[_ ->]|[_ ->]]; [now left | right; constructor].
  - right. now constructor.
Qed.

Lemma pickMin_spec (pool : list nat) :
  pool <> [] -> pickMin pool ∈ pool /\ forall c, c ∈ pool -> (pickMin pool <= c)%nat.
Proof.
  destruct pool as [|a l]; [congruence|]. intros _. unfold pickMin. cbn [hd tl].
  destruct (fold_min_le l a) as [H1 H2]. split.
  - destruct (fold_min_in l a) as [->|H]; [constructor | now constructor].
  - intros c Hc. apply elem_of_cons in Hc as [->|Hc]; [exact H1 | now apply H2].
Qed.

(** The [reduce] of priority mode keeps the earliest customer of the pool
    among those with the least priority number. *)
Lemma fold_priority_spec (priorities : list Z) (l : list nat) (best : nat) :
  let r := fold_left (fun best cur =>
                        if priorities !!! cur <? priorities !!! best then cur else best)
                     l best in
  priorities !!! r <= priorities !!! best /\
  (forall c, c ∈ l -> priorities !!! r <= priorities !!! c) /\
  (r = best \/ (priorities !!! r < priorities !!! best /\
                exists l1 l2, l = l1 ++ r :: l2 /\
                              forall c, c ∈ l1 -> priorities !!! r < priorities !!! c)).
Proof.
  revert best. induction l as [|x l IH]; intros best; cbn.
  - split; [lia|]. split; [|now left]. intros c Hc. inversion Hc.
  - destruct (Z.ltb_spec (priorities !!! x) (priorities !!! best)) as [Hlt|Hge].
    + destruct (IH x) as (H1 & H2 & H3). cbv zeta in H3.
      set (r := fold_left _ l x) in *. split; [lia|]. split.
      * intros c Hc. apply elem_of_cons in Hc as [->|Hc]; [exact H1 | now apply H2].
      * right. split; [lia|]. destruct H3 as [E|(Hlt' & l1 & l2 & E & Hl1)].
        -- exists [], l. split; [cbn; now rewrite E|]. intros c Hc. inversion Hc.
        -- exists (x :: l1), l2. split; [cbn; now f_equal|].
           intros c Hc. apply elem_of_cons in Hc as [->|Hc]; [exact Hlt' | now apply Hl1].
    + destruct (IH best) as (H1 & H2 & H3). cbv zeta in H3.
      set (r := fold_left _ l best) in *. split; [exact H1|]. split.
      * intros c Hc. apply elem_of_cons in Hc as [->|Hc]; [lia | now apply H2].
      * destruct H3 as [E|(Hlt' & l1 & l2 & E & Hl1)]; [now left|].
        right. split; [exact Hlt'|]. exists (x :: l1), l2. split; [cbn; now f_equal|].
        intros c Hc. apply elem_of_cons in Hc as [->|Hc]; [lia | now apply Hl1].
Qed.

Lemma pickPriority_in (priorities : list Z) (pool : list nat) :
  pool <> [] -> pickPriority priorities pool ∈ pool.
Proof.
  destruct pool as [|a l]; [congruence|]. intros _. unfold pickPriority. cbn [hd].
  destruct (fold_priority_spec priorities (a :: l) a) as (_ & _ & H). cbv zeta in H.
  set (r := fold_left _ (a :: l) a) in *.
  destruct H as [->|(_ & l1 & l2 & E & _)].
  - constructor.
  - rewrite E. apply elem_of_app. right. constructor.
Qed.

Lemma pickPriority_least (priorities : list Z) (pool : list nat) (c : nat) :
  c ∈ pool -> priorities !!! pickPriority priorities pool <= priorities !!! c.
Proof.
  intros Hc. destruct pool as [|a l]; [inversion Hc|]. unfold pickPriority. cbn [hd].
  destruct (fold_priority_spec priorities (a :: l) a) as (_ & H & _). now apply H.
Qed.

(** In a pool listed by increasing index the earliest customer among the
    tied ones is the one of lowest index. *)
Lemma pickPriority_lowest_index (priorities : list Z) (pool : list nat) (c : nat) :
  increasing pool -> c ∈ pool ->
  priorities !!! c = priorities !!! pickPriority priorities pool ->
  (pickPriority priorities pool <= c)%nat.
Proof.
  intros Hinc Hc Heq. destruct pool as [|a l]; [inversion Hc|].
  unfold pickPriority in *. cbn [hd] in *.
  destruct (fold_priority_spec priorities (a :: l) a) as (_ & _ & H3).
  cbv zeta in H3. set (r := fold_left _ (a :: l) a) in *.
  destruct H3 as [Er|(_ & l1 & l2 & E & Hl1)].
  - rewrite Er. apply elem_of_cons in Hc as [Hc|Hc]; [rewrite Hc; lia|].
    apply StronglySorted_inv in Hinc as [_ Hall]. rewrite Forall_forall in Hall.
    specialize (Hall c Hc). lia.
  - rewrite E in Hc, Hinc. apply elem_of_app in Hc as [Hc|Hc].
    + specialize (Hl1 c Hc). lia.
    + apply elem_of_cons in Hc as [Hc|Hc]; [rewrite Hc; lia|].
      apply StronglySorted_app_1_r in Hinc.
      apply StronglySorted_inv in Hinc as [_ Hall]. rewrite Forall_forall in Hall.
      specialize (Hall c Hc). lia.
Qed.

Lemma pick_in (usePriority : bool) (priorities : list Z) (pool : list nat) :
  pool <> [] -> pick usePriority priorities pool ∈ pool.
Proof.
  intros H. destruct usePriority; cbn; [now apply pickPriority_in | now apply pickMin_spec].
Qed.

Lemma pick_lowest_index (usePriority : bool) (priorities : list Z) (pool : list nat) :
  pool <> [] -> increasing pool ->
  lowest_index_tie_break usePriority priorities pool (pick usePriority priorities pool).
Proof.
  intros Hne Hinc. split; [now apply pick_in|]. intros c Hc.
  destruct usePriority; cbn.
  - split; [now apply pickPriority_least | now apply pickPriority_lowest_index].
  - now apply pickMin_spec.
Qed.

(** ** Lists, labels and arrivals *)

Lemma sumZ_acc (l : list Z) (a : Z) : fold_left Z.add l a = a + sumZ l.
Proof.
  unfold sumZ. revert a. induction l as [|x l IH]; intros a; cbn; [lia|].
  rewrite (IH (a + x)), (IH (0 + x)). lia.
Qed.

Lemma sumZ_nil : sumZ [] = 0.
Proof. reflexivity. Qed.

Lemma sumZ_cons (x : Z) (l : list Z) : sumZ (x :: l) = x + sumZ l.
Proof. unfold sumZ at 1. cbn. apply sumZ_acc. Qed.

Lemma sumZ_app (l1 l2 : list Z) : sumZ (l1 ++ l2) = sumZ l1 + sumZ l2.
Proof.
  induction l1 as [|x l1 IH]; cbn [app]; [rewrite sumZ_nil; lia|].
  rewrite !sumZ_cons, IH. lia.
Qed.

Lemma sumZ_insert (l : list Z) (i : nat) (v : Z) :
  (i < length l)%nat -> sumZ (<[i := v]> l) = sumZ l - l !!! i + v.
Proof.
  revert i. induction l as [|x l IH]; intros i Hi; cbn in Hi; [lia|].
  destruct i as [|i].
  - change (<[0%nat := v]> (x :: l)) with (v :: l).
    change ((x :: l) !!! 0%nat) with x. rewrite !sumZ_cons. lia.
  - change (<[S i := v]> (x :: l)) with (x :: <[i := v]> l).
    change ((x :: l) !!! S i) with (l !!! i). rewrite !sumZ_cons, IH by lia. lia.
Qed.

Lemma sumZ_nonneg (l : list Z) : (forall x, x ∈ l -> 0 <= x) -> 0 <= sumZ l.
Proof.
  induction l as [|x l IH]; intros H; [rewrite sumZ_nil; lia|].
  rewrite sumZ_cons. specialize (H x (list_elem_of_here _ _)) as Hx.
  assert (0 <= sumZ l) by (apply IH; intros y Hy; apply H; now constructor). lia.
Qed.

Lemma sumZ_pointwise (l1 l2 : list Z) :
  length l1 = length l2 ->
  (forall i, (i < length l1)%nat -> l1 !!! i <= l2 !!! i) -> sumZ l1 <= sumZ l2.
Proof.
  revert l2. induction l1 as [|x l1 IH]; intros [|y l2] Hlen H; cbn in Hlen; try lia.
  rewrite !sumZ_cons. specialize (H 0%nat ltac:(cbn; lia)) as H0. cbn in H0.
  assert (sumZ l1 <= sumZ l2).
  { apply IH; [lia|]. intros i Hi. apply (H (S i)). cbn. lia. }
  lia.
Qed.

Lemma sumZ_zero (l : list Z) : (forall i, (i < length l)%nat -> l !!! i = 0) -> sumZ l = 0.
Proof.
  induction l as [|x l IH]; intros H; [reflexivity|].
  rewrite sumZ_cons. specialize (H 0%nat ltac:(cbn; lia)) as H0. cbn in H0.
  rewrite IH; [lia|]. intros i Hi. apply (H (S i)). cbn. lia.
Qed.

Lemma minZ_spec (l : list Z) :
  l <> [] -> minZ l ∈ l /\ forall x, x ∈ l -> minZ l <= x.
Proof.
  destruct l as [|a l]; [congruence|]. intros _. unfold minZ. cbn [hd tl].
  revert a. induction l as [|x l IH]; intros a; cbn.
  - split; [constructor|]. intros y Hy. apply list_elem_of_singleton in Hy. lia.
  - destruct (IH (Z.min a x)) as [H1 H2]. split.
    + apply elem_of_cons in H1 as [H1|H1].
      * rewrite H1. destruct (Z.min_spec a x) as [[_ ->]|[_ ->]]; [constructor|].
        constructor. constructor.
      * constructor. now constructor.
    + intros y Hy. specialize (H2 (Z.min a x) (list_elem_of_here _ _)) as Hm.
      apply elem_of_cons in Hy as [->|Hy]; [lia|].
      apply elem_of_cons in Hy as [->|Hy]; [lia|].
      apply H2. now constructor.
Qed.

Lemma forallb_id_false (l : list bool) :
  forallb id l = false -> exists i, (i < length l)%nat /\ l !!! i = false.
Proof.
  induction l as [|b l IH]; cbn; [discriminate|].
  destruct b; cbn.
  - intros H. destruct (IH H) as (i & Hi & E). exists (S i). split; [lia | exact E].
  - intros _. exists 0%nat. split; [lia | reflexivity].
Qed.

Lemma forallb_id_true (l : list bool) (i : nat) :
  forallb id l = true -> (i < length l)%nat -> l !!! i = true.
Proof.
  revert i. induction l as [|b l IH]; intros i H Hi; cbn in *; [lia|].
  apply andb_prop in H as [Hb H]. destruct i as [|i]; [exact Hb|].
  apply IH; [exact H | lia].
Qed.

Lemma forallb_id_intro (l : list bool) :
  (forall i, (i < length l)%nat -> l !!! i = true) -> forallb id l = true.
Proof.
  induction l as [|b l IH]; intros H; [reflexivity|]. cbn.
  rewrite (H 0%nat ltac:(cbn; lia) : b = true). cbn. apply IH.
  intros i Hi. apply (H (S i)). cbn. lia.
Qed.

Lemma customerLabel_inj (i j : nat) : customerLabel i = customerLabel j -> i = j.
Proof.
  unfold customerLabel. intros H. injection H as H.
  apply pretty_nat_inj in H. lia.
Qed.

Lemma customerLabel_eqb (i j : nat) :
  String.eqb (customerLabel i) (customerLabel j) = bool_decide (i = j).
Proof.
  destruct (String.eqb_spec (customerLabel i) (customerLabel j)) as [E|E].
  - apply customerLabel_inj in E. now rewrite bool_decide_eq_true_2.
  - rewrite bool_decide_eq_false_2; [reflexivity|]. intros ->. now apply E.
Qed.

Lemma chunkTotal_snoc (lbl : string) (cs : list ServiceChunk) (c : ServiceChunk) :
  chunkTotal lbl (cs ++ [c]) =
  chunkTotal lbl cs + (if String.eqb (label c) lbl then end_ c - start c else 0).
Proof.
  unfold chunkTotal. rewrite List.filter_app, map_app, sumZ_app. cbn [List.filter].
  destruct (String.eqb (label c) lbl); cbn [map]; [rewrite sumZ_cons|]; rewrite sumZ_nil; lia.
Qed.

Lemma chunkTotal_snoc_customer (i j : nat) (cs : list ServiceChunk) (a b : Z) (srv : option string) :
  chunkTotal (customerLabel i) (cs ++ [mkChunk (customerLabel j) a b srv]) =
  chunkTotal (customerLabel i) cs + (if bool_decide (j = i) then b - a else 0).
Proof. rewrite chunkTotal_snoc. cbn [label end_ start]. now rewrite customerLabel_eqb. Qed.

Lemma later_filter_mono (arrivalTimes : list Z) (t t' : Z) (l : list nat) :
  t <= t' ->
  (length (List.filter (fun i => (t' <? arrivalTimes !!! i)%Z) l)
   <= length (List.filter (fun i => (t <? arrivalTimes !!! i)%Z) l))%nat.
Proof.
  intros Ht. induction l as [|i l IH]; cbn; [lia|].
  destruct (Z.ltb_spec t' (arrivalTimes !!! i)), (Z.ltb_spec t (arrivalTimes !!! i)); cbn; lia.
Qed.

Lemma notArrived_mono (arrivalTimes : list Z) (t t' : Z) :
  t <= t' -> (length (notArrived arrivalTimes t') <= length (notArrived arrivalTimes t))%nat.
Proof. apply later_filter_mono. Qed.

Lemma notArrived_less (arrivalTimes : list Z) (t t' : Z) (i : nat) :
  (i < length arrivalTimes)%nat -> t < arrivalTimes !!! i -> arrivalTimes !!! i <= t' ->
  (length (notArrived arrivalTimes t') < length (notArrived arrivalTimes t))%nat.
Proof.
  intros Hi H1 H2. unfold notArrived.
  assert (Hin : i ∈ seq 0 (length arrivalTimes)) by (apply elem_of_seq; lia).
  assert (Ht : t <= t') by lia.
  induction (seq 0 (length arrivalTimes)) as [|k l IH]; [inversion Hin|].
  pose proof (later_filter_mono arrivalTimes t t' l Ht) as Hm.
  cbn. apply elem_of_cons in Hin as [<-|Hin].
  - destruct (Z.ltb_spec t' (arrivalTimes !!! i)), (Z.ltb_spec t (arrivalTimes !!! i)); try lia.
    cbn. lia.
  - specialize (IH Hin).
    destruct (Z.ltb_spec t' (arrivalTimes !!! k)), (Z.ltb_spec t (arrivalTimes !!! k)); cbn; lia.
Qed.

(** ** The single-server loop *)

Ltac destruct_single I :=
  destruct I as [si_len_remaining0 si_len_starts0 si_len_ends0 si_len_served0 si_time0
                 si_remaining0 si_served0 si_chunks0 si_stamp0 si_starts0 si_busy0 si_last0
                 si_begun0 si_chain0].

Section SingleLoop.

Variables arrivalTimes serviceTimes priorities : list Z.
Variable usePriority : bool.
Hypothesis Hlen : length serviceTimes = length arrivalTimes.
Hypothesis Hpos : forall i, (i < length arrivalTimes)%nat -> 1 <= serviceTimes !!! i.

Local Abbreviation Inv := (SingleInv arrivalTimes serviceTimes).
Local Abbreviation measure := (singleMeasure arrivalTimes).
Local Abbreviation step := (Single.step arrivalTimes priorities usePriority).
Local Abbreviation loop := (Single.loop arrivalTimes priorities usePriority).

Lemma single_initial_inv : Inv (Single.initial (length arrivalTimes) serviceTimes).
Proof.
    constructor; cbn [Single.initial Single.remainingTimes Single.serviceStarts
                      Single.serviceEnds Single.servedMask Single.currentTime Single.chunks].
    - exact Hlen.
    - apply length_replicate.
    - apply length_replicate.
    - apply length_replicate.
    - lia.
    - intros i Hi. specialize (Hpos i Hi). lia.
    - intros i Hi. rewrite lookup_total_replicate_2 by lia. specialize (Hpos i Hi).
      split; [discriminate | lia].
    - intros i Hi. unfold chunkTotal. cbn. lia.
    - intros i Hi. rewrite lookup_total_replicate_2 by lia. discriminate.
    - intros i Hi. left. now rewrite lookup_total_replicate_2 by lia.
    - now left.
    - intros H. destruct (length arrivalTimes) as [|k] eqn:E; [now left|].
      cbn in H. discriminate.
    - intros i Hi. rewrite lookup_total_replicate_2 by lia. split; [reflexivity | congruence].
    - split; [constructor|]. intros c Hc. inversion Hc.
Qed.

Lemma waitingPool_elem (st : Single.State) (i : nat) :
    i ∈ Single.waitingPool arrivalTimes st <->
    (i < length arrivalTimes)%nat /\ Single.servedMask st !!! i = false
    /\ arrivalTimes !!! i <= Single.currentTime st.
Proof.
    unfold Single.waitingPool. rewrite list_elem_of_In, filter_In, in_seq.
    rewrite andb_true_iff, negb_true_iff, Z.leb_le. intuition lia.
Qed.

Lemma nextArrival_fold (st : Single.State) (l : list nat) (acc : option Z) :
    let f := fun (nextArr : option Z) (i : nat) =>
               if negb (Single.servedMask st !!! i)
                  && match nextArr with
                     | None => true
                     | Some t => arrivalTimes !!! i <? t
                     end
               then Some (arrivalTimes !!! i) else nextArr in
    let r := fold_left f l acc in
    (acc <> None -> r <> None) /\
    (forall i, i ∈ l -> Single.servedMask st !!! i = false -> r <> None) /\
    (r = acc \/ exists i, i ∈ l /\ Single.servedMask st !!! i = false
                          /\ r = Some (arrivalTimes !!! i)).
Proof.
    cbv zeta. revert acc. induction l as [|x l IH]; intros acc; cbn [fold_left].
    - split; [tauto|]. split; [|now left]. intros i Hi. inversion Hi.
    - match goal with |- context [fold_left ?f l ?a] => specialize (IH a); set (a' := a) in * end.
      destruct IH as (I1 & I2 & I3).
      assert (Hacc : acc <> None -> a' <> None).
      { subst a'. destruct acc; [|congruence]. intros _.
        destruct (negb _ && _); discriminate. }
      assert (Hx : Single.servedMask st !!! x = false -> a' <> None).
      { subst a'. intros ->. cbn. destruct acc as [t|]; [|discriminate].
        destruct (arrivalTimes !!! x <? t); discriminate. }
      split; [tauto|]. split.
      + intros i Hi Hs. apply elem_of_cons in Hi as [->|Hi]; [tauto | eauto].
      + destruct I3 as [E|(i & Hi & Hs & E)].
        * rewrite E. subst a'.
          destruct (Single.servedMask st !!! x) eqn:Hs; cbn; [now left|].
          destruct acc as [t|].
          -- destruct (arrivalTimes !!! x <? t); [|now left].
             right. exists x. split; [constructor | tauto].
          -- right. exists x. split; [constructor | tauto].
        * right. exists i. split; [now constructor | tauto].
Qed.

Lemma nextArrival_some (st : Single.State) (i : nat) :
    (i < length arrivalTimes)%nat -> Single.servedMask st !!! i = false ->
    exists j, (j < length arrivalTimes)%nat /\ Single.servedMask st !!! j = false /\
              Single.nextArrival arrivalTimes st = Some (arrivalTimes !!! j).
Proof.
    intros Hi Hs. unfold Single.nextArrival.
    destruct (nextArrival_fold st (seq 0 (length arrivalTimes)) None) as (_ & H2 & H3).
    cbv zeta in H2, H3.
    destruct H3 as [E|(j & Hj & Hsj & E)].
    - exfalso. apply (H2 i); [apply elem_of_seq; lia | exact Hs | exact E].
    - exists j. apply elem_of_seq in Hj. split; [lia | tauto].
Qed.

Lemma single_step_idle (st : Single.State) :
    Inv st -> forallb id (Single.servedMask st) = false ->
    Single.waitingPool arrivalTimes st = [] ->
    exists st', step st = Some st' /\ Inv st' /\ measure st' < measure st.
Proof.
    intros I Hns Hpool.
    destruct (forallb_id_false _ Hns) as (i & Hi & Hsi).
    rewrite (si_len_served _ _ _ I) in Hi.
    destruct (nextArrival_some st i Hi Hsi) as (j & Hj & Hsj & Enext).
    assert (Hlate : Single.currentTime st < arrivalTimes !!! j).
    { destruct (Z.lt_ge_cases (Single.currentTime st) (arrivalTimes !!! j)) as [H|H]; [exact H|].
      assert (Hin : j ∈ Single.waitingPool arrivalTimes st).
      { apply waitingPool_elem. repeat split; [exact Hj | exact Hsj | lia]. }
      rewrite Hpool in Hin. inversion Hin. }
    unfold Single.step. rewrite Hpool, Enext.
    eexists. split; [reflexivity|]. destruct_single I. split.
    - constructor; cbn [Single.remainingTimes Single.serviceStarts Single.serviceEnds
                        Single.servedMask Single.currentTime Single.chunks]; try assumption.
      + lia.
      + intros k Hk Hs. destruct (si_stamp0 k Hk Hs) as (H0 & H1 & H2).
        split; [exact H0|]. split; [lia | exact H2].
      + intros k Hk. destruct (si_starts0 k Hk); [now left | right; lia].
      + destruct si_busy0 as [H|(i0 & H1 & H2 & H3)]; [now left|].
        right. exists i0. repeat split; [exact H1 | exact H2 | lia].
      + intros H. congruence.
      + intros k Hk. destruct (si_begun0 k Hk) as [H1 H2]. split; [exact H1|].
        intros H. specialize (H2 H). lia.
      + destruct si_chain0 as [H1 H2]. split; [exact H1|].
        intros ch Hch. specialize (H2 ch Hch). lia.
    - unfold singleMeasure. cbn [Single.remainingTimes Single.currentTime].
      pose proof (notArrived_less arrivalTimes (Single.currentTime st) (arrivalTimes !!! j) j
                    Hj Hlate (Z.le_refl _)). lia.
Qed.

Lemma single_step_work (st : Single.State) :
    Inv st -> Single.waitingPool arrivalTimes st <> [] ->
    exists st', step st = Some st' /\ Inv st' /\ measure st' < measure st.
Proof.
    intros I Hpool. unfold Single.step.
    destruct (Single.waitingPool arrivalTimes st) as [|p0 pool'] eqn:Epool; [congruence|].
    set (pool := p0 :: pool') in *.
    set (c := pick usePriority priorities pool).
    assert (Hc : c ∈ Single.waitingPool arrivalTimes st).
    { rewrite Epool. apply pick_in. discriminate. }
    apply waitingPool_elem in Hc as (Hcn & Hcs & Hca).
    destruct_single I.
    assert (Hrem : 1 <= Single.remainingTimes st !!! c).
    { pose proof (si_remaining0 c Hcn). pose proof (si_served0 c Hcn) as [_ H2].
      destruct (Z.eq_dec (Single.remainingTimes st !!! c) 0) as [E|E]; [|lia].
      rewrite (H2 E) in Hcs. discriminate. }
    set (ints := Single.interruptors arrivalTimes priorities st c).
    set (tte := match ints with
                | _ :: _ =>
                    if usePriority
                    then minZ (map (fun i => arrivalTimes !!! i) ints) - Single.currentTime st
                    else Single.remainingTimes st !!! c
                | [] => Single.remainingTimes st !!! c
                end).
    assert (Htte : 1 <= tte).
    { subst tte. destruct ints as [|i0 ints'] eqn:Eints; [exact Hrem|].
      destruct usePriority; [|exact Hrem].
      assert (Hne : map (fun i => arrivalTimes !!! i) (i0 :: ints') <> []) by discriminate.
      destruct (minZ_spec _ Hne) as [Hin _].
      apply list_elem_of_fmap in Hin as (k & Ek & Hk).
      rewrite <- Eints in Hk. subst ints. unfold Single.interruptors in Hk.
      rewrite list_elem_of_In, filter_In, andb_true_iff, Z.ltb_lt in Hk.
      unfold fmap, list_fmap in Ek. fold (@map nat Z) in Ek. lia. }
    set (w := Z.min (Single.remainingTimes st !!! c) tte).
    assert (Hw : 1 <= w <= Single.remainingTimes st !!! c) by lia.
    set (starts' := if Single.serviceStarts st !!! c =? -1
                    then <[c := Single.currentTime st]> (Single.serviceStarts st)
                    else Single.serviceStarts st).
    assert (Hls : length starts' = length arrivalTimes).
    { subst starts'. destruct (_ =? _); [rewrite length_insert|]; assumption. }
    assert (Hstarts : forall k, (k < length arrivalTimes)%nat ->
              starts' !!! k = -1 \/ 0 <= starts' !!! k <= Single.currentTime st + w).
    { intros k Hk. subst starts'. destruct (Z.eqb_spec (Single.serviceStarts st !!! c) (-1)).
      - destruct (decide (c = k)) as [->|Hne].
        + rewrite list_lookup_total_insert_eq by lia. right. lia.
        + rewrite list_lookup_total_insert_ne by exact Hne.
          destruct (si_starts0 k Hk); [now left | right; lia].
      - destruct (si_starts0 k Hk); [now left | right; lia]. }
    assert (Hsc : 0 <= starts' !!! c <= Single.currentTime st).
    { subst starts'. destruct (Z.eqb_spec (Single.serviceStarts st !!! c) (-1)).
      - rewrite list_lookup_total_insert_eq by lia. lia.
      - destruct (si_starts0 c Hcn); [contradiction | assumption]. }
    assert (Hkeep : forall k, 0 <= Single.serviceStarts st !!! k -> 
              starts' !!! k = Single.serviceStarts st !!! k).
    { intros k Hk. subst starts'. destruct (Z.eqb_spec (Single.serviceStarts st !!! c) (-1)); [|reflexivity].
      destruct (decide (c = k)) as [->|Hne]; [lia|].
      now rewrite list_lookup_total_insert_ne. }
    set (rem' := <[c := Single.remainingTimes st !!! c - w]> (Single.remainingTimes st)).
    assert (Hlr : length rem' = length arrivalTimes).
    { subst rem'. now rewrite length_insert. }
    assert (Hsum : sumZ rem' = sumZ (Single.remainingTimes st) - w).
    { subst rem'. rewrite sumZ_insert by lia. lia. }
    assert (Hbusy : sumZ rem' = sumZ serviceTimes \/
              exists i0, (i0 < length arrivalTimes)%nat /\ 0 <= starts' !!! i0 /\
                sumZ serviceTimes - sumZ rem' + starts' !!! i0 <= Single.currentTime st + w).
    { right. destruct si_busy0 as [H|(i0 & H1 & H2 & H3)].
      - exists c. split; [exact Hcn|]. split; [lia|]. lia.
      - exists i0. split; [exact H1|]. rewrite (Hkeep i0 H2). split; [exact H2|]. lia. }
    assert (Hmeas : sumZ rem' + Z.of_nat (length (notArrived arrivalTimes (Single.currentTime st + w)))
                    < measure st).
    { unfold singleMeasure.
      pose proof (notArrived_mono arrivalTimes (Single.currentTime st) (Single.currentTime st + w)).
      lia. }
    assert (Hchunks : forall k, (k < length arrivalTimes)%nat ->
              chunkTotal (customerLabel k)
                (Single.chunks st ++ [mkChunk (customerLabel c) (Single.currentTime st)
                                              (Single.currentTime st + w) None])
              = serviceTimes !!! k - rem' !!! k).
    { intros k Hk. rewrite chunkTotal_snoc_customer, (si_chunks0 k Hk). subst rem'.
      case_bool_decide as E.
      - subst k. rewrite list_lookup_total_insert_eq by lia. lia.
      - rewrite list_lookup_total_insert_ne by exact E. lia. }
    assert (Hrem' : forall k, (k < length arrivalTimes)%nat -> 0 <= rem' !!! k <= serviceTimes !!! k).
    { intros k Hk. subst rem'. pose proof (si_remaining0 k Hk). destruct (decide (c = k)) as [->|Hne].
      - rewrite list_lookup_total_insert_eq by lia. lia.
      - now rewrite list_lookup_total_insert_ne. }
    assert (Hbegun : forall k, (k < length arrivalTimes)%nat ->
              (starts' !!! k = -1 -> rem' !!! k = serviceTimes !!! k) /\
              (starts' !!! k <> -1 ->
               arrivalTimes !!! k <= starts' !!! k /\
               starts' !!! k + (serviceTimes !!! k - rem' !!! k) <= Single.currentTime st + w)).
    { intros k Hk. destruct (si_begun0 k Hk) as [B1 B2]. subst starts' rem'.
      destruct (decide (c = k)) as [->|Hne].
      - rewrite (list_lookup_total_insert_eq (Single.remainingTimes st)) by lia.
        destruct (Z.eqb_spec (Single.serviceStarts st !!! k) (-1)) as [E|E].
        + rewrite list_lookup_total_insert_eq by lia. specialize (B1 E). split; lia.
        + specialize (B2 E). split; [congruence|]. intros _. lia.
      - rewrite (list_lookup_total_insert_ne (Single.remainingTimes st)) by exact Hne.
        destruct (Z.eqb_spec (Single.serviceStarts st !!! c) (-1)) as [E|E].
        + rewrite list_lookup_total_insert_ne by exact Hne. split; [exact B1|].
          intros H. specialize (B2 H). lia.
        + split; [exact B1|]. intros H. specialize (B2 H). lia. }
    assert (Hchain :
      StronglySorted (fun a b => end_ a <= start b)
        (Single.chunks st ++ [mkChunk (customerLabel c) (Single.currentTime st)
                                      (Single.currentTime st + w) None]) /\
      forall ch, ch ∈ Single.chunks st ++ [mkChunk (customerLabel c) (Single.currentTime st)
                                                  (Single.currentTime st + w) None] ->
                 0 <= start ch < end_ ch /\ end_ ch <= Single.currentTime st + w).
    { destruct si_chain0 as [C1 C2]. split.
      - apply StronglySorted_app. split; [|split; [exact C1 | repeat constructor]].
        intros a b Ha Hb. apply list_elem_of_singleton in Hb as ->. cbn. now apply C2.
      - intros ch Hch. apply elem_of_app in Hch as [Hch|Hch].
        + specialize (C2 ch Hch). lia.
        + apply list_elem_of_singleton in Hch as ->. cbn. lia. }
    fold ints. fold tte. fold w. fold starts'. fold rem'.
    destruct (Z.eqb_spec (Single.remainingTimes st !!! c - w) 0) as [Edone|Emore];
      (eexists; split; [reflexivity|]; split; [|exact Hmeas]).
    - constructor; cbn [Single.remainingTimes Single.serviceStarts Single.serviceEnds
                        Single.servedMask Single.currentTime Single.chunks];
        rewrite ?length_insert; try assumption; try lia.
      + intros k Hk. subst rem'. destruct (decide (c = k)) as [->|Hne].
        * rewrite !list_lookup_total_insert_eq by lia. tauto.
        * rewrite !list_lookup_total_insert_ne by exact Hne. now apply si_served0.
      + intros k Hk. destruct (decide (c = k)) as [->|Hne].
        * rewrite !list_lookup_total_insert_eq by lia. intros _.
          split; [|split; [lia|]].
          -- destruct (Hbegun k Hk) as [_ B2]. subst rem'.
             rewrite list_lookup_total_insert_eq in B2 by lia. lia.
          -- eexists. split; [apply elem_of_app; right; constructor|]. split; reflexivity.
        * rewrite !list_lookup_total_insert_ne by exact Hne. intros Hs.
          destruct (si_stamp0 k Hk Hs) as (H0 & H1 & ch & H2 & H3).
          split; [|split; [lia|]].
          -- rewrite Hkeep; [exact H0|]. destruct (si_starts0 k Hk) as [E|E]; [|lia].
             destruct (si_begun0 k Hk) as [B1 _]. specialize (B1 E).
             pose proof (proj1 (si_served0 k Hk) Hs). specialize (Hpos k Hk). lia.
          -- exists ch. split; [apply elem_of_app; now left | exact H3].
      + intros _. right. exists c. split; [exact Hcn|].
        now rewrite list_lookup_total_insert_eq by lia.
    - constructor; cbn [Single.remainingTimes Single.serviceStarts Single.serviceEnds
                        Single.servedMask Single.currentTime Single.chunks];
        rewrite ?length_insert; try assumption; try lia.
      + intros k Hk. subst rem'. destruct (decide (c = k)) as [->|Hne].
        * rewrite !list_lookup_total_insert_eq by lia. rewrite Hcs. split; [discriminate | lia].
        * rewrite !list_lookup_total_insert_ne by exact Hne. now apply si_served0.
      + intros k Hk Hs. destruct (si_stamp0 k Hk Hs) as (H0 & H1 & ch & H2 & H3).
        split; [|split; [lia|]].
        * rewrite Hkeep; [exact H0|]. destruct (si_starts0 k Hk) as [E|E]; [|lia].
          destruct (si_begun0 k Hk) as [B1 _]. specialize (B1 E).
          pose proof (proj1 (si_served0 k Hk) Hs). specialize (Hpos k Hk). lia.
        * exists ch. split; [apply elem_of_app; now left | exact H3].
      + intros Hall. exfalso.
        rewrite (forallb_id_true _ c Hall) in Hcs by lia. discriminate.
Qed.

Lemma single_step_progress (st : Single.State) :
    Inv st -> forallb id (Single.servedMask st) = false ->
    exists st', step st = Some st' /\ Inv st' /\ measure st' < measure st.
Proof.
    intros I Hns. destruct (Single.waitingPool arrivalTimes st) eqn:E.
    - now apply single_step_idle.
    - apply single_step_work; [exact I | congruence].
Qed.

Lemma singleMeasure_nonneg (st : Single.State) : Inv st -> 0 <= measure st.
Proof.
    intros I. unfold singleMeasure.
    assert (0 <= sumZ (Single.remainingTimes st)).
    { apply sumZ_nonneg. intros x Hx. apply list_elem_of_lookup_total in Hx as (i & Hi & <-).
      rewrite (si_len_remaining _ _ _ I) in Hi. now apply (si_remaining _ _ _ I). }
    lia.
Qed.

  (** The loop returns once the fuel exceeds the measure. *)
Lemma single_loop_terminates (fuel : nat) :
    forall st, Inv st -> measure st < Z.of_nat fuel ->
    exists st', loop fuel st = Some st' /\ Inv st' /\
                forallb id (Single.servedMask st') = true.
Proof.
    induction fuel as [|fuel IH]; intros st I Hm.
    - pose proof (singleMeasure_nonneg st I). lia.
    - cbn [Single.loop]. destruct (forallb id (Single.servedMask st)) eqn:Hall.
      + exists st. auto.
      + destruct (single_step_progress st I Hall) as (st' & -> & I' & Hlt).
        apply IH; [exact I' | lia].
Qed.

  (** Whatever the loop returns, with any fuel, has every customer served. *)
Lemma single_loop_result (fuel : nat) :
    forall st st', Inv st -> loop fuel st = Some st' ->
    Inv st' /\ forallb id (Single.servedMask st') = true.
Proof.
    induction fuel as [|fuel IH]; intros st st' I; cbn [Single.loop];
      destruct (forallb id (Single.servedMask st)) eqn:Hall; try discriminate.
    - intros [= <-]. auto.
    - intros [= <-]. auto.
    - destruct (single_step_progress st I Hall) as (st1 & -> & I1 & _). now apply IH.
Qed.

End SingleLoop.

(** ** The multi-server loop *)

Lemma includes_true (occupancy : list (option nat)) (i : nat) :
  Multi.includes occupancy i = true <->
  exists sIdx, (sIdx < length occupancy)%nat /\ occupancy !!! sIdx = Some i.
Proof.
  unfold Multi.includes. rewrite existsb_exists. split.
  - intros (o & Hin & Ho). destruct o as [c|]; [|discriminate].
    apply Nat.eqb_eq in Ho as ->. apply list_elem_of_In, list_elem_of_lookup_total in Hin.
    destruct Hin as (sIdx & H1 & H2). eauto.
  - intros (sIdx & H1 & H2). exists (Some i). split; [|apply Nat.eqb_refl].
    apply list_elem_of_In. rewrite <- H2. now apply list_elem_of_lookup_total_2.
Qed.

Lemma includes_false (st : Multi.State) (i : nat) :
  Multi.includes (Multi.serverOccupancy st) i = false <-> offServer st i.
Proof.
  unfold offServer. split.
  - intros H sIdx Hs E. assert (Multi.includes (Multi.serverOccupancy st) i = true).
    { apply includes_true. eauto. }
    congruence.
  - intros H. destruct (Multi.includes _ i) eqn:E; [|reflexivity].
    apply includes_true in E as (sIdx & H1 & H2). exfalso. eapply H; eauto.
Qed.

Lemma removeFirst_elem (x c : nat) (pool : list nat) :
  NoDup pool -> (c ∈ removeFirst x pool <-> c ∈ pool /\ c <> x).
Proof.
  induction pool as [|y pool IH]; intros Hnd; cbn.
  - split; [intros H; inversion H | intros [H _]; inversion H].
  - apply NoDup_cons in Hnd as [Hy Hnd]. destruct (Nat.eqb_spec x y) as [->|Hne].
    + split.
      * intros H. split; [now constructor|]. intros ->. contradiction.
      * intros [H Hc]. apply elem_of_cons in H as [->|H]; [congruence | exact H].
    + rewrite !elem_of_cons, IH by exact Hnd. split.
      * intros [->|[H1 H2]]; [split; [now left | congruence] | tauto].
      * intros [[->|H1] H2]; [now left | tauto].
Qed.

Lemma removeFirst_NoDup (x : nat) (pool : list nat) : NoDup pool -> NoDup (removeFirst x pool).
Proof.
  induction pool as [|y pool IH]; intros Hnd; cbn; [constructor|].
  pose proof Hnd as Hnd0. apply NoDup_cons in Hnd as [Hy Hnd].
  destruct (Nat.eqb_spec x y); [exact Hnd|].
  apply NoDup_cons. split; [|now apply IH].
  intros H. apply removeFirst_elem in H; [tauto | exact Hnd].
Qed.

Lemma spliceOut_member (x : nat) (pool : list nat) :
  x ∈ pool -> spliceOut x pool = removeFirst x pool.
Proof.
  intros H. unfold spliceOut.
  assert (E : existsb (Nat.eqb x) pool = true).
  { apply existsb_exists. exists x. split; [now apply list_elem_of_In | apply Nat.eqb_refl]. }
  now rewrite E.
Qed.

Lemma removeFirst_increasing (x : nat) (pool : list nat) :
  increasing pool -> increasing (removeFirst x pool).
Proof.
  intros Hinc. induction Hinc as [|y l Hs IH Hy]; cbn; [constructor|].
  destruct (x =? y)%nat; [exact Hs|]. constructor; [exact IH|].
  rewrite Forall_forall in *. intros z Hz. apply Hy.
  clear - Hz. induction l as [|w l IH]; cbn in Hz; [inversion Hz|].
  destruct (x =? w)%nat; [now constructor|].
  apply elem_of_cons in Hz as [->|Hz]; [constructor | constructor; now apply IH].
Qed.

Ltac destruct_multi I :=
  destruct I as [mg_len_remaining0 mg_len_start0 mg_len_end0 mg_len_assigned0 mg_len_served0
                 mg_len_last0 mg_len_occ0 mg_now0 mg_time0 mg_remaining0 mg_served0 mg_occ0
                 mg_inj0 mg_on0 mg_off0 mg_stamp0 mg_chunks0].

Section MultiPasses.

Variables arrivalTimes serviceTimes priorities : list Z.
Variable servers : nat.
Variable usePriority : bool.

Local Abbreviation G := (MultiInvG arrivalTimes serviceTimes servers).

Lemma occupancy_insert (occupancy : list (option nat)) (sIdx sIdx' : nat) (o : option nat) :
    (sIdx < length occupancy)%nat ->
    <[sIdx := o]> occupancy !!! sIdx' = if decide (sIdx = sIdx') then o else occupancy !!! sIdx'.
Proof.
    intros H. case_decide as E.
    - subst. now apply list_lookup_total_insert_eq.
    - now apply list_lookup_total_insert_ne.
Qed.

  (** Putting a waiting customer on an idle server keeps the invariant. *)
Lemma install_inv (st : Multi.State) (sIdx c : nat) (T : Z) :
    G 0%nat T T st -> (sIdx < servers)%nat ->
    Multi.serverOccupancy st !!! sIdx = None ->
    (c < length arrivalTimes)%nat -> Multi.servedMask st !!! c = false ->
    arrivalTimes !!! c <= T -> offServer st c ->
    G 0%nat T T (Multi.install sIdx c st).
Proof.
    intros I Hs Hidle Hc Hcs Hca Hoff. destruct_multi I.
    assert (Hoc : forall s' c', (s' < servers)%nat ->
              <[sIdx := Some c]> (Multi.serverOccupancy st) !!! s' = Some c' ->
              (s' = sIdx /\ c' = c) \/
              (s' <> sIdx /\ c' <> c /\ Multi.serverOccupancy st !!! s' = Some c')).
    { intros s' c' Hs'. rewrite occupancy_insert by lia. case_decide as E.
      - intros [= ->]. now left.
      - intros H. right. split; [congruence|]. split; [|exact H].
        intros ->. apply (Hoff s'); [lia | exact H]. }
    set (start' := if Multi.serviceStart st !!! c =? -1
                   then <[c := Multi.currentTime st]> (Multi.serviceStart st)
                   else Multi.serviceStart st).
    assert (Hst_ne : forall i, i <> c -> start' !!! i = Multi.serviceStart st !!! i).
    { intros i Hi. subst start'. destruct (_ =? _); [|reflexivity].
      now rewrite list_lookup_total_insert_ne by congruence. }
    assert (Hst_c : start' !!! c <> -1 /\ arrivalTimes !!! c <= start' !!! c /\
                    start' !!! c + chunkTotal (customerLabel c) (Multi.chunks st) <= T).
    { destruct (mg_off0 c Hc Hoff) as (_ & O2 & O3). subst start'.
      destruct (Z.eqb_spec (Multi.serviceStart st !!! c) (-1)) as [E|E].
      - rewrite list_lookup_total_insert_eq by lia. rewrite (O2 E), mg_now0. lia.
      - specialize (O3 E). tauto. }
    assert (Hoff' : forall i, offServer (Multi.install sIdx c st) i -> i <> c /\ offServer st i).
    { intros i H. unfold offServer in *. cbn [Multi.install Multi.serverOccupancy] in H.
      rewrite length_insert in H. split.
      - intros ->. apply (H sIdx); [lia|]. rewrite occupancy_insert by lia. now rewrite decide_True.
      - intros s' Hs' E. destruct (decide (sIdx = s')) as [->|Hne]; [congruence|].
        apply (H s' Hs'). rewrite occupancy_insert by lia. now rewrite decide_False. }
    constructor; cbn [Multi.install Multi.remainingTimes Multi.serviceStart Multi.serviceEnd
                      Multi.serverAssigned Multi.servedMask Multi.serverOccupancy
                      Multi.lastChunkStart Multi.chunks Multi.currentTime];
      fold start'; rewrite ?length_insert; try assumption.
    - subst start'. destruct (_ =? _); [rewrite length_insert|]; assumption.
    - intros s' c' Hs' E. destruct (Hoc s' c' Hs' E) as [[-> ->]|(H1 & H2 & H3)].
      + rewrite list_lookup_total_insert_eq by lia. rewrite mg_now0.
        pose proof (mg_remaining0 c Hc). repeat split; try tauto; lia.
      + rewrite list_lookup_total_insert_ne, Hst_ne by congruence. now apply (mg_occ0 s' c').
    - intros s1 s2 c' H1 H2 E1 E2.
      destruct (Hoc s1 c' H1 E1) as [[A1 A2]|(A1 & A2 & A3)];
        destruct (Hoc s2 c' H2 E2) as [[B1 B2]|(B1 & B2 & B3)]; try congruence.
      eapply mg_inj0; eauto.
    - intros s' c' Hs' E. destruct (Hoc s' c' Hs' E) as [[-> ->]|(H1 & H2 & H3)].
      + rewrite list_lookup_total_insert_eq by lia. rewrite mg_now0.
        destruct (mg_off0 c Hc Hoff) as (O1 & _). cbn. lia.
      + rewrite list_lookup_total_insert_ne by congruence. now apply (mg_on0 s' c').
    - intros i Hi Hio. destruct (Hoff' i Hio) as [Hne Ho]. rewrite Hst_ne by exact Hne.
      now apply mg_off0.
    - intros i Hi Hsv. assert (i <> c) by congruence. rewrite Hst_ne by assumption.
      now apply mg_stamp0.
Qed.

  (** Closing the chunk of the occupant of a server and freeing the server:
      the first half of a preemption. *)
Lemma vacate_inv (st : Multi.State) (sIdx curr : nat) (T : Z) :
    G 0%nat T T st -> (sIdx < servers)%nat ->
    Multi.serverOccupancy st !!! sIdx = Some curr ->
    let duration := Multi.currentTime st - Multi.lastChunkStart st !!! curr in
    let st1 := if 0 <? duration
               then Multi.pushChunk (mkChunk (customerLabel curr)
                                             (Multi.lastChunkStart st !!! curr)
                                             (Multi.currentTime st)
                                             (Some (serverLabel sIdx))) st
               else st in
    G 0%nat T T (vacate sIdx st1) /\ offServer (vacate sIdx st1) curr /\
    (forall c, c <> curr -> offServer st c -> offServer (vacate sIdx st1) c).
Proof.
    intros I Hs Hocc duration st1. destruct_multi I.
    destruct (mg_occ0 sIdx curr Hs Hocc) as (Hc & Hcs & Hl & Hst & Has & Han & Hsl & _).
    pose proof (mg_on0 sIdx curr Hs Hocc) as Hon. cbn in Hon.
    assert (Hf : Multi.currentTime st1 = T /\ Multi.remainingTimes st1 = Multi.remainingTimes st /\
                 Multi.serviceStart st1 = Multi.serviceStart st /\
                 Multi.serviceEnd st1 = Multi.serviceEnd st /\
                 Multi.serverAssigned st1 = Multi.serverAssigned st /\
                 Multi.servedMask st1 = Multi.servedMask st /\
                 Multi.serverOccupancy st1 = Multi.serverOccupancy st /\
                 Multi.lastChunkStart st1 = Multi.lastChunkStart st).
    { subst st1. destruct (0 <? duration); cbn; repeat split; assumption. }
    destruct Hf as (F1 & F2 & F3 & F4 & F5 & F6 & F7 & F8).
    assert (Hct : forall i, chunkTotal (customerLabel i) (Multi.chunks st1)
                = chunkTotal (customerLabel i) (Multi.chunks st)
                  + (if bool_decide (curr = i) then T - Multi.lastChunkStart st !!! curr else 0)).
    { intros i. subst st1 duration. rewrite mg_now0.
      destruct (Z.ltb_spec 0 (T - Multi.lastChunkStart st !!! curr)) as [Hd|Hd].
      - cbn [Multi.pushChunk Multi.chunks]. apply chunkTotal_snoc_customer.
      - case_bool_decide; lia. }
    assert (Hin : forall ch, ch ∈ Multi.chunks st -> ch ∈ Multi.chunks st1).
    { intros ch H. subst st1. destruct (0 <? duration); [|exact H].
      cbn. apply elem_of_app. now left. }
    assert (Hin' : forall ch, ch ∈ Multi.chunks st1 -> 0 <= start ch < end_ ch /\ end_ ch <= T).
    { intros ch H. subst st1 duration. rewrite mg_now0 in H.
      destruct (Z.ltb_spec 0 (T - Multi.lastChunkStart st !!! curr)) as [Hd|Hd];
        [|now apply mg_chunks0].
      cbn in H. apply elem_of_app in H as [H|H]; [now apply mg_chunks0|].
      apply list_elem_of_singleton in H as ->. cbn. lia. }
    assert (Hoc : forall s' c', (s' < servers)%nat ->
              <[sIdx := None]> (Multi.serverOccupancy st) !!! s' = Some c' ->
              s' <> sIdx /\ c' <> curr /\ Multi.serverOccupancy st !!! s' = Some c').
    { intros s' c' Hs'. rewrite occupancy_insert by lia. case_decide as E; [discriminate|].
      intros H. split; [congruence|]. split; [|exact H].
      intros ->. apply E. eapply mg_inj0; eauto. }
    assert (Hoff' : forall i, offServer (vacate sIdx st1) i -> i = curr \/ offServer st i).
    { intros i H. destruct (decide (i = curr)) as [|Hne]; [now left|]. right.
      unfold offServer in *. cbn [vacate Multi.serverOccupancy] in H.
      rewrite F7, length_insert in H. intros s' Hs' E.
      destruct (decide (sIdx = s')) as [->|Hn]; [congruence|].
      apply (H s' Hs'). rewrite occupancy_insert by lia. now rewrite decide_False. }
    split; [|split].
    - constructor; cbn [vacate Multi.remainingTimes Multi.serviceStart Multi.serviceEnd
                        Multi.serverAssigned Multi.servedMask Multi.serverOccupancy
                        Multi.lastChunkStart Multi.chunks Multi.currentTime];
        rewrite ?F1, ?F2, ?F3, ?F4, ?F5, ?F6, ?F7, ?F8, ?length_insert;
        try assumption; try reflexivity.
      + intros s' c' Hs' E. destruct (Hoc s' c' Hs' E) as (H1 & H2 & H3).
        rewrite Hct, bool_decide_eq_false_2 by congruence. rewrite Z.add_0_r.
        now apply (mg_occ0 s' c').
      + intros s1 s2 c' H1 H2 E1 E2.
        destruct (Hoc s1 c' H1 E1) as (A1 & A2 & A3), (Hoc s2 c' H2 E2) as (B1 & B2 & B3).
        eapply mg_inj0; eauto.
      + intros s' c' Hs' E. destruct (Hoc s' c' Hs' E) as (H1 & H2 & H3).
        rewrite Hct, bool_decide_eq_false_2 by congruence. rewrite Z.add_0_r.
        now apply (mg_on0 s' c').
      + intros i Hi Hio. rewrite Hct. destruct (Hoff' i Hio) as [->|Ho].
        * rewrite bool_decide_eq_true_2 by reflexivity. repeat split; try lia; tauto.
        * assert (curr <> i).
          { intros <-. apply (Ho sIdx); [lia | exact Hocc]. }
          rewrite bool_decide_eq_false_2 by assumption. rewrite Z.add_0_r. now apply mg_off0.
      + intros i Hi Hsv. destruct (mg_stamp0 i Hi Hsv) as (S0 & S1 & S2 & ch & S3 & S4).
        repeat split; try assumption. exists ch. split; [now apply Hin | exact S4].
    - unfold offServer. cbn [vacate Multi.serverOccupancy]. rewrite F7, length_insert.
      intros s' Hs' E. rewrite mg_len_occ0 in Hs'.
      destruct (Hoc s' curr Hs' E) as (_ & H & _). congruence.
    - intros c Hne Ho. unfold offServer in *. cbn [vacate Multi.serverOccupancy].
      rewrite F7, length_insert. intros s' Hs'. rewrite occupancy_insert by lia.
      case_decide; [discriminate | now apply Ho].
Qed.

Lemma install_vacate (sIdx c : nat) (st : Multi.State) :
    Multi.install sIdx c (vacate sIdx st) = Multi.install sIdx c st.
Proof.
    unfold Multi.install, vacate. cbn. now rewrite list_insert_insert_eq.
Qed.

Lemma passFrame_refl (st : Multi.State) : passFrame st st.
Proof. unfold passFrame. tauto. Qed.

Lemma passFrame_trans (st1 st2 st3 : Multi.State) :
    passFrame st1 st2 -> passFrame st2 st3 -> passFrame st1 st3.
Proof.
    unfold passFrame. intros (A1 & A2 & A3 & A4 & A5) (B1 & B2 & B3 & B4 & B5).
    repeat split; try congruence. auto.
Qed.

Lemma offServer_install (st : Multi.State) (sIdx chosen c : nat) :
    (sIdx < length (Multi.serverOccupancy st))%nat ->
    offServer st c -> c <> chosen -> offServer (Multi.install sIdx chosen st) c.
Proof.
    unfold offServer. cbn [Multi.install Multi.serverOccupancy]. rewrite length_insert.
    intros Hs H Hne s' Hs'. rewrite occupancy_insert by exact Hs.
    case_decide; [congruence | now apply H].
Qed.

Lemma install_frame (st : Multi.State) (sIdx chosen : nat) :
    (sIdx < length (Multi.serverOccupancy st))%nat ->
    passFrame st (Multi.install sIdx chosen st) /\
    Multi.serverOccupancy (Multi.install sIdx chosen st) !!! sIdx = Some chosen.
Proof.
    intros Hs. unfold passFrame. cbn [Multi.install Multi.currentTime Multi.remainingTimes
      Multi.servedMask Multi.serviceEnd Multi.serverOccupancy].
    repeat split.
    - intros s' H. rewrite occupancy_insert by exact Hs. case_decide; [discriminate | exact H].
    - now apply list_lookup_total_insert_eq.
Qed.

  (** One turn of the idle-server loop. *)
Lemma assignServer_inv (st : Multi.State) (pool : list nat) (sIdx : nat) (T : Z) :
    G 0%nat T T st -> PoolOK arrivalTimes st pool -> (sIdx < servers)%nat ->
    let sp' := Multi.assignServer priorities usePriority (st, pool) sIdx in
    G 0%nat T T (fst sp') /\ PoolOK arrivalTimes (fst sp') (snd sp') /\
    passFrame st (fst sp') /\
    (pool <> [] -> Multi.serverOccupancy (fst sp') !!! sIdx <> None) /\
    (increasing pool -> increasing (snd sp')).
Proof.
    intros I [Hnd Hpool] Hs. cbv zeta. unfold Multi.assignServer.
    pose proof (mg_len_occ _ _ _ _ _ _ _ I) as Hlo.
    pose proof (mg_now _ _ _ _ _ _ _ I) as Hnow.
    destruct (Multi.serverOccupancy st !!! sIdx) as [c0|] eqn:Eocc.
    - cbn [fst snd]. split; [exact I|]. split; [now split|]. split; [apply passFrame_refl|].
      split; [congruence | tauto].
    - destruct pool as [|p0 pool'].
      { cbn [fst snd]. split; [exact I|]. split; [now split|]. split; [apply passFrame_refl|].
        split; [congruence | tauto]. }
      set (pool := p0 :: pool') in *.
      set (chosen := pick usePriority priorities pool).
      assert (Hin : chosen ∈ pool) by (apply pick_in; discriminate).
      destruct (Hpool chosen Hin) as (Hc & Hcs & Hca & Hoff).
      cbn [fst snd]. rewrite Hnow in Hca.
      destruct (install_frame st sIdx chosen ltac:(lia)) as [Hfr Hnew].
      split; [now apply install_inv|]. split; [|split; [exact Hfr|split]].
      + rewrite (spliceOut_member _ _ Hin). split; [now apply removeFirst_NoDup|].
        intros c Hcin. apply removeFirst_elem in Hcin as [Hcin Hcne]; [|exact Hnd].
        destruct (Hpool c Hcin) as (P1 & P2 & P3 & P4).
        repeat split; try assumption. apply offServer_install; [lia | assumption..].
      + intros _. congruence.
      + intros Hinc. rewrite (spliceOut_member _ _ Hin). now apply removeFirst_increasing.
Qed.

Lemma assign_pass_inv (l : list nat) :
    forall (st : Multi.State) (pool : list nat) (T : Z),
    G 0%nat T T st -> PoolOK arrivalTimes st pool -> Forall (fun sIdx => (sIdx < servers)%nat) l ->
    let sp' := fold_left (Multi.assignServer priorities usePriority) l (st, pool) in
    G 0%nat T T (fst sp') /\ PoolOK arrivalTimes (fst sp') (snd sp') /\
    passFrame st (fst sp') /\
    (pool <> [] -> l <> [] -> exists sIdx, (sIdx < servers)%nat /\
                                 Multi.serverOccupancy (fst sp') !!! sIdx <> None) /\
    (increasing pool -> increasing (snd sp')).
Proof.
    induction l as [|sIdx l IH]; intros st pool T I P Hl; cbn [fold_left].
    - cbn [fst snd]. split; [exact I|]. split; [exact P|]. split; [apply passFrame_refl|].
      split; [congruence | tauto].
    - apply Forall_cons in Hl as [Hs Hl].
      destruct (assignServer_inv st pool sIdx T I P Hs) as (I1 & P1 & F1 & B1 & S1).
      destruct (Multi.assignServer priorities usePriority (st, pool) sIdx) as [st1 pool1].
      cbn [fst snd] in *.
      destruct (IH st1 pool1 T I1 P1 Hl) as (I2 & P2 & F2 & B2 & S2). cbv zeta in *.
      split; [exact I2|]. split; [exact P2|]. split; [eapply passFrame_trans; eassumption|].
      split; [|tauto]. intros Hne _. exists sIdx. split; [exact Hs|].
      apply F2. now apply B1.
Qed.

Lemma pushChunk_if_frame (b : bool) (ch : ServiceChunk) (st : Multi.State) :
    let st1 := if b then Multi.pushChunk ch st else st in
    Multi.currentTime st1 = Multi.currentTime st /\
    Multi.remainingTimes st1 = Multi.remainingTimes st /\
    Multi.servedMask st1 = Multi.servedMask st /\
    Multi.serviceEnd st1 = Multi.serviceEnd st /\
    Multi.serverOccupancy st1 = Multi.serverOccupancy st.
Proof. destruct b; cbn; tauto. Qed.

  (** One turn of the preemption loop. *)
Lemma preemptServer_inv (st : Multi.State) (pool : list nat) (sIdx : nat) (T : Z) :
    G 0%nat T T st -> PoolOK arrivalTimes st pool -> (sIdx < servers)%nat ->
    let sp' := Multi.preemptServer priorities (st, pool) sIdx in
    G 0%nat T T (fst sp') /\ PoolOK arrivalTimes (fst sp') (snd sp') /\
    passFrame st (fst sp').
Proof.
    intros I [Hnd Hpool] Hs. cbv zeta. unfold Multi.preemptServer.
    pose proof (mg_len_occ _ _ _ _ _ _ _ I) as Hlo.
    pose proof (mg_now _ _ _ _ _ _ _ I) as Hnow.
    assert (Hsame : G 0%nat T T st /\ PoolOK arrivalTimes st pool /\ passFrame st st).
    { split; [exact I|]. split; [now split | apply passFrame_refl]. }
    destruct (Multi.serverOccupancy st !!! sIdx) as [curr|] eqn:Eocc; [|exact Hsame].
    destruct pool as [|p0 pool']; [exact Hsame|].
    set (pool := p0 :: pool') in *.
    set (best := pickPriority priorities pool).
    destruct (priorities !!! best <? priorities !!! curr); [|exact Hsame].
    clear Hsame. cbn [fst snd].
    assert (Hin : best ∈ pool) by (apply pickPriority_in; discriminate).
    destruct (Hpool best Hin) as (Hb & Hbs & Hba & Hboff).
    destruct (mg_occ _ _ _ _ _ _ _ I sIdx curr Hs Eocc) as (Hc & Hcs & _ & _ & _ & Hca & _).
    assert (Hbc : best <> curr).
    { intros E. apply (Hboff sIdx); [lia|]. now rewrite E. }
    assert (Hcp : curr ∉ pool).
    { intros H. destruct (Hpool curr H) as (_ & _ & _ & Ho). apply (Ho sIdx); [lia | exact Eocc]. }
    set (ch := mkChunk (customerLabel curr) (Multi.lastChunkStart st !!! curr)
                       (Multi.currentTime st) (Some (serverLabel sIdx))).
    set (b := 0 <? Multi.currentTime st - Multi.lastChunkStart st !!! curr).
    destruct (vacate_inv st sIdx curr T I Hs Eocc) as (Iv & Hcoff & Hkeep).
    cbv zeta in Iv, Hcoff, Hkeep. fold ch b in Iv, Hcoff, Hkeep.
    destruct (pushChunk_if_frame b ch st) as (F1 & F2 & F3 & F4 & F5). cbv zeta in *.
    set (st1 := if b then Multi.pushChunk ch st else st) in *.
    assert (Hlv : length (Multi.serverOccupancy (vacate sIdx st1)) = servers).
    { cbn. now rewrite length_insert, F5. }
    rewrite <- (install_vacate sIdx best st1).
    split; [|split].
    - apply install_inv; try assumption.
      + cbn. apply list_lookup_total_insert_eq. rewrite F5. lia.
      + cbn. now rewrite F3.
      + lia.
      + apply Hkeep; assumption.
    - assert (Hnd' : NoDup (pool ++ [curr])).
      { apply NoDup_app. split; [exact Hnd|]. split; [|apply NoDup_singleton].
        intros x Hx Hx'. apply list_elem_of_singleton in Hx' as ->. contradiction. }
      assert (Hin' : best ∈ pool ++ [curr]) by (apply elem_of_app; now left).
      rewrite (spliceOut_member _ _ Hin'). split; [now apply removeFirst_NoDup|].
      intros c Hcin. apply removeFirst_elem in Hcin as [Hcin Hcne]; [|exact Hnd'].
      cbn [Multi.install Multi.servedMask Multi.currentTime vacate]. rewrite F1, F3.
      apply elem_of_app in Hcin as [Hcin|Hcin].
      + destruct (Hpool c Hcin) as (P1 & P2 & P3 & P4). repeat split; try assumption.
        apply offServer_install; [lia | | exact Hcne].
        apply Hkeep; [|exact P4]. intros ->. contradiction.
      + apply list_elem_of_singleton in Hcin as ->. repeat split; try assumption; [lia|].
        apply offServer_install; [lia | exact Hcoff | congruence].
    - destruct (install_frame (vacate sIdx st1) sIdx best ltac:(lia)) as [(G1 & G2 & G3 & G4 & G5) Hnew].
      unfold passFrame. cbn [vacate Multi.currentTime Multi.remainingTimes Multi.servedMask
                              Multi.serviceEnd] in G1, G2, G3, G4.
      repeat split; try congruence.
      intros s' Hs'. destruct (decide (s' = sIdx)) as [->|Hne]; [congruence|].
      apply G5. cbn. rewrite F5, list_lookup_total_insert_ne by congruence. exact Hs'.
Qed.

Lemma preempt_pass_inv (l : list nat) :
    forall (st : Multi.State) (pool : list nat) (T : Z),
    G 0%nat T T st -> PoolOK arrivalTimes st pool -> Forall (fun sIdx => (sIdx < servers)%nat) l ->
    let sp' := fold_left (Multi.preemptServer priorities) l (st, pool) in
    G 0%nat T T (fst sp') /\ PoolOK arrivalTimes (fst sp') (snd sp') /\ passFrame st (fst sp').
Proof.
    induction l as [|sIdx l IH]; intros st pool T I P Hl; cbn [fold_left].
    - cbn [fst snd]. split; [exact I|]. split; [exact P | apply passFrame_refl].
    - apply Forall_cons in Hl as [Hs Hl].
      destruct (preemptServer_inv st pool sIdx T I P Hs) as (I1 & P1 & F1).
      destruct (Multi.preemptServer priorities (st, pool) sIdx) as [st1 pool1].
      cbn [fst snd] in *.
      destruct (IH st1 pool1 T I1 P1 Hl) as (I2 & P2 & F2). cbv zeta in *.
      split; [exact I2|]. split; [exact P2 | eapply passFrame_trans; eassumption].
Qed.

Lemma seq_below (m : nat) : Forall (fun sIdx => (sIdx < m)%nat) (seq 0 m).
Proof. apply Forall_forall. intros x Hx. apply elem_of_seq in Hx. lia. Qed.

Lemma preemption_inv (st : Multi.State) (pool : list nat) (T : Z) :
    G 0%nat T T st -> PoolOK arrivalTimes st pool ->
    let sp' := Multi.preemption priorities servers usePriority (st, pool) in
    G 0%nat T T (fst sp') /\ PoolOK arrivalTimes (fst sp') (snd sp') /\ passFrame st (fst sp').
Proof.
    intros I P. cbv zeta. unfold Multi.preemption. cbn [snd].
    destruct usePriority, pool; try (cbn [fst snd]; split; [exact I|]; split;
                                     [exact P | apply passFrame_refl]).
    apply preempt_pass_inv; [exact I | exact P | apply seq_below].
Qed.

End MultiPasses.

Section MultiWork.

Variables arrivalTimes serviceTimes priorities : list Z.
Variable servers : nat.
Variable usePriority : bool.
Hypothesis Hlen : length serviceTimes = length arrivalTimes.
Hypothesis Hpos : forall i, (i < length arrivalTimes)%nat -> 1 <= serviceTimes !!! i.

Local Abbreviation G := (MultiInvG arrivalTimes serviceTimes servers).

  (** One turn of the work loop: server [k] is advanced from [T] to [next]. *)
Lemma workServer_inv (st : Multi.State) (k : nat) (T next : Z) :
    G k T next st -> (k < servers)%nat -> T < next ->
    let st' := Multi.workServer next (next - T) st k in
    G (S k) T next st' /\
    (forall sIdx, sIdx <> k ->
       Multi.serverOccupancy st' !!! sIdx = Multi.serverOccupancy st !!! sIdx) /\
    sumZ (Multi.remainingTimes st')
    = sumZ (Multi.remainingTimes st)
      - match Multi.serverOccupancy st !!! k with Some _ => next - T | None => 0 end.
Proof.
    intros I Hk Hlt. cbv zeta. unfold Multi.workServer. destruct_multi I.
    destruct (Multi.serverOccupancy st !!! k) as [c|] eqn:Eocc.
    2:{ split; [|split; [reflexivity | lia]].
        constructor; try assumption.
        - intros s' c' Hs' E. destruct (mg_occ0 s' c' Hs' E) as (A1&A2&A3&A4&A5&A6&A7&A8).
          repeat split; try assumption; try lia; intros H; apply A8; lia.
        - intros s' c' Hs' E. rewrite <- (mg_on0 s' c' Hs' E).
          assert (s' <> k) by congruence.
          destruct (Nat.ltb_spec s' (S k)), (Nat.ltb_spec s' k); try lia. }
    destruct (mg_occ0 k c Hk Eocc) as (Hc & Hcs & Hl & Hst & Has & Han & Hsl & Hjump).
    specialize (Hjump (Nat.le_refl k)).
    pose proof (mg_on0 k c Hk Eocc) as Hon. rewrite Nat.ltb_irrefl in Hon.
    pose proof (mg_remaining0 c Hc) as Hrc.
    set (rem' := <[c := Multi.remainingTimes st !!! c - (next - T)]> (Multi.remainingTimes st)).
    assert (Hlr : length rem' = length arrivalTimes) by (subst rem'; now rewrite length_insert).
    assert (Hsum : sumZ rem' = sumZ (Multi.remainingTimes st) - (next - T)).
    { subst rem'. rewrite sumZ_insert by lia. lia. }
    assert (Hrc' : rem' !!! c = Multi.remainingTimes st !!! c - (next - T)).
    { subst rem'. now rewrite list_lookup_total_insert_eq by lia. }
    assert (Hrne : forall i, i <> c -> rem' !!! i = Multi.remainingTimes st !!! i).
    { intros i Hi. subst rem'. now rewrite list_lookup_total_insert_ne by congruence. }
    assert (Hrem' : forall i, (i < length arrivalTimes)%nat -> 0 <= rem' !!! i <= serviceTimes !!! i).
    { intros i Hi. destruct (decide (i = c)) as [->|Hne]; [lia|].
      rewrite Hrne by exact Hne. now apply mg_remaining0. }
    assert (Hother : forall s' c', (s' < servers)%nat -> s' <> k ->
              Multi.serverOccupancy st !!! s' = Some c' -> c' <> c).
    { intros s' c' Hs' Hne E ->. apply Hne. eapply mg_inj0; eauto. }
    destruct (Z.leb_spec (Multi.remainingTimes st !!! c - (next - T)) 0) as [Hdone|Hmore].
    - (* the customer completes *)
      assert (Hzero : rem' !!! c = 0) by lia.
      assert (Hoc : forall s' c', (s' < servers)%nat ->
                <[k := None]> (Multi.serverOccupancy st) !!! s' = Some c' ->
                s' <> k /\ c' <> c /\ Multi.serverOccupancy st !!! s' = Some c').
      { intros s' c' Hs'. rewrite occupancy_insert by lia. case_decide as E; [discriminate|].
        intros H. split; [congruence|]. split; [|exact H]. eapply Hother; eauto. }
      split; [|split].
      + constructor; cbn [Multi.remainingTimes Multi.serviceStart Multi.serviceEnd
                          Multi.serverAssigned Multi.servedMask Multi.serverOccupancy
                          Multi.lastChunkStart Multi.chunks Multi.currentTime];
          fold rem'; rewrite ?length_insert; try assumption.
        * intros i Hi. destruct (decide (i = c)) as [->|Hne].
          -- rewrite list_lookup_total_insert_eq by lia. tauto.
          -- rewrite list_lookup_total_insert_ne, Hrne by congruence. now apply mg_served0.
        * intros s' c' Hs' E. destruct (Hoc s' c' Hs' E) as (H1 & H2 & H3).
          destruct (mg_occ0 s' c' Hs' H3) as (A1&A2&A3&A4&A5&A6&A7&A8).
          rewrite list_lookup_total_insert_ne, Hrne by congruence.
          rewrite chunkTotal_snoc_customer, bool_decide_eq_false_2 by congruence.
          rewrite Z.add_0_r. repeat split; try assumption; try lia; intros H; apply A8; lia.
        * intros s1 s2 c' H1 H2 E1 E2.
          destruct (Hoc s1 c' H1 E1) as (A1 & A2 & A3), (Hoc s2 c' H2 E2) as (B1 & B2 & B3).
          eapply mg_inj0; eauto.
        * intros s' c' Hs' E. destruct (Hoc s' c' Hs' E) as (H1 & H2 & H3).
          rewrite Hrne by exact H2.
          rewrite chunkTotal_snoc_customer, bool_decide_eq_false_2 by congruence.
          rewrite Z.add_0_r, <- (mg_on0 s' c' Hs' H3).
          destruct (Nat.ltb_spec s' (S k)), (Nat.ltb_spec s' k); try lia.
        * intros i Hi Hio. rewrite chunkTotal_snoc_customer.
          destruct (decide (c = i)) as [<-|Hne].
          -- rewrite bool_decide_eq_true_2 by reflexivity. repeat split; try lia; tauto.
          -- rewrite bool_decide_eq_false_2 by exact Hne. rewrite Z.add_0_r, Hrne by congruence.
             apply mg_off0; [exact Hi|]. unfold offServer in *.
             cbn [Multi.serverOccupancy] in Hio. rewrite length_insert in Hio.
             intros s' Hs' E. destruct (decide (k = s')) as [<-|Hn]; [congruence|].
             apply (Hio s' Hs'). rewrite occupancy_insert by lia. now rewrite decide_False.
        * intros i Hi. destruct (decide (i = c)) as [->|Hne].
          -- rewrite !list_lookup_total_insert_eq by lia. intros _.
             repeat split; try assumption; try lia.
             eexists. split; [apply elem_of_app; right; constructor|]. split; reflexivity.
          -- rewrite !list_lookup_total_insert_ne by congruence. intros Hsv.
             destruct (mg_stamp0 i Hi Hsv) as (S0 & S1 & S2 & ch & S3 & S4).
             repeat split; try assumption. exists ch. split; [apply elem_of_app; now left | exact S4].
        * intros ch Hch. apply elem_of_app in Hch as [Hch|Hch]; [now apply mg_chunks0|].
          apply list_elem_of_singleton in Hch as ->. cbn. lia.
      + intros s' Hne. cbn. now rewrite list_lookup_total_insert_ne by congruence.
      + cbn [Multi.remainingTimes]. fold rem'. lia.
    - (* work remains *)
      split; [|split].
      + constructor; cbn [Multi.remainingTimes Multi.serviceStart Multi.serviceEnd
                          Multi.serverAssigned Multi.servedMask Multi.serverOccupancy
                          Multi.lastChunkStart Multi.chunks Multi.currentTime];
          fold rem'; try assumption.
        * intros i Hi. destruct (decide (i = c)) as [->|Hne].
          -- rewrite Hcs. split; [discriminate | lia].
          -- rewrite Hrne by exact Hne. now apply mg_served0.
        * intros s' c' Hs' E. destruct (mg_occ0 s' c' Hs' E) as (A1&A2&A3&A4&A5&A6&A7&A8).
          repeat split; try assumption; try lia; intros H.
          assert (s' <> k) by lia. rewrite Hrne; [apply A8; lia|]. eapply Hother; eauto.
        * intros s' c' Hs' E. destruct (decide (s' = k)) as [->|Hne].
          -- assert (c' = c) by congruence. subst c'.
             rewrite (proj2 (Nat.ltb_lt k (S k))) by lia. lia.
          -- rewrite Hrne by (eapply Hother; eauto). rewrite <- (mg_on0 s' c' Hs' E).
             destruct (Nat.ltb_spec s' (S k)), (Nat.ltb_spec s' k); try lia.
        * intros i Hi Hio. unfold offServer in Hio. cbn [Multi.serverOccupancy] in Hio.
          assert (i <> c).
          { intros ->. apply (Hio k); [lia | exact Eocc]. }
          rewrite Hrne by assumption. now apply mg_off0.
      + reflexivity.
      + cbn [Multi.remainingTimes]. fold rem'. lia.
Qed.

  (** The work loop from server [k] on. *)
Lemma work_pass_inv (m : nat) :
    forall (k : nat) (st : Multi.State) (T next : Z),
    (k + m = servers)%nat -> G k T next st -> T < next ->
    let st' := fold_left (Multi.workServer next (next - T)) (seq k m) st in
    G servers T next st' /\
    sumZ (Multi.remainingTimes st') <= sumZ (Multi.remainingTimes st) /\
    (forall sIdx, (k <= sIdx < servers)%nat -> Multi.serverOccupancy st !!! sIdx <> None ->
       sumZ (Multi.remainingTimes st') <= sumZ (Multi.remainingTimes st) - (next - T)).
Proof.
    induction m as [|m IH]; intros k st T next Hk I Hlt; cbn [seq fold_left].
    - assert (E : k = servers) by lia. rewrite E in I.
      split; [exact I|]. split; [lia|]. intros s' Hs'. lia.
    - destruct (workServer_inv st k T next I ltac:(lia) Hlt) as (I1 & O1 & S1).
      cbv zeta in I1, O1, S1.
      set (st1 := Multi.workServer next (next - T) st k) in *.
      destruct (IH (S k) st1 T next ltac:(lia) I1 Hlt) as (I2 & S2 & S3). cbv zeta in *.
      split; [exact I2|].
      assert (Hle : sumZ (Multi.remainingTimes st1) <= sumZ (Multi.remainingTimes st)).
      { rewrite S1. destruct (Multi.serverOccupancy st !!! k); lia. }
      split; [lia|]. intros s' Hs' Hocc.
      destruct (decide (s' = k)) as [->|Hne].
      + rewrite S1 in S2. destruct (Multi.serverOccupancy st !!! k); [lia | congruence].
      + specialize (S3 s' ltac:(lia)). rewrite O1 in S3 by exact Hne. specialize (S3 Hocc). lia.
Qed.

  (** Before the work loop: every busy server has at least [next - T] work
      left, because [next] is at most each completion time. *)
Lemma inv_open_window (st : Multi.State) (T next : Z) :
    G 0%nat T T st -> T <= next ->
    (forall sIdx c, (sIdx < servers)%nat -> Multi.serverOccupancy st !!! sIdx = Some c ->
                    next - T <= Multi.remainingTimes st !!! c) ->
    G 0%nat T next st.
Proof.
    intros I Hle Hwin. destruct_multi I. constructor; try assumption.
    - lia.
    - intros s' c' Hs' E. destruct (mg_occ0 s' c' Hs' E) as (A1&A2&A3&A4&A5&A6&A7&A8).
      repeat split; try assumption; try lia. intros _. now apply (Hwin s' c').
    - intros i Hi Ho. destruct (mg_off0 i Hi Ho) as (O1 & O2 & O3).
      repeat split; try assumption; try (apply O3; assumption).
      specialize (O3 H). lia.
    - intros i Hi Hs. destruct (mg_stamp0 i Hi Hs) as (S0 & S1 & S2 & S3).
      repeat split; try assumption. lia.
    - intros ch Hch. specialize (mg_chunks0 ch Hch). lia.
Qed.

  (** After the work loop the clock moves to [next]. *)
Lemma inv_close_window (st : Multi.State) (T next : Z) :
    G servers T next st -> MultiInv arrivalTimes serviceTimes servers (Multi.setTime next st).
Proof.
    intros I. destruct_multi I. unfold MultiInv.
    constructor; cbn [Multi.setTime Multi.remainingTimes Multi.serviceStart Multi.serviceEnd
                      Multi.serverAssigned Multi.servedMask Multi.serverOccupancy
                      Multi.lastChunkStart Multi.chunks Multi.currentTime]; try assumption.
    - reflexivity.
    - lia.
    - intros s' c' Hs' E. destruct (mg_occ0 s' c' Hs' E) as (A1&A2&A3&A4&A5&A6&A7&A8).
      pose proof (mg_remaining0 c' A1).
      repeat split; try assumption; try lia.
    - intros s' c' Hs' E. rewrite <- (mg_on0 s' c' Hs' E).
      rewrite (proj2 (Nat.ltb_lt s' servers) Hs'). reflexivity.
Qed.

Local Abbreviation Inv := (MultiInv arrivalTimes serviceTimes servers).
Local Abbreviation step := (Multi.step arrivalTimes priorities servers usePriority).
Local Abbreviation loop := (Multi.loop arrivalTimes priorities servers usePriority).

Lemma multi_waitingPool_elem (st : Multi.State) (i : nat) :
    i ∈ Multi.waitingPool arrivalTimes st <->
    (i < length arrivalTimes)%nat /\ Multi.servedMask st !!! i = false
    /\ arrivalTimes !!! i <= Multi.currentTime st /\ offServer st i.
Proof.
    unfold Multi.waitingPool. rewrite list_elem_of_In, filter_In, in_seq.
    rewrite !andb_true_iff, !negb_true_iff, Z.leb_le, includes_false. intuition lia.
Qed.

Lemma multi_waitingPool_ok (st : Multi.State) :
    PoolOK arrivalTimes st (Multi.waitingPool arrivalTimes st).
Proof.
    split.
    - unfold Multi.waitingPool. apply NoDup_ListNoDup, List.NoDup_filter, List.seq_NoDup.
    - intros c Hc. now apply multi_waitingPool_elem.
Qed.

Lemma multi_initial_inv :
    Inv (Multi.initial (length arrivalTimes) servers serviceTimes).
Proof.
    unfold MultiInv.
    constructor; cbn [Multi.initial Multi.remainingTimes Multi.serviceStart Multi.serviceEnd
                      Multi.serverAssigned Multi.servedMask Multi.serverOccupancy
                      Multi.lastChunkStart Multi.chunks Multi.currentTime];
      rewrite ?length_replicate; try reflexivity; try assumption; try lia.
    - intros i Hi. specialize (Hpos i Hi). lia.
    - intros i Hi. rewrite lookup_total_replicate_2 by lia. specialize (Hpos i Hi).
      split; [discriminate | lia].
    - intros s' c' Hs'. rewrite lookup_total_replicate_2 by lia. discriminate.
    - intros s1 s2 c' H1 H2. rewrite lookup_total_replicate_2 by lia. discriminate.
    - intros s' c' Hs'. rewrite lookup_total_replicate_2 by lia. discriminate.
    - intros i Hi _. unfold chunkTotal. cbn. rewrite lookup_total_replicate_2 by lia.
      repeat split; try lia; congruence.
    - intros i Hi. rewrite lookup_total_replicate_2 by lia. discriminate.
    - intros ch Hch. inversion Hch.
Qed.

Lemma possibleEvents_spec (st : Multi.State) (T : Z) :
    G 0%nat T T st ->
    (forall x, x ∈ Multi.possibleEvents arrivalTimes servers st -> T < x) /\
    (forall sIdx c, (sIdx < servers)%nat -> Multi.serverOccupancy st !!! sIdx = Some c ->
       T + Multi.remainingTimes st !!! c ∈ Multi.possibleEvents arrivalTimes servers st) /\
    (forall i, (i < length arrivalTimes)%nat -> T < arrivalTimes !!! i ->
       exists j, (j < length arrivalTimes)%nat /\ T < arrivalTimes !!! j /\
                 arrivalTimes !!! j ∈ Multi.possibleEvents arrivalTimes servers st) /\
    ((forall sIdx, (sIdx < servers)%nat -> Multi.serverOccupancy st !!! sIdx = None) ->
     forall x, x ∈ Multi.possibleEvents arrivalTimes servers st ->
       exists j, (j < length arrivalTimes)%nat /\ x = arrivalTimes !!! j).
Proof.
    intros I. destruct_multi I. unfold Multi.possibleEvents. rewrite mg_now0.
    set (f := fun i : nat => T <? arrivalTimes !!! i).
    set (g := fun sIdx : nat =>
                match Multi.serverOccupancy st !!! sIdx with
                | Some cIdx => [T + Multi.remainingTimes st !!! cIdx]
                | None => []
                end).
    assert (Hg : forall x, x ∈ flat_map g (seq 0 servers) <->
              exists sIdx c, (sIdx < servers)%nat /\ Multi.serverOccupancy st !!! sIdx = Some c
                             /\ x = T + Multi.remainingTimes st !!! c).
    { intros x. rewrite list_elem_of_In, in_flat_map. split.
      - intros (s' & Hs' & Hx). apply in_seq in Hs'. subst g. cbn in Hx.
        destruct (Multi.serverOccupancy st !!! s') as [c|] eqn:E; [|inversion Hx].
        destruct Hx as [<-|[]]. exists s', c. split; [lia | tauto].
      - intros (s' & c & Hs' & E & ->). exists s'. split; [apply in_seq; lia|].
        subst g. cbn. rewrite E. now left. }
    repeat split.
    - intros x Hx. apply elem_of_app in Hx as [Hx|Hx].
      + destruct (find f (seq 0 (length arrivalTimes))) as [i|] eqn:E; [|inversion Hx].
        apply list_elem_of_singleton in Hx as ->. apply find_some in E as [_ E].
        subst f. cbn in E. lia.
      + apply Hg in Hx as (s' & c & Hs' & E & ->).
        destruct (mg_occ0 s' c Hs' E) as (A1 & A2 & _).
        pose proof (mg_remaining0 c A1). pose proof (mg_served0 c A1) as [_ B].
        destruct (Z.eq_dec (Multi.remainingTimes st !!! c) 0) as [Z0|]; [|lia].
        rewrite (B Z0) in A2. discriminate.
    - intros s' c Hs' E. apply elem_of_app. right. apply Hg. eauto.
    - intros i Hi Hlate. destruct (find f (seq 0 (length arrivalTimes))) as [j|] eqn:E.
      + pose proof (find_some _ _ E) as [Hj Hfj]. apply in_seq in Hj. subst f. cbn in Hfj.
        exists j. split; [lia|]. split; [lia|]. apply elem_of_app. left. constructor.
      + exfalso. pose proof (find_none _ _ E i) as Hn.
        specialize (Hn ltac:(apply in_seq; lia)). subst f. cbn in Hn. lia.
    - intros Hidle x Hx. apply elem_of_app in Hx as [Hx|Hx].
      + destruct (find f (seq 0 (length arrivalTimes))) as [j|] eqn:E; [|inversion Hx].
        apply list_elem_of_singleton in Hx as ->. apply find_some in E as [Hj _].
        apply in_seq in Hj. exists j. split; [lia | reflexivity].
      + apply Hg in Hx as (s' & c & Hs' & E & _). rewrite (Hidle s' Hs') in E. discriminate.
Qed.

Lemma occupied_dec (occupancy : list (option nat)) (m : nat) :
    (exists sIdx, (sIdx < m)%nat /\ occupancy !!! sIdx <> None) \/
    (forall sIdx, (sIdx < m)%nat -> occupancy !!! sIdx = None).
Proof.
    induction m as [|m [(s' & H1 & H2)|IH]].
    - right. intros s' H. lia.
    - left. exists s'. split; [lia | exact H2].
    - destruct (occupancy !!! m) eqn:E.
      + left. exists m. split; [lia | congruence].
      + right. intros s' H. destruct (decide (s' = m)) as [->|]; [exact E | apply IH; lia].
Qed.

Hypothesis Hservers : (1 <= servers)%nat.

  (** One pass of the loop while a customer is unserved: it does not
      [break], keeps the invariant and lowers the measure. *)
Lemma multi_step_progress (st : Multi.State) :
    Inv st -> forallb id (Multi.servedMask st) = false ->
    exists st', step st = Multi.Continue st' /\ Inv st' /\
                multiMeasure arrivalTimes st' < multiMeasure arrivalTimes st.
Proof.
    intros I Hns. unfold MultiInv in I. set (T := Multi.currentTime st) in *.
    destruct (forallb_id_false _ Hns) as (u & Hu & Hus).
    rewrite (mg_len_served _ _ _ _ _ _ _ I) in Hu.
    pose proof (multi_waitingPool_ok st) as P0.
    destruct (assign_pass_inv arrivalTimes serviceTimes priorities servers usePriority
                (seq 0 servers) st (Multi.waitingPool arrivalTimes st) T I P0
                (seq_below servers)) as (I1 & P1 & F1 & B1 & _).
    unfold Multi.step.
    destruct (fold_left (Multi.assignServer priorities usePriority) (seq 0 servers)
                        (st, Multi.waitingPool arrivalTimes st)) as [st1 pool1] eqn:Esp.
    cbn [fst snd] in I1, P1, F1, B1.
    destruct (preemption_inv arrivalTimes serviceTimes priorities servers usePriority
                st1 pool1 T I1 P1) as (I2 & _ & F2).
    cbv zeta in I2, F2.
    set (st2 := fst (Multi.preemption priorities servers usePriority (st1, pool1))) in *.
    pose proof (passFrame_trans _ _ _ F1 F2) as (Ft & Fr & Fs & Fe & Fo).
    destruct (possibleEvents_spec st2 T I2) as (E1 & E2 & E3 & E4).
    assert (Hev : exists x, x ∈ Multi.possibleEvents arrivalTimes servers st2).
    { destruct (Multi.includes (Multi.serverOccupancy st) u) eqn:Einc.
      - apply includes_true in Einc as (s' & Hs' & Es').
        rewrite (mg_len_occ _ _ _ _ _ _ _ I) in Hs'.
        destruct (Multi.serverOccupancy st2 !!! s') as [c|] eqn:E2'.
        + eexists. apply (E2 s' c Hs' E2').
        + exfalso. apply (Fo s'); [congruence | exact E2'].
      - apply includes_false in Einc.
        destruct (Z.lt_ge_cases T (arrivalTimes !!! u)) as [Hlate|Harr].
        + destruct (E3 u Hu Hlate) as (j & _ & _ & Hj). eauto.
        + assert (Hin : u ∈ Multi.waitingPool arrivalTimes st).
          { apply multi_waitingPool_elem. repeat split; try assumption; fold T; lia. }
          destruct B1 as (s' & Hs' & Hocc).
          { intros E. rewrite E in Hin. inversion Hin. }
          { destruct servers; [lia | discriminate]. }
          destruct F2 as (_ & _ & _ & _ & Fo2). specialize (Fo2 s' Hocc).
          destruct (Multi.serverOccupancy st2 !!! s') as [c|] eqn:E2'; [|congruence].
          eexists. apply (E2 s' c Hs' E2'). }
    destruct (Multi.possibleEvents arrivalTimes servers st2) as [|e0 events'] eqn:Eev.
    { destruct Hev as (x & Hx). inversion Hx. }
    set (events := e0 :: events') in *. clear Hev.
    destruct (minZ_spec events ltac:(discriminate)) as [Hmin_in Hmin_le].
    set (next := minZ events) in *.
    assert (Hlt : T < next) by (now apply E1).
    assert (Hwin : forall s' c, (s' < servers)%nat -> Multi.serverOccupancy st2 !!! s' = Some c ->
                     next - T <= Multi.remainingTimes st2 !!! c).
    { intros s' c Hs' E. specialize (Hmin_le _ (E2 s' c Hs' E)). lia. }
    pose proof (inv_open_window st2 T next I2 ltac:(lia) Hwin) as I3.
    destruct (work_pass_inv servers 0 st2 T next eq_refl I3 Hlt) as (I4 & S1 & S2).
    cbv zeta in I4, S1, S2.
    assert (Hnow2 : Multi.currentTime st2 = T) by (exact (mg_now _ _ _ _ _ _ _ I2)).
    rewrite Hnow2.
    set (st3 := fold_left (Multi.workServer next (next - T)) (seq 0 servers) st2) in *.
    eexists. split; [reflexivity|]. split; [now apply (inv_close_window st3 T next)|].
    unfold multiMeasure. cbn [Multi.setTime Multi.currentTime Multi.remainingTimes]. fold T.
    rewrite Fr in S1, S2.
    destruct (occupied_dec (Multi.serverOccupancy st2) servers) as [(s' & Hs' & Hocc)|Hidle].
    - specialize (S2 s' ltac:(lia) Hocc).
      pose proof (notArrived_mono arrivalTimes T next ltac:(lia)). lia.
    - destruct (E4 Hidle next Hmin_in) as (j & Hj & Ej).
      pose proof (notArrived_less arrivalTimes T next j Hj ltac:(lia) ltac:(lia)). lia.
Qed.

Lemma multiMeasure_nonneg (st : Multi.State) : Inv st -> 0 <= multiMeasure arrivalTimes st.
Proof.
    intros I. unfold multiMeasure.
    assert (0 <= sumZ (Multi.remainingTimes st)).
    { apply sumZ_nonneg. intros x Hx. apply list_elem_of_lookup_total in Hx as (i & Hi & <-).
      rewrite (mg_len_remaining _ _ _ _ _ _ _ I) in Hi. now apply (mg_remaining _ _ _ _ _ _ _ I). }
    lia.
Qed.

Lemma multi_loop_terminates (fuel : nat) :
    forall st, Inv st -> multiMeasure arrivalTimes st < Z.of_nat fuel ->
    exists st', loop fuel st = Some st' /\ Inv st' /\
                forallb id (Multi.servedMask st') = true.
Proof.
    induction fuel as [|fuel IH]; intros st I Hm.
    - pose proof (multiMeasure_nonneg st I). lia.
    - cbn [Multi.loop]. destruct (forallb id (Multi.servedMask st)) eqn:Hall.
      + exists st. auto.
      + destruct (multi_step_progress st I Hall) as (st' & -> & I' & Hlt).
        apply IH; [exact I' | lia].
Qed.

Lemma multi_loop_result (fuel : nat) :
    forall st st', Inv st -> loop fuel st = Some st' ->
    Inv st' /\ forallb id (Multi.servedMask st') = true.
Proof.
    induction fuel as [|fuel IH]; intros st st' I; cbn [Multi.loop];
      destruct (forallb id (Multi.servedMask st)) eqn:Hall; try discriminate.
    - intros [= <-]. auto.
    - intros [= <-]. auto.
    - destruct (multi_step_progress st I Hall) as (st1 & -> & I1 & _). now apply IH.
Qed.

End MultiWork.

(** ** Results *)

Lemma length_cumSum (arr : list Z) : length (cumSum arr) = length arr.
Proof.
  unfold cumSum.
  assert (H : forall l sum result,
            length (snd (fold_left (fun '(sum, result) v => (sum + v, result ++ [sum + v]))
                                   l (sum, result)))
            = (length result + length l)%nat).
  { induction l as [|x l IH]; intros sum result; cbn [fold_left snd length]; [lia|].
    rewrite IH, length_app. cbn. lia. }
  apply (H arr 0 []).
Qed.

Lemma Forall_ge1_lookup (l : list Z) (i : nat) :
  Forall (fun t => 1 <= t) l -> (i < length l)%nat -> 1 <= l !!! i.
Proof.
  intros H Hi. rewrite Forall_forall in H. apply H. now apply list_elem_of_lookup_total_2.
Qed.

Lemma Qle_bool_inject (a b : Z) : Qle_bool (inject_Z a) (inject_Z b) = (a <=? b).
Proof.
  destruct (Z.leb_spec a b) as [H|H].
  - apply Qle_bool_iff. now rewrite <- Zle_Qle.
  - destruct (Qle_bool (inject_Z a) (inject_Z b)) eqn:E; [|reflexivity].
    apply Qle_bool_iff in E. rewrite <- Zle_Qle in E. lia.
Qed.

Lemma max_ofZ (a b : Z) : max (ofZ a) (ofZ b) = ofZ (Z.max a b).
Proof.
  unfold max, ofZ, le. rewrite Qle_bool_inject.
  destruct (Z.leb_spec a b); f_equal; f_equal; lia.
Qed.

Lemma min_ofZ (a b : Z) : min (ofZ a) (ofZ b) = ofZ (Z.min a b).
Proof.
  unfold min, ofZ, le. rewrite Qle_bool_inject.
  destruct (Z.leb_spec a b); f_equal; f_equal; lia.
Qed.

Lemma fold_max_ofZ (l : list Z) (a : Z) :
  fold_left (fun acc z => max acc (ofZ z)) l (ofZ a) = ofZ (fold_left Z.max l a).
Proof.
  revert a. induction l as [|x l IH]; intros a; cbn [fold_left]; [reflexivity|].
  now rewrite max_ofZ, IH.
Qed.

Lemma fold_min_ofZ (l : list Z) (a : Z) :
  fold_left (fun acc z => min acc (ofZ z)) l (ofZ a) = ofZ (fold_left Z.min l a).
Proof.
  revert a. induction l as [|x l IH]; intros a; cbn [fold_left]; [reflexivity|].
  now rewrite min_ofZ, IH.
Qed.

Lemma fold_Zmax_ge (l : list Z) (a : Z) :
  a <= fold_left Z.max l a /\ forall x, x ∈ l -> x <= fold_left Z.max l a.
Proof.
  revert a. induction l as [|y l IH]; intros a; cbn [fold_left].
  - split; [lia|]. intros x Hx. inversion Hx.
  - destruct (IH (Z.max a y)) as [H1 H2]. split; [lia|].
    intros x Hx. apply elem_of_cons in Hx as [->|Hx]; [lia | now apply H2].
Qed.

Lemma fold_Zmin_le (l : list Z) (a : Z) :
  fold_left Z.min l a <= a /\ forall x, x ∈ l -> fold_left Z.min l a <= x.
Proof.
  revert a. induction l as [|y l IH]; intros a; cbn [fold_left].
  - split; [lia|]. intros x Hx. inversion Hx.
  - destruct (IH (Z.min a y)) as [H1 H2]. split; [lia|].
    intros x Hx. apply elem_of_cons in Hx as [->|Hx]; [lia | now apply H2].
Qed.

Lemma maxOf_spec (l : list Z) :
  l <> [] -> exists M, maxOf l = ofZ M /\ forall x, x ∈ l -> x <= M.
Proof.
  destruct l as [|a l]; [congruence|]. intros _. unfold maxOf. cbn [fold_left].
  change (max NInf (ofZ a)) with (ofZ a). rewrite fold_max_ofZ.
  eexists. split; [reflexivity|]. destruct (fold_Zmax_ge l a) as [H1 H2].
  intros x Hx. apply elem_of_cons in Hx as [->|Hx]; [exact H1 | now apply H2].
Qed.

Lemma minOf_spec (l : list Z) :
  l <> [] -> exists m, minOf l = ofZ m /\ forall x, x ∈ l -> m <= x.
Proof.
  destruct l as [|a l]; [congruence|]. intros _. unfold minOf. cbn [fold_left].
  change (min PInf (ofZ a)) with (ofZ a). rewrite fold_min_ofZ.
  eexists. split; [reflexivity|]. destruct (fold_Zmin_le l a) as [H1 H2].
  intros x Hx. apply elem_of_cons in Hx as [->|Hx]; [exact H1 | now apply H2].
Qed.

Open Scope Q_scope.

Lemma ratio_percentage (busy total : Q) :
  0 <= busy -> busy <= total -> 0 < total ->
  is_percentage (mul (div (Fin busy) (Fin total)) (Fin 100)).
Proof.
  intros Hb Hbt Ht. unfold div.
  assert (Hnz : Qeq_bool total 0 = false).
  { destruct (Qeq_bool total 0) eqn:E; [|reflexivity].
    apply Qeq_bool_iff in E. rewrite E in Ht. discriminate. }
  rewrite Hnz. cbn [mul]. eexists. split; [reflexivity|].
  assert (Hq0 : 0 <= busy / total) by (apply Qle_shift_div_l; [exact Ht | lra]).
  assert (Hq1 : busy / total <= 1) by (apply Qle_shift_div_r; [exact Ht | lra]).
  split; lra.
Qed.

Lemma zero_percentage : is_percentage (Fin 0).
Proof. exists 0. split; [reflexivity|]. split; discriminate. Qed.

Lemma min_percentage (q : Q) : 0 <= q -> is_percentage (min (Fin q) (Fin 100)).
Proof.
  intros Hq. unfold min, le. destruct (Qle_bool q 100) eqn:E.
  - apply Qle_bool_iff in E. exists q. tauto.
  - exists 100. split; [reflexivity|]. split; discriminate.
Qed.

Close Scope Q_scope.

Lemma sumZ_ge1 (l : list Z) : l <> [] -> (forall x, x ∈ l -> 1 <= x) -> 1 <= sumZ l.
Proof.
  destruct l as [|a l]; [congruence|]. intros _ H. rewrite sumZ_cons.
  assert (1 <= a) by (apply H; constructor).
  assert (0 <= sumZ l).
  { apply sumZ_nonneg. intros x Hx. assert (1 <= x) by (apply H; now constructor). lia. }
  lia.
Qed.

Section SingleResults.

Variables arrivalTimes serviceTimes : list Z.
Hypothesis Hlen : length serviceTimes = length arrivalTimes.
Hypothesis Hpos : forall i, (i < length arrivalTimes)%nat -> 1 <= serviceTimes !!! i.

Lemma single_all_done (st : Single.State) (i : nat) :
    SingleInv arrivalTimes serviceTimes st -> forallb id (Single.servedMask st) = true ->
    (i < length arrivalTimes)%nat -> Single.remainingTimes st !!! i = 0.
Proof.
    intros I Hall Hi. apply (si_served _ _ _ I i Hi).
    apply forallb_id_true; [exact Hall|]. rewrite (si_len_served _ _ _ I). exact Hi.
Qed.

Lemma single_utilization_percentage (st : Single.State) :
    SingleInv arrivalTimes serviceTimes st -> forallb id (Single.servedMask st) = true ->
    is_percentage (Single.utilization serviceTimes st).
Proof.
    intros I Hall. unfold Single.utilization.
    destruct (length arrivalTimes) as [|n'] eqn:En.
    - pose proof (si_len_ends _ _ _ I) as H1. pose proof (si_len_starts _ _ _ I) as H2.
      rewrite En in H1, H2. apply nil_length_inv in H1, H2. rewrite H1, H2. cbn.
      apply zero_percentage.
    - assert (Hrem0 : sumZ (Single.remainingTimes st) = 0).
      { apply sumZ_zero. intros i Hi. rewrite (si_len_remaining _ _ _ I) in Hi.
        now apply single_all_done. }
      assert (Hbusy : 1 <= sumZ serviceTimes).
      { apply sumZ_ge1.
        - intros E. rewrite E in Hlen. cbn in Hlen. lia.
        - intros x Hx. apply list_elem_of_lookup_total in Hx as (i & Hi & <-).
          apply Hpos. lia. }
      destruct (si_busy _ _ _ I) as [E|(i0 & Hi0 & Hs0 & Hw)]; [lia|].
      destruct (si_last _ _ _ I Hall) as [E|(i1 & Hi1 & He1)]; [lia|].
      destruct (maxOf_spec (Single.serviceEnds st)) as (M & -> & HM).
      { intros E. pose proof (si_len_ends _ _ _ I) as H. rewrite E in H. cbn in H. lia. }
      destruct (minOf_spec (Single.serviceStarts st)) as (m & -> & Hm).
      { intros E. pose proof (si_len_starts _ _ _ I) as H. rewrite E in H. cbn in H. lia. }
      assert (HM1 : Single.currentTime st <= M).
      { rewrite <- He1. apply HM, list_elem_of_lookup_total_2.
        rewrite (si_len_ends _ _ _ I). lia. }
      assert (Hm1 : m <= Single.serviceStarts st !!! i0).
      { apply Hm, list_elem_of_lookup_total_2. rewrite (si_len_starts _ _ _ I). lia. }
      unfold ofZ. cbn [sub neg add].
      assert (Hq : (inject_Z (sumZ serviceTimes) <= inject_Z M + - inject_Z m)%Q).
      { rewrite <- inject_Z_opp, <- inject_Z_plus, <- Zle_Qle. lia. }
      assert (Hq1 : (0 < inject_Z (sumZ serviceTimes))%Q).
      { change 0%Q with (inject_Z 0). rewrite <- Zlt_Qlt. lia. }
      assert (Hlt : lt (Fin 0) (Fin (inject_Z M + - inject_Z m)) = true).
      { cbn. apply negb_true_iff. destruct (Qle_bool _ 0) eqn:E; [|reflexivity].
        apply Qle_bool_iff in E. lra. }
      rewrite Hlt. apply ratio_percentage; lra.
Qed.

End SingleResults.

Section MultiResults.

Variable servers : nat.
Hypothesis Hservers : (1 <= servers)%nat.

Lemma markBusy_nonneg (timeline : list Z) (r : SimulationRow) :
    Forall (fun v => 0 <= v) timeline -> Forall (fun v => 0 <= v) (Multi.markBusy timeline r).
Proof.
    unfold Multi.markBusy. generalize (seq (Z.to_nat (rowServiceStart r))
                                           (Z.to_nat (rowServiceEnd r - rowServiceStart r))).
    intros l. revert timeline. induction l as [|t l IH]; intros timeline H; cbn [fold_left];
      [exact H|].
    apply IH. destruct (decide (t < length timeline)%nat) as [Ht|Ht].
    - apply Forall_insert; [exact H|].
      rewrite Forall_forall in H. specialize (H _ (list_elem_of_lookup_total_2 timeline t Ht)).
      lia.
    - rewrite list_insert_ge by lia. exact H.
Qed.

Lemma timeline_nonneg (rows : list SimulationRow) (timeline : list Z) :
    Forall (fun v => 0 <= v) timeline ->
    Forall (fun v => 0 <= v) (fold_left Multi.markBusy rows timeline).
Proof.
    revert timeline. induction rows as [|r l IH]; intros tl H; cbn [fold_left]; [exact H|].
    apply IH. now apply markBusy_nonneg.
Qed.

Lemma capped_sum_nonneg (timeline : list Z) (acc : Z) :
    Forall (fun v => 0 <= v) timeline -> 0 <= acc ->
    0 <= fold_left (fun acc val => acc + Z.min val (Z.of_nat servers)) timeline acc.
Proof.
    revert acc. induction timeline as [|v l IH]; intros acc H Ha; cbn [fold_left]; [exact Ha|].
    apply Forall_cons in H as [Hv H]. apply IH; [exact H | lia].
Qed.

Lemma multi_utilization_percentage (rows : list SimulationRow) (st : Multi.State) :
    is_percentage (Multi.utilization servers rows st).
Proof.
    unfold Multi.utilization.
    set (simulationEnd := fold_left Z.max (Multi.serviceEnd st) 0).
    set (validRows := List.filter _ rows).
    set (timeline := fold_left Multi.markBusy validRows _).
    assert (Ht : Forall (fun v => 0 <= v) timeline).
    { subst timeline. apply timeline_nonneg, Forall_replicate. lia. }
    pose proof (capped_sum_nonneg timeline 0 Ht (Z.le_refl 0)) as Hb.
    set (totalBusyTime := fold_left _ timeline 0) in *.
    destruct (Z.ltb_spec 0 simulationEnd) as [Hpos|Hle]; [|apply (min_percentage 0); discriminate].
    unfold ofZ, div.
    assert (Hd : (0 < inject_Z (simulationEnd * Z.of_nat servers))%Q).
    { change 0%Q with (inject_Z 0). rewrite <- Zlt_Qlt. lia. }
    assert (Hnz : Qeq_bool (inject_Z (simulationEnd * Z.of_nat servers)) 0 = false).
    { destruct (Qeq_bool _ 0) eqn:E; [|reflexivity].
      apply Qeq_bool_iff in E. rewrite E in Hd. discriminate. }
    rewrite Hnz. cbn [mul]. apply min_percentage.
    assert (H0 : (0 <= inject_Z totalBusyTime)%Q).
    { change 0%Q with (inject_Z 0). now rewrite <- Zle_Qle. }
    assert ((0 <= inject_Z totalBusyTime / inject_Z (simulationEnd * Z.of_nat servers))%Q).
    { apply Qle_shift_div_l; [exact Hd | lra]. }
    lra.
Qed.

End MultiResults.

Section Simulations.

Variables interArrivals serviceTimes priorities : list Z.
Variable servers : nat.
Variable usePriority : bool.
Hypothesis Hlen : length serviceTimes = length interArrivals.
Hypothesis Hge1 : Forall (fun t => 1 <= t) serviceTimes.
Hypothesis Hservers : (1 <= servers)%nat.

Local Abbreviation arrivalTimes := (cumSum interArrivals).

Lemma sim_lengths : length serviceTimes = length arrivalTimes.
Proof. now rewrite length_cumSum. Qed.

Lemma sim_positive : forall i, (i < length arrivalTimes)%nat -> 1 <= serviceTimes !!! i.
Proof.
    intros i Hi. rewrite length_cumSum in Hi. apply Forall_ge1_lookup; [exact Hge1 | lia].
Qed.

Lemma single_run_completes :
    exists fuel st,
      Single.loop arrivalTimes priorities usePriority fuel
                  (Single.initial (length arrivalTimes) serviceTimes) = Some st /\
      SingleInv arrivalTimes serviceTimes st /\ forallb id (Single.servedMask st) = true.
Proof.
    assert (I0 : SingleInv arrivalTimes serviceTimes
                   (Single.initial (length arrivalTimes) serviceTimes))
      by (apply single_initial_inv; first [exact sim_lengths | exact sim_positive]).
    set (st0 := Single.initial (length arrivalTimes) serviceTimes) in *.
    exists (S (Z.to_nat (singleMeasure arrivalTimes st0))).
    eapply single_loop_terminates; try first [eassumption | exact sim_lengths | exact sim_positive].
    assert (0 <= singleMeasure arrivalTimes st0) by (eapply singleMeasure_nonneg; try first [eassumption | exact sim_lengths | exact sim_positive]).
    lia.
Qed.

Lemma single_run_sound (fuel : nat) (st : Single.State) :
    Single.loop arrivalTimes priorities usePriority fuel
                (Single.initial (length arrivalTimes) serviceTimes) = Some st ->
    SingleInv arrivalTimes serviceTimes st /\ forallb id (Single.servedMask st) = true.
Proof.
    intros H. eapply single_loop_result; [..|exact H]; try first [eassumption | exact sim_lengths | exact sim_positive].
    apply single_initial_inv; first [exact sim_lengths | exact sim_positive].
Qed.

Lemma multi_run_completes :
    exists fuel st,
      Multi.loop arrivalTimes priorities servers usePriority fuel
                 (Multi.initial (length arrivalTimes) servers serviceTimes) = Some st /\
      MultiInv arrivalTimes serviceTimes servers st /\
      forallb id (Multi.servedMask st) = true.
Proof.
    assert (I0 : MultiInv arrivalTimes serviceTimes servers
                   (Multi.initial (length arrivalTimes) servers serviceTimes))
      by (apply multi_initial_inv; first [exact sim_lengths | exact sim_positive]).
    set (st0 := Multi.initial (length arrivalTimes) servers serviceTimes) in *.
    exists (S (Z.to_nat (multiMeasure arrivalTimes st0))).
    eapply multi_loop_terminates; try first [eassumption | exact sim_lengths | exact sim_positive].
    assert (0 <= multiMeasure arrivalTimes st0) by (eapply multiMeasure_nonneg; try first [eassumption | exact sim_lengths | exact sim_positive]).
    lia.
Qed.

Lemma multi_run_sound (fuel : nat) (st : Multi.State) :
    Multi.loop arrivalTimes priorities servers usePriority fuel
               (Multi.initial (length arrivalTimes) servers serviceTimes) = Some st ->
    MultiInv arrivalTimes serviceTimes servers st /\ forallb id (Multi.servedMask st) = true.
Proof.
    intros H. eapply multi_loop_result; [..|exact H]; try first [eassumption | exact sim_lengths | exact sim_positive].
    apply multi_initial_inv; first [exact sim_lengths | exact sim_positive].
Qed.

Lemma multi_served_off (st : Multi.State) (i : nat) :
    MultiInv arrivalTimes serviceTimes servers st ->
    Multi.servedMask st !!! i = true -> offServer st i.
Proof.
    intros I Hs s' Hs' E. rewrite (mg_len_occ _ _ _ _ _ _ _ I) in Hs'.
    destruct (mg_occ _ _ _ _ _ _ _ I s' i Hs' E) as (_ & H & _). congruence.
Qed.

  (** Every variant returns a result once the fuel suffices. *)
Lemma runSimulation_completes (v : Variant) :
    exists fuel res,
      runSimulation v interArrivals serviceTimes priorities servers usePriority fuel = Some res.
Proof.
    destruct single_run_completes as (fuel1 & st1 & E1 & _).
    destruct multi_run_completes as (fuel2 & st2 & E2 & _).
    destruct v; cbn [runSimulation]; unfold mm1Simulation, mg1Simulation, mmsSSimulation,
      mgsSSimulation, Single.simulate, Multi.simulate; cbv zeta.
    1,3: exists fuel1; rewrite E1; eauto.
    all: exists fuel2; rewrite E2; eauto.
Qed.

  (** What a returned result is: the table built from a final state of the
      loop in which every customer is served. *)
Lemma runSimulation_inv (v : Variant) (fuel : nat) (res : SimulationResult) :
    runSimulation v interArrivals serviceTimes priorities servers usePriority fuel = Some res ->
    (exists st, SingleInv arrivalTimes serviceTimes st /\
                forallb id (Single.servedMask st) = true /\
                res = Single.result interArrivals arrivalTimes serviceTimes priorities st) \/
    (exists st, MultiInv arrivalTimes serviceTimes servers st /\
                forallb id (Multi.servedMask st) = true /\
                res = Multi.result interArrivals arrivalTimes serviceTimes priorities servers st).
Proof.
    pose proof (single_run_sound fuel) as S1. pose proof (multi_run_sound fuel) as S2.
    destruct v; cbn [runSimulation]; unfold mm1Simulation, mg1Simulation, mmsSSimulation,
      mgsSSimulation, Single.simulate, Multi.simulate; cbv zeta.
    1,3: destruct (Single.loop _ _ _ _ _) as [st|] eqn:E; [|discriminate];
         intros [= <-]; left; exists st; destruct (S1 st eq_refl); auto.
    all: destruct (Multi.loop _ _ _ _ _ _) as [st|] eqn:E; [|discriminate];
         intros [= <-]; right; exists st; destruct (S2 st eq_refl); auto.
Qed.

End Simulations.

(** ** Further properties of the calculator *)

Open Scope Q_scope.

(** X1.  An input that the opening guard of a calculator rejects gives the
    zeroed result: [rho = 0], [stable = false], the four metrics [0], and
    the error string of that calculator. *)
Theorem rejected_input_gives_zeroed_result (model : QueuingModel) (input : QueuingInput) :
  fails_validation model input = true ->
  calculateQueuingMetrics model input =
    invalid_result (match model with
                    | MM1 => "Invalid lambda or mu values"
                    | _ => "Invalid input values"
                    end).
Proof.
  intros Hv.
  destruct model; cbn [calculateQueuingMetrics fails_validation] in *;
    unfold calculateMM1, calculateMMS, calculateMG1, calculateMGS, calculateGG1, calculateGGS,
      csOf, caOf, sigmaOf, serversOf in *; cbv zeta; rewrite Hv; reflexivity.
Qed.

Lemma rejected_input_gives_zeroed_result_witness :
  calculateQueuingMetrics MGS (mkInput (Fin 2) (Fin 5) (Some 0%Z) None None None) =
    invalid_result "Invalid input values".
Proof.
  apply (rejected_input_gives_zeroed_result MGS (mkInput (Fin 2) (Fin 5) (Some 0%Z) None None None)).
  reflexivity.
Defined.

(** X2.  A calculator reports [stable = true] exactly when its guard
    accepts the input and the utilization it computes is not [>= 1]; a
    stable result carries no error and that utilization.  In particular the
    second unstable return of [calculateMGS] and [calculateGGS], taken when
    the inner [calculateMMS] is unstable, is never taken. *)
Theorem stable_iff_accepted_and_below_one (model : QueuingModel) (input : QueuingInput) :
  let r := calculateQueuingMetrics model input in
  (stable r = true <->
   fails_validation model input = false /\ ge (utilization_of model input) (Fin 1) = false) /\
  (stable r = true -> error r = None /\ rho r = utilization_of model input).
Proof.
  destruct model;
    cbn [calculateQueuingMetrics fails_validation utilization_of single_server];
    unfold calculateMM1, calculateMGS, calculateMG1, calculateGG1, calculateGGS, calculateMMS,
      csOf, caOf, sigmaOf, serversOf; cbv zeta;
    cbn [lambda mu s sigma ca cs default]; unfold id.
  all: repeat match goal with
         | |- context [le ?a ?b] =>
             let E := fresh "E" in destruct (le a b) eqn:E;
             cbn [orb negb stable error rho invalid_result unstable_result stable_result]
         | |- context [lt ?a ?b] =>
             let E := fresh "E" in destruct (lt a b) eqn:E;
             cbn [orb negb stable error rho invalid_result unstable_result stable_result]
         | |- context [ge ?a ?b] =>
             let E := fresh "E" in destruct (ge a b) eqn:E;
             cbn [orb negb stable error rho invalid_result unstable_result stable_result]
         end.
  all: repeat split; try tauto; try discriminate; try reflexivity; try (intros [? ?]; discriminate).
Qed.

Section SingleServerForms.
Variables l m : Q.
Hypothesis Hl : 0 < l.
Hypothesis Hlm : l < m.

Let Hm : 0 < m.
Proof. lra. Qed.

Let Hrho : 0 < 1 + - (l / m).
Proof. assert (l / m < 1) by (apply Qlt_shift_div_r; lra). lra. Qed.



End SingleServerForms.



Close Scope Q_scope.


Open Scope Q_scope.











Section ManyServers.
Variables l m : Q.
Variable sv : Z.
Hypothesis Hs : (1 <= sv)%Z.
Hypothesis Hl : 0 <= l.
Hypothesis Hm : 0 < m.
Hypothesis Hlm : l < inject_Z sv * m.






End ManyServers.



Close Scope Q_scope.

(** X13.  The form asks for the number of servers exactly for the models
    whose calculator has several servers; it asks for [lambda] and [mu]
    for every model, and never for the same field twice. *)
Theorem required_inputs_match_model (model : QueuingModel) :
  ("s" ∈ getRequiredInputs model <-> single_server model = false) /\
  "lambda" ∈ getRequiredInputs model /\ "mu" ∈ getRequiredInputs model /\
  NoDup (getRequiredInputs model).
Proof.
  destruct model; cbn [getRequiredInputs single_server].
  all: repeat split; try discriminate; try reflexivity; intros;
    try (apply NoDup_ListNoDup);
    repeat first [ progress (rewrite ?elem_of_cons, ?elem_of_nil in *)
                 | progress (rewrite ?NoDup_cons, ?NoDup_nil, ?elem_of_cons, ?elem_of_nil) ];
    try (vm_compute; reflexivity);
    try tauto.
  all: try (repeat constructor; cbn; intuition discriminate).
  all: try (intuition discriminate).
Qed.

(** ** Further properties of the generators *)

Lemma Forall_map_seq {A : Type} (P : A -> Prop) (f : nat -> A) (start count : nat) :
  (forall j, (start <= j < start + count)%nat -> P (f j)) ->
  Forall P (map f (seq start count)).
Proof.
  intros H. apply Forall_forall. intros x Hx.
  apply list_elem_of_In, in_map_iff in Hx as (j & <- & Hj).
  apply in_seq in Hj. now apply H.
Qed.

(** X14.  [generateUniformServiceTimes] returns [count] service times,
    each an integer that is at least 1, whatever the bounds and the draws. *)
Theorem uniform_service_times_are_integers (randomUniform : nat -> Q) (a b : Q) (count : nat) :
  length (generateUniformServiceTimes randomUniform a b count) = count /\
  Forall is_integer_ge1 (generateUniformServiceTimes randomUniform a b count).
Proof.
  unfold generateUniformServiceTimes. split.
  - now rewrite length_map, length_seq.
  - apply Forall_map_seq. intros j _. apply uniformServiceTime_integer.
Qed.

(** X15.  [generateNormalServiceTimes] returns [count] service times, each
    an integer that is at least 1, for draws in [[0, 1)]: the draw 0 is
    replaced by 0.0001 before the logarithm is taken.  ([Math.log] is
    assumed non-positive on [(0, 1)].) *)
Theorem normal_service_times_are_integers
        (Math_ln Math_root Math_cosine : Q -> Q) (Math_PI : Q) (randomUniform : nat -> Q)
        (mu sigma : Q) (count : nat) :
  (forall q, 0 < q -> q < 1 -> Math_ln q <= 0)%Q ->
  (forall j, 0 <= randomUniform j /\ randomUniform j < 1)%Q ->
  length (generateNormalServiceTimes Math_ln Math_root Math_cosine Math_PI randomUniform
                                     mu sigma count) = count /\
  Forall is_integer_ge1
         (generateNormalServiceTimes Math_ln Math_root Math_cosine Math_PI randomUniform
                                     mu sigma count).
Proof.
  intros Hln Hu. unfold generateNormalServiceTimes. split.
  - now rewrite length_map, length_seq.
  - apply Forall_map_seq. intros j _.
    apply normalServiceTime_integer; [exact Hln | apply Hu | apply Hu].
Qed.

Lemma normal_service_times_are_integers_witness :
  length (generateNormalServiceTimes (fun q => q - 1)%Q (fun q => q) (fun _ => 1%Q) 3
                                     (fun j => if Nat.even j then 0%Q else (1 # 2)%Q)
                                     4 2 5) = 5%nat /\
  Forall is_integer_ge1
         (generateNormalServiceTimes (fun q => q - 1)%Q (fun q => q) (fun _ => 1%Q) 3
                                     (fun j => if Nat.even j then 0%Q else (1 # 2)%Q)
                                     4 2 5).
Proof.
  apply (normal_service_times_are_integers
           (fun q => q - 1)%Q (fun q => q) (fun _ => 1%Q) 3
           (fun j => if Nat.even j then 0%Q else (1 # 2)%Q) 4 2 5).
  - intros q H0 H1. lra.
  - intros j. destruct (Nat.even j); split; reflexivity || discriminate.
Defined.

(** X16.  [generateServiceTimes] returns [count] service times, each an
    integer that is at least 1, as long as no draw is 0. *)
Theorem exponential_service_times_are_integers
        (Math_ln : Q -> Q) (randomUniform : nat -> Q) (mu : Q) (count : nat) :
  (forall j, 0 < randomUniform j)%Q ->
  length (generateServiceTimes Math_ln randomUniform mu count) = count /\
  Forall is_integer_ge1 (generateServiceTimes Math_ln randomUniform mu count).
Proof.
  intros Hu. unfold generateServiceTimes. split.
  - now rewrite length_map, length_seq.
  - apply Forall_map_seq. intros j _. apply exponentialServiceTime_integer, Hu.
Qed.

Lemma exponential_service_times_are_integers_witness :
  length (generateServiceTimes (fun q => q - 1)%Q (fun _ => (1 # 2)%Q) 5 4) = 4%nat /\
  Forall is_integer_ge1 (generateServiceTimes (fun q => q - 1)%Q (fun _ => (1 # 2)%Q) 5 4).
Proof.
  apply (exponential_service_times_are_integers (fun q => q - 1)%Q (fun _ => (1 # 2)%Q) 5 4).
  intros j. reflexivity.
Defined.

(** X17.  [generatePriorities] returns [count] priorities, each 1, 2 or 3,
    for draws in [[0, 1)]. *)
Theorem priorities_between_1_and_3 (randomUniform : nat -> Q) (count : nat) :
  (forall j, 0 <= randomUniform j /\ randomUniform j < 1)%Q ->
  length (generatePriorities randomUniform count) = count /\
  Forall (fun p => 1 <= p <= 3) (generatePriorities randomUniform count).
Proof.
  intros Hu. unfold generatePriorities. split.
  - now rewrite length_map, length_seq.
  - apply Forall_map_seq. intros j _. destruct (Hu j) as [H0 H1]. unfold priorityOf.
    assert (L : 0 <= Qfloor (randomUniform j * 3)).
    { change 0 with (Qfloor 0). apply Qfloor_resp_le. lra. }
    assert (U : Qfloor (randomUniform j * 3) < 3).
    { pose proof (Qfloor_le (randomUniform j * 3)) as F.
      rewrite Zlt_Qlt. change (inject_Z 3) with 3%Q. lra. }
    lia.
Qed.

Lemma priorities_between_1_and_3_witness :
  length (generatePriorities (fun j => if Nat.even j then (1 # 3)%Q else (5 # 6)%Q) 6) = 6%nat /\
  Forall (fun p => 1 <= p <= 3) (generatePriorities (fun j => if Nat.even j then (1 # 3)%Q else (5 # 6)%Q) 6).
Proof.
  apply (priorities_between_1_and_3 (fun j => if Nat.even j then (1 # 3)%Q else (5 # 6)%Q) 6).
  intros j. destruct (Nat.even j); split; reflexivity || discriminate.
Defined.

Lemma findSlot_bound (cpCum cpLookup : list Q) (r : Q) :
  (findSlot cpCum cpLookup r <= length cpCum - 1)%nat.
Proof.
  unfold findSlot.
  destruct (find _ (seq 0 (length cpCum))) as [i|] eqn:E; [|lia].
  apply find_some in E as [Hi _]. apply in_seq in Hi. lia.
Qed.

(** X18.  [generateInterArrivals] returns one inter-arrival time per row of
    the table (and one for an empty table); the first is 0 and every one is
    the index of a row. *)
Theorem inter_arrivals_are_table_rows (randomUniform : nat -> Q) (cpCum cpLookup : list Q) :
  let ia := generateInterArrivals randomUniform cpCum cpLookup in
  length ia = Nat.max 1 (length cpCum) /\ ia !!! 0%nat = 0 /\
  Forall (fun x => 0 <= x <= Z.of_nat (length cpCum - 1)) ia.
Proof.
  cbv zeta. unfold generateInterArrivals. repeat split.
  - cbn [length]. rewrite length_map, length_seq. lia.
  - constructor; [lia|]. apply Forall_map_seq. intros j _.
    pose proof (findSlot_bound cpCum cpLookup (randomUniform (j - 1)%nat)). lia.
Qed.

Lemma cumSum_prefixSums (arr : list Z) : cumSum arr = prefixSums 0 arr.
Proof.
  unfold cumSum.
  assert (H : forall l sum result,
            snd (fold_left (fun '(sum, result) v => (sum + v, result ++ [sum + v]))
                           l (sum, result))
            = result ++ prefixSums sum l).
  { induction l as [|x l IH]; intros sum result; cbn [fold_left snd prefixSums].
    - now rewrite app_nil_r.
    - rewrite IH, <- app_assoc. reflexivity. }
  apply (H arr 0 []).
Qed.

Lemma prefixSums_lookup (arr : list Z) :
  forall (sum : Z) (i : nat), (i < length arr)%nat ->
    prefixSums sum arr !!! i = sum + sumZ (take (S i) arr).
Proof.
  induction arr as [|v arr IH]; intros sum i Hi; cbn in Hi; [lia|].
  cbn [prefixSums take]. rewrite sumZ_cons. destruct i as [|i].
  - cbn. rewrite take_0, sumZ_nil. lia.
  - change ((sum + v :: prefixSums (sum + v) arr) !!! S i)
      with (prefixSums (sum + v) arr !!! i).
    rewrite IH by lia. lia.
Qed.

Lemma prefixSums_sorted (arr : list Z) :
  Forall (fun v => 0 <= v) arr ->
  forall sum, StronglySorted Z.le (prefixSums sum arr) /\ Forall (Z.le sum) (prefixSums sum arr).
Proof.
  induction 1 as [|v arr Hv _ IH]; intros sum; cbn [prefixSums].
  - split; constructor.
  - destruct (IH (sum + v)) as [Hs Hf]. split.
    + constructor; assumption.
    + constructor; [lia|]. eapply Forall_impl; [exact Hf|]. cbn. lia.
Qed.

(** X19.  [cumSum] returns the running sums: entry [i] is the sum of the
    first [i + 1] entries of its argument. *)
Theorem cumSum_is_running_sum (arr : list Z) (i : nat) :
  (i < length arr)%nat -> cumSum arr !!! i = sumZ (take (S i) arr).
Proof.
  intros Hi. rewrite cumSum_prefixSums, prefixSums_lookup by exact Hi. lia.
Qed.

Lemma cumSum_is_running_sum_witness : cumSum [0; 2; 1; 3] !!! 2%nat = sumZ (take 3 [0; 2; 1; 3]).
Proof. apply (cumSum_is_running_sum [0; 2; 1; 3] 2). cbn. lia. Defined.

(** X20.  The arrival times of a simulation, the running sums of the
    generated inter-arrival times, start at 0 and never decrease, whatever
    the table and the draws. *)
Theorem arrival_times_never_decrease (randomUniform : nat -> Q) (cpCum cpLookup : list Q) :
  let arrivalTimes := cumSum (generateInterArrivals randomUniform cpCum cpLookup) in
  arrivalTimes !!! 0%nat = 0 /\ StronglySorted Z.le arrivalTimes /\
  length arrivalTimes = Nat.max 1 (length cpCum).
Proof.
  cbv zeta. repeat split.
  - rewrite cumSum_prefixSums. reflexivity.
  - rewrite cumSum_prefixSums. apply prefixSums_sorted.
    unfold generateInterArrivals. constructor; [lia|].
    apply Forall_map_seq. intros j _. lia.
  - rewrite length_cumSum. unfold generateInterArrivals. cbn [length].
    rewrite length_map, length_seq. lia.
Qed.
Lemma poissonLoop_indices (left : nat) :
  forall (lambda p cum : Q) (k : nat),
    let t := poissonLoop left lambda p cum k in
    map snd t = seq k (length t) /\ (1 <= length t <= left + 1)%nat.
Proof.
  induction left as [|left IH]; intros lambda p cum k; cbn [poissonLoop].
  - cbn [map snd length seq]. split; [reflexivity | lia].
  - destruct (Qle_bool threshold (cum + p)).
    + cbn [map snd length seq]. split; [reflexivity | lia].
    + destruct (IH lambda (p * (lambda / inject_Z (Z.of_nat (S k))))%Q (cum + p)%Q (S k))
        as [E B].
      cbv zeta in E, B. cbn [map snd length seq]. rewrite E. split; [reflexivity | lia].
Qed.

Lemma length_clampLast (c : list Q) : length (clampLast c) = length c.
Proof. unfold clampLast. destruct c; [reflexivity|]. now rewrite length_insert. Qed.

Lemma removelast_lookup (c : list Q) (i : nat) :
  (S i < length c)%nat -> removelast c !!! i = c !!! i.
Proof.
  intros Hi. rewrite removelast_firstn_len.
  change (firstn (Init.Nat.pred (length c)) c) with (take (Init.Nat.pred (length c)) c).
  rewrite lookup_total_take. destruct (decide (i < Init.Nat.pred (length c))%nat); [reflexivity | lia].
Qed.

Lemma buildPoissonCDF_table (Math_exp : Q -> Q) (lambda : Q) :
  exists table : list (Q * nat),
    table = poissonLoop maxK lambda (Math_exp (- lambda)%Q) 0%Q 0%nat /\
    buildPoissonCDF Math_exp lambda =
      mkCDF (clampLast (map fst table)) (0%Q :: removelast (clampLast (map fst table)))
            (map snd table).
Proof. eexists. split; reflexivity. Qed.

(** X21.  The three columns of the arrival table have the same length,
    between 1 and [maxK + 1] rows; [noBetweenArrivals] counts the rows from
    0; and the ranges are contiguous: the lower bound of the first is 0 and
    the lower bound of every other is the upper bound of the one before. *)
Theorem arrival_table_columns (Math_exp : Q -> Q) (lambda : Q) :
  let t := buildPoissonCDF Math_exp lambda in
  let n := length (cpCum t) in
  (1 <= n <= maxK + 1)%nat /\ length (cpLookup t) = n /\
  noBetweenArrivals t = seq 0 n /\
  cpLookup t !!! 0%nat = 0%Q /\
  forall i, (S i < n)%nat -> cpLookup t !!! (S i) = cpCum t !!! i.
Proof.
  destruct (buildPoissonCDF_table Math_exp lambda) as (t & Ht & ->).
  destruct (poissonLoop_indices maxK lambda (Math_exp (- lambda)%Q) 0%Q 0%nat) as [E B].
  rewrite <- Ht in E, B. clear Ht. cbv zeta in E, B.
  cbv zeta. cbn [cpCum cpLookup noBetweenArrivals].
  rewrite length_clampLast, length_map.
  split; [exact B|]. destruct B as [B _].
  split; [|split; [exact E|split; [reflexivity|]]].
  - cbn [length]. rewrite removelast_firstn_len, length_firstn, length_clampLast, length_map.
    lia.
  - intros i Hi.
    change ((0%Q :: removelast (clampLast (map fst t))) !!! S i)
      with (removelast (clampLast (map fst t)) !!! i).
    apply removelast_lookup. now rewrite length_clampLast, length_map.
Qed.

Lemma find_exists {A : Type} (f : A -> bool) (l : list A) (x : A) :
  In x l -> f x = true -> exists y, find f l = Some y.
Proof.
  intros Hin Hx. destruct (find f l) as [y|] eqn:E; [now exists y|].
  now rewrite (find_none f l E x Hin) in Hx.
Qed.

Lemma slot_exists (cpCum cpLookup : list Q) (r : Q) (d : nat) :
  forall k : nat,
    (k + d = length cpCum - 1)%nat -> (0 < length cpCum)%nat ->
    (forall i, (S i < length cpCum)%nat -> cpLookup !!! (S i) = cpCum !!! i) ->
    (cpLookup !!! k <= r)%Q -> (r <= cpCum !!! (length cpCum - 1)%nat)%Q ->
    exists i, (i < length cpCum)%nat /\
              Qle_bool (cpLookup !!! i) r && Qle_bool r (cpCum !!! i) = true.
Proof.
  induction d as [|d IH]; intros k Hk Hn Hc Hlo Hhi.
  - exists k. split; [lia|]. replace k with (length cpCum - 1)%nat at 2 by lia.
    apply andb_true_intro. split; now apply Qle_bool_iff.
  - destruct (Qlt_le_dec (cpCum !!! k) r) as [Hlt|Hle].
    + apply (IH (S k)); try assumption; [lia|].
      rewrite Hc by lia. now apply Qlt_le_weak.
    + exists k. split; [lia|]. apply andb_true_intro. split; now apply Qle_bool_iff.
Qed.

(** X22.  On a table with contiguous ranges, a draw between the lower
    bound of the first range and the upper bound of the last falls in the
    range [generateInterArrivals] finds for it. *)
Theorem findSlot_brackets_draw (cpCum cpLookup : list Q) (r : Q) :
  cpCum <> [] ->
  (forall i, (S i < length cpCum)%nat -> cpLookup !!! (S i) = cpCum !!! i) ->
  (cpLookup !!! 0%nat <= r)%Q -> (r <= cpCum !!! (length cpCum - 1)%nat)%Q ->
  let i := findSlot cpCum cpLookup r in
  (i < length cpCum)%nat /\ (cpLookup !!! i <= r)%Q /\ (r <= cpCum !!! i)%Q.
Proof.
  intros Hne Hc Hlo Hhi. cbv zeta.
  assert (Hn : (0 < length cpCum)%nat) by (destruct cpCum; [congruence | cbn; lia]).
  destruct (slot_exists cpCum cpLookup r (length cpCum - 1) 0 ltac:(lia) Hn Hc Hlo Hhi)
    as (i & Hi & Hp).
  destruct (find_exists (fun i => Qle_bool (cpLookup !!! i) r && Qle_bool r (cpCum !!! i))
                        (seq 0 (length cpCum)) i) as (y & Ey); [apply in_seq; lia | exact Hp |].
  unfold findSlot. rewrite Ey. apply find_some in Ey as [Hy Hpy].
  apply in_seq in Hy. apply andb_prop in Hpy as [P1 P2].
  apply Qle_bool_iff in P1, P2. repeat split; [lia | exact P1 | exact P2].
Qed.

Lemma findSlot_brackets_draw_witness :
  let i := findSlot [(1 # 2)%Q; 1%Q] [0%Q; (1 # 2)%Q] (3 # 4)%Q in
  (i < length [(1 # 2)%Q; 1%Q])%nat /\
  ([0%Q; (1 # 2)%Q] !!! i <= 3 # 4)%Q /\ (3 # 4 <= [(1 # 2)%Q; 1%Q] !!! i)%Q.
Proof.
  apply (findSlot_brackets_draw [(1 # 2)%Q; 1%Q] [0%Q; (1 # 2)%Q] (3 # 4)%Q).
  - discriminate.
  - intros i Hi. destruct i as [|i]; [reflexivity | cbn in Hi; lia].
  - discriminate.
  - discriminate.
Defined.

(** ** Further properties of the schedulers *)

Section SingleVariants.
Variables interArrivals serviceTimes priorities : list Z.
Variable usePriority : bool.
Hypothesis Hlen : length serviceTimes = length interArrivals.
Hypothesis Hge1 : Forall (fun t => 1 <= t) serviceTimes.

(** A result of [mm1Simulation] or [mg1Simulation] is built from a final
    state of the single-server loop. *)
Lemma single_variant_result (v : Variant) (servers fuel : nat) (res : SimulationResult) :
  v = VMM1 \/ v = VMG1 ->
  runSimulation v interArrivals serviceTimes priorities servers usePriority fuel = Some res ->
  exists st, SingleInv (cumSum interArrivals) serviceTimes st /\
             forallb id (Single.servedMask st) = true /\
             res = Single.result interArrivals (cumSum interArrivals) serviceTimes priorities st.
Proof.
  intros Hv.
  pose proof (single_run_sound interArrivals serviceTimes priorities 1 usePriority
                Hlen Hge1 (le_n 1) fuel) as S1.
  destruct Hv as [-> | ->]; cbn [runSimulation];
    unfold mm1Simulation, mg1Simulation, Single.simulate; cbv zeta;
    (destruct (Single.loop _ _ _ _ _) as [st|] eqn:E; [|discriminate]);
    intros [= <-]; exists st; destruct (S1 st eq_refl); auto.
Qed.

Lemma single_variant_completes (v : Variant) (servers : nat) :
  v = VMM1 \/ v = VMG1 ->
  exists fuel res,
    runSimulation v interArrivals serviceTimes priorities servers usePriority fuel = Some res.
Proof.
  intros Hv.
  destruct (single_run_completes interArrivals serviceTimes priorities 1 usePriority
              Hlen Hge1 (le_n 1)) as (fuel & st & E & _).
  exists fuel.
  destruct Hv as [-> | ->]; cbn [runSimulation];
    unfold mm1Simulation, mg1Simulation, Single.simulate; cbv zeta; rewrite E; eauto.
Qed.
End SingleVariants.

(** X23.  The single server serves one customer at a time: in the result
    of [mm1Simulation] and of [mg1Simulation] the chunks are listed in time
    order and no chunk starts before every earlier chunk has ended. *)
Theorem single_server_serves_one_at_a_time
        (v : Variant) (interArrivals serviceTimes priorities : list Z)
        (servers : nat) (usePriority : bool) :
  v = VMM1 \/ v = VMG1 ->
  length serviceTimes = length interArrivals ->
  Forall (fun t => 1 <= t) serviceTimes ->
  (exists fuel res,
     runSimulation v interArrivals serviceTimes priorities servers usePriority fuel = Some res)
  /\
  forall fuel res,
    runSimulation v interArrivals serviceTimes priorities servers usePriority fuel = Some res ->
    StronglySorted (fun a b => end_ a <= start b) (resultChunks res).
Proof.
  intros Hv Hlen Hge1. split; [now apply single_variant_completes|].
  intros fuel res Hrun.
  destruct (single_variant_result interArrivals serviceTimes priorities usePriority
              Hlen Hge1 v servers fuel res Hv Hrun) as (st & I & _ & ->).
  cbn [Single.result resultChunks]. exact (proj1 (si_chain _ _ _ I)).
Qed.

Lemma single_server_serves_one_at_a_time_witness :
  (exists fuel res, runSimulation VMG1 [0; 0; 1; 0] [5; 5; 2; 2] [2; 3; 1; 2] 0 true fuel
                    = Some res)
  /\
  forall fuel res,
    runSimulation VMG1 [0; 0; 1; 0] [5; 5; 2; 2] [2; 3; 1; 2] 0 true fuel = Some res ->
    StronglySorted (fun a b => end_ a <= start b) (resultChunks res).
Proof.
  apply (single_server_serves_one_at_a_time VMG1 [0; 0; 1; 0] [5; 5; 2; 2] [2; 3; 1; 2] 0 true);
    [right; reflexivity | reflexivity | repeat constructor; lia].
Defined.

(** X24.  No variant emits an empty or a backward chunk: every chunk of a
    result starts at a time that is not negative and ends strictly
    later. *)
Theorem chunks_have_positive_duration
        (v : Variant) (interArrivals serviceTimes priorities : list Z)
        (servers : nat) (usePriority : bool) :
  length serviceTimes = length interArrivals ->
  Forall (fun t => 1 <= t) serviceTimes ->
  (1 <= servers)%nat ->
  (exists fuel res,
     runSimulation v interArrivals serviceTimes priorities servers usePriority fuel = Some res)
  /\
  forall fuel res,
    runSimulation v interArrivals serviceTimes priorities servers usePriority fuel = Some res ->
    Forall (fun c => 0 <= start c < end_ c) (resultChunks res).
Proof.
  intros Hlen Hge1 Hservers. split; [now apply runSimulation_completes|].
  intros fuel res Hrun. apply Forall_forall. intros c Hc.
  destruct (runSimulation_inv interArrivals serviceTimes priorities servers usePriority
              Hlen Hge1 Hservers v fuel res Hrun)
    as [(st & I & _ & ->)|(st & I & _ & ->)];
    cbn [Single.result Multi.result resultChunks] in Hc.
  - exact (proj1 (proj2 (si_chain _ _ _ I) c Hc)).
  - exact (proj1 (mg_chunks _ _ _ _ _ _ _ I c Hc)).
Qed.

Lemma chunks_have_positive_duration_witness :
  (exists fuel res, runSimulation VMGS [0; 0; 1; 0] [5; 5; 2; 2] [2; 3; 1; 2] 2 true fuel
                    = Some res)
  /\
  forall fuel res,
    runSimulation VMGS [0; 0; 1; 0] [5; 5; 2; 2] [2; 3; 1; 2] 2 true fuel = Some res ->
    Forall (fun c => 0 <= start c < end_ c) (resultChunks res).
Proof.
  apply (chunks_have_positive_duration VMGS [0; 0; 1; 0] [5; 5; 2; 2] [2; 3; 1; 2] 2 true);
    [reflexivity | repeat constructor; lia | lia].
Defined.

Lemma buildRows_times (interArrivals arrivalTimes serviceTimes priorities starts ends : list Z)
      (assigned : nat -> option string) :
  (forall i, (i < length arrivalTimes)%nat ->
     arrivalTimes !!! i <= starts !!! i /\ starts !!! i + serviceTimes !!! i <= ends !!! i) ->
  Forall row_times_ok
         (buildRows interArrivals arrivalTimes serviceTimes priorities starts ends assigned).
Proof.
  intros H. unfold buildRows. apply Forall_map_seq. intros i Hi.
  destruct (H i ltac:(lia)) as [H1 H2]. unfold row_times_ok.
  cbn [arrivalTime rowServiceStart serviceTime rowServiceEnd responseTime waitTime
       turnaroundTime]. lia.
Qed.

(** X25.  The result table of every variant has one row per customer, and
    in every row service starts no earlier than the arrival and ends at
    least the service time later: response time and waiting time are not
    negative and the turnaround time is at least the service time. *)
Theorem result_rows_are_consistent
        (v : Variant) (interArrivals serviceTimes priorities : list Z)
        (servers : nat) (usePriority : bool) :
  length serviceTimes = length interArrivals ->
  Forall (fun t => 1 <= t) serviceTimes ->
  (1 <= servers)%nat ->
  (exists fuel res,
     runSimulation v interArrivals serviceTimes priorities servers usePriority fuel = Some res)
  /\
  forall fuel res,
    runSimulation v interArrivals serviceTimes priorities servers usePriority fuel = Some res ->
    length (rows res) = length interArrivals /\ Forall row_times_ok (rows res).
Proof.
  intros Hlen Hge1 Hservers. split; [now apply runSimulation_completes|].
  intros fuel res Hrun.
  pose proof (sim_positive interArrivals serviceTimes servers Hlen Hge1 Hservers) as Hpos.
  destruct (runSimulation_inv interArrivals serviceTimes priorities servers usePriority
              Hlen Hge1 Hservers v fuel res Hrun)
    as [(st & I & Hall & ->)|(st & I & Hall & ->)];
    cbn [Single.result Multi.result rows].
  - split; [unfold buildRows; now rewrite length_map, length_seq, length_cumSum|].
    apply buildRows_times. intros i Hi.
    assert (Hs : Single.servedMask st !!! i = true).
    { apply forallb_id_true; [exact Hall|]. now rewrite (si_len_served _ _ _ I). }
    destruct (si_stamp _ _ _ I i Hi Hs) as (H0 & _).
    destruct (si_begun _ _ _ I i Hi) as [B1 B2].
    destruct (Z.eq_dec (Single.serviceStarts st !!! i) (-1)) as [E1|E1].
    + specialize (B1 E1).
      rewrite (single_all_done (cumSum interArrivals) serviceTimes st i I Hall Hi) in B1.
      pose proof (Hpos i Hi). lia.
    + specialize (B2 E1). lia.
  - split; [unfold buildRows; now rewrite length_map, length_seq, length_cumSum|].
    apply buildRows_times. intros i Hi.
    assert (Hs : Multi.servedMask st !!! i = true).
    { apply forallb_id_true; [exact Hall|]. now rewrite (mg_len_served _ _ _ _ _ _ _ I). }
    destruct (mg_stamp _ _ _ _ _ _ _ I i Hi Hs) as (H0 & H1 & _).
    destruct (mg_off _ _ _ _ _ _ _ I i Hi (multi_served_off _ _ _ st i I Hs)) as (_ & _ & O3).
    specialize (O3 H0). lia.
Qed.

Lemma result_rows_are_consistent_witness :
  (exists fuel res, runSimulation VMMS [0; 2; 1; 0] [3; 1; 2; 2] [2; 3; 1; 2] 2 false fuel
                    = Some res)
  /\
  forall fuel res,
    runSimulation VMMS [0; 2; 1; 0] [3; 1; 2; 2] [2; 3; 1; 2] 2 false fuel = Some res ->
    length (rows res) = length [0; 2; 1; 0] /\ Forall row_times_ok (rows res).
Proof.
  apply (result_rows_are_consistent VMMS [0; 2; 1; 0] [3; 1; 2; 2] [2; 3; 1; 2] 2 false);
    [reflexivity | repeat constructor; lia | lia].
Defined.
Lemma seq_increasing (a n : nat) : increasing (seq a n).
Proof.
  revert a. induction n as [|n IH]; intros a; cbn [seq]; constructor; [apply IH|].
  apply Forall_forall. intros x Hx. apply list_elem_of_In, in_seq in Hx. lia.
Qed.

Lemma filter_increasing (f : nat -> bool) (l : list nat) :
  increasing l -> increasing (List.filter f l).
Proof.
  induction 1 as [|x l Hs IH Hx]; cbn [List.filter]; [constructor|].
  destruct (f x); [|exact IH]. constructor; [exact IH|].
  rewrite Forall_forall in *. intros y Hy.
  apply list_elem_of_In, filter_In in Hy as [Hy _]. apply Hx. now apply list_elem_of_In.
Qed.

(** X26.  In a pass that finds customers waiting, the single-server loop
    serves the one selected with ties broken by lowest index: the chunk it
    appends carries the label of that customer. *)
Theorem single_server_serves_lowest_index
        (arrivalTimes priorities : list Z) (usePriority : bool) (st : Single.State) :
  Single.waitingPool arrivalTimes st <> [] ->
  let pool := Single.waitingPool arrivalTimes st in
  let chosen := pick usePriority priorities pool in
  lowest_index_tie_break usePriority priorities pool chosen /\
  exists st' c,
    Single.step arrivalTimes priorities usePriority st = Some st' /\
    Single.chunks st' = Single.chunks st ++ [c] /\
    label c = customerLabel chosen /\ start c = Single.currentTime st /\
    end_ c = Single.currentTime st'.
Proof.
  intros Hne. cbv zeta. split.
  - apply pick_lowest_index; [exact Hne|].
    unfold Single.waitingPool. apply filter_increasing, seq_increasing.
  - unfold Single.step.
    destruct (Single.waitingPool arrivalTimes st) as [|p0 pool'] eqn:Ep; [congruence|].
    cbv zeta.
    match goal with
    | |- context [if ?b then Some ?s1 else Some ?s2] =>
        destruct b; [exists s1 | exists s2]
    end; eexists; (split; [reflexivity|]); cbn [Single.chunks Single.currentTime label start end_];
      repeat split; reflexivity.
Qed.

Lemma single_server_serves_lowest_index_witness :
  let st := Single.initial 3 [2; 2; 2] in
  let pool := Single.waitingPool [0; 0; 0] st in
  let chosen := pick true [3; 1; 1] pool in
  lowest_index_tie_break true [3; 1; 1] pool chosen /\
  exists st' c,
    Single.step [0; 0; 0] [3; 1; 1] true st = Some st' /\
    Single.chunks st' = Single.chunks st ++ [c] /\
    label c = customerLabel chosen /\ start c = Single.currentTime st /\
    end_ c = Single.currentTime st'.
Proof.
  apply (single_server_serves_lowest_index [0; 0; 0] [3; 1; 1] true (Single.initial 3 [2; 2; 2])).
  vm_compute. discriminate.
Defined.

Lemma assign_pass_increasing (priorities : list Z) (usePriority : bool) (l : list nat) :
  forall sp : Multi.State * list nat,
    increasing (snd sp) ->
    increasing (snd (fold_left (Multi.assignServer priorities usePriority) l sp)).
Proof.
  induction l as [|sIdx l IH]; intros [st pool] Hinc; cbn [fold_left]; [exact Hinc|].
  apply IH. unfold Multi.assignServer. cbn [snd] in Hinc.
  destruct (Multi.serverOccupancy st !!! sIdx); [exact Hinc|].
  destruct pool as [|p0 pool']; [exact Hinc|]. cbn [snd].
  rewrite spliceOut_member by (apply pick_in; discriminate).
  now apply removeFirst_increasing.
Qed.

(** X27.  When the idle-server loop of the multi-server variants puts a
    waiting customer on a free server, it is the one selected with ties
    broken by lowest index, whatever servers the loop has visited
    before. *)
Theorem idle_server_gets_lowest_index
        (arrivalTimes priorities : list Z) (usePriority : bool) (st : Multi.State)
        (visited : list nat) (sIdx : nat) :
  let sp := fold_left (Multi.assignServer priorities usePriority) visited
                      (st, Multi.waitingPool arrivalTimes st) in
  (sIdx < length (Multi.serverOccupancy (fst sp)))%nat ->
  Multi.serverOccupancy (fst sp) !!! sIdx = None ->
  snd sp <> [] ->
  exists chosen,
    Multi.serverOccupancy (fst (Multi.assignServer priorities usePriority sp sIdx)) !!! sIdx
    = Some chosen /\
    lowest_index_tie_break usePriority priorities (snd sp) chosen.
Proof.
  cbv zeta. intros Hs Hidle Hne.
  assert (Hinc : increasing (snd (fold_left (Multi.assignServer priorities usePriority) visited
                                            (st, Multi.waitingPool arrivalTimes st)))).
  { apply assign_pass_increasing. cbn [snd]. unfold Multi.waitingPool.
    apply filter_increasing, seq_increasing. }
  destruct (fold_left _ visited _) as [st1 pool1]. cbn [fst snd] in *.
  exists (pick usePriority priorities pool1). split.
  - unfold Multi.assignServer. rewrite Hidle.
    destruct pool1 as [|p0 pool']; [congruence|].
    cbn [fst Multi.install Multi.serverOccupancy].
    now apply list_lookup_total_insert_eq.
  - now apply pick_lowest_index.
Qed.

Lemma idle_server_gets_lowest_index_witness :
  let st := Multi.initial 3 2 [2; 2; 2] in
  let sp := fold_left (Multi.assignServer [3; 1; 1] true) [0%nat]
                      (st, Multi.waitingPool [0; 0; 0] st) in
  exists chosen,
    Multi.serverOccupancy (fst (Multi.assignServer [3; 1; 1] true sp 1)) !!! 1%nat
    = Some chosen /\
    lowest_index_tie_break true [3; 1; 1] (snd sp) chosen.
Proof.
  apply (idle_server_gets_lowest_index [0; 0; 0] [3; 1; 1] true (Multi.initial 3 2 [2; 2; 2])
           [0%nat] 1).
  - vm_compute. lia.
  - reflexivity.
  - vm_compute. discriminate.
Defined.

(** X28.  A customer in service is not preempted by waiting customers of
    equal or lower priority: when no customer of the pool has a strictly
    smaller priority number than the occupant of a server, the preemption
    loop leaves that server, the state and the pool as they are. *)
Theorem equal_priority_never_preempts
        (priorities : list Z) (st : Multi.State) (pool : list nat) (sIdx c : nat) :
  Multi.serverOccupancy st !!! sIdx = Some c ->
  (forall w, w ∈ pool -> priorities !!! c <= priorities !!! w) ->
  Multi.preemptServer priorities (st, pool) sIdx = (st, pool).
Proof.
  intros Hocc Hall. unfold Multi.preemptServer. rewrite Hocc.
  destruct pool as [|p0 pool']; [reflexivity|].
  assert (Hin : pickPriority priorities (p0 :: pool') ∈ p0 :: pool')
    by (apply pickPriority_in; discriminate).
  specialize (Hall _ Hin).
  destruct (priorities !!! pickPriority priorities (p0 :: pool') <? priorities !!! c) eqn:E;
    [|reflexivity].
  apply Z.ltb_lt in E. lia.
Qed.

Lemma equal_priority_never_preempts_witness :
  let st := fst (fold_left (Multi.assignServer [2; 2; 3] true) [0%nat]
                           (Multi.initial 3 1 [2; 2; 2],
                            Multi.waitingPool [0; 0; 0] (Multi.initial 3 1 [2; 2; 2]))) in
  Multi.preemptServer [2; 2; 3] (st, [1%nat; 2%nat]) 0 = (st, [1%nat; 2%nat]).
Proof.
  apply (equal_priority_never_preempts [2; 2; 3] _ [1%nat; 2%nat] 0 0).
  - reflexivity.
  - intros w Hw. apply elem_of_cons in Hw as [->|Hw]; [vm_compute; discriminate|].
    apply elem_of_cons in Hw as [->|Hw]; [vm_compute; discriminate|].
    inversion Hw.
Defined.

Lemma multi_reachable_inv (arrivalTimes serviceTimes priorities : list Z)
      (servers : nat) (usePriority : bool) (st : Multi.State) :
  length serviceTimes = length arrivalTimes ->
  Forall (fun t => 1 <= t) serviceTimes ->
  (1 <= servers)%nat ->
  multi_reachable arrivalTimes serviceTimes priorities servers usePriority st ->
  MultiInv arrivalTimes serviceTimes servers st.
Proof.
  intros Hlen Hge1 Hservers. induction 1 as [|st st' _ IH Hnot Hstep].
  - apply multi_initial_inv; [exact Hlen|].
    intros i Hi. apply Forall_ge1_lookup; [exact Hge1 | lia].
  - destruct (multi_step_progress arrivalTimes serviceTimes priorities servers usePriority
                Hlen Hservers st IH Hnot) as (st2 & E & I2 & _).
    rewrite E in Hstep. now injection Hstep as <-.
Qed.

(** X29.  In every state the multi-server loop passes through, no customer
    is on two servers, and every customer on a server has arrived and is
    not yet served. *)
Theorem no_customer_on_two_servers
        (arrivalTimes serviceTimes priorities : list Z) (servers : nat) (usePriority : bool)
        (st : Multi.State) :
  length serviceTimes = length arrivalTimes ->
  Forall (fun t => 1 <= t) serviceTimes ->
  (1 <= servers)%nat ->
  multi_reachable arrivalTimes serviceTimes priorities servers usePriority st ->
  length (Multi.serverOccupancy st) = servers /\
  (forall sIdx sIdx' c, (sIdx < servers)%nat -> (sIdx' < servers)%nat ->
     Multi.serverOccupancy st !!! sIdx = Some c ->
     Multi.serverOccupancy st !!! sIdx' = Some c -> sIdx = sIdx') /\
  (forall sIdx c, (sIdx < servers)%nat -> Multi.serverOccupancy st !!! sIdx = Some c ->
     (c < length arrivalTimes)%nat /\ Multi.servedMask st !!! c = false /\
     arrivalTimes !!! c <= Multi.currentTime st /\
     0 < Multi.remainingTimes st !!! c).
Proof.
  intros Hlen Hge1 Hservers Hreach.
  pose proof (multi_reachable_inv _ _ _ _ _ _ Hlen Hge1 Hservers Hreach) as I.
  split; [exact (mg_len_occ _ _ _ _ _ _ _ I)|]. split; [exact (mg_inj _ _ _ _ _ _ _ I)|].
  intros sIdx c Hs Hocc.
  destruct (mg_occ _ _ _ _ _ _ _ I sIdx c Hs Hocc) as (H1 & H2 & _ & _ & _ & H6 & _).
  repeat split; try assumption.
  pose proof (mg_remaining _ _ _ _ _ _ _ I c H1) as Hr.
  pose proof (mg_served _ _ _ _ _ _ _ I c H1) as Hsv.
  destruct (Z.eq_dec (Multi.remainingTimes st !!! c) 0) as [E|E]; [|lia].
  apply Hsv in E. congruence.
Qed.

Lemma no_customer_on_two_servers_witness :
  let arrivalTimes := [0; 0; 1; 1] in
  let serviceTimes := [5; 5; 2; 2] in
  let st := match Multi.step arrivalTimes [2; 3; 1; 2] 2 true
                             (Multi.initial 4 2 serviceTimes) with
            | Multi.Continue st | Multi.Break st => st
            end in
  length (Multi.serverOccupancy st) = 2%nat /\
  (forall sIdx sIdx' c, (sIdx < 2)%nat -> (sIdx' < 2)%nat ->
     Multi.serverOccupancy st !!! sIdx = Some c ->
     Multi.serverOccupancy st !!! sIdx' = Some c -> sIdx = sIdx') /\
  (forall sIdx c, (sIdx < 2)%nat -> Multi.serverOccupancy st !!! sIdx = Some c ->
     (c < length arrivalTimes)%nat /\ Multi.servedMask st !!! c = false /\
     arrivalTimes !!! c <= Multi.currentTime st /\
     0 < Multi.remainingTimes st !!! c).
Proof.
  apply (no_customer_on_two_servers [0; 0; 1; 1] [5; 5; 2; 2] [2; 3; 1; 2] 2 true).
  - reflexivity.
  - repeat constructor; lia.
  - lia.
  - eapply multi_reach_step; [apply multi_reach_initial | reflexivity | vm_compute; reflexivity].
Defined.

(** X30.  Both loops end within [sum(serviceTimes) + n + 1] passes, [n]
    being the number of customers: every pass that does not end the loop
    does a unit of work or brings the clock to an arrival. *)
Theorem loops_end_within_work_plus_arrivals
        (arrivalTimes serviceTimes priorities : list Z) (servers : nat) (usePriority : bool)
        (fuel : nat) :
  length serviceTimes = length arrivalTimes ->
  Forall (fun t => 1 <= t) serviceTimes ->
  (1 <= servers)%nat ->
  sumZ serviceTimes + Z.of_nat (length arrivalTimes) < Z.of_nat fuel ->
  (exists st, Single.loop arrivalTimes priorities usePriority fuel
                          (Single.initial (length arrivalTimes) serviceTimes) = Some st /\
              forallb id (Single.servedMask st) = true) /\
  (exists st, Multi.loop arrivalTimes priorities servers usePriority fuel
                         (Multi.initial (length arrivalTimes) servers serviceTimes) = Some st /\
              forallb id (Multi.servedMask st) = true).
Proof.
  intros Hlen Hge1 Hservers Hfuel.
  assert (Hpos : forall i, (i < length arrivalTimes)%nat -> 1 <= serviceTimes !!! i).
  { intros i Hi. apply Forall_ge1_lookup; [exact Hge1 | lia]. }
  assert (Hna : (length (notArrived arrivalTimes 0) <= length arrivalTimes)%nat).
  { unfold notArrived. etransitivity; [apply List.filter_length_le|]. now rewrite length_seq. }
  split.
  - destruct (single_loop_terminates arrivalTimes serviceTimes priorities usePriority
                Hlen Hpos fuel (Single.initial (length arrivalTimes) serviceTimes))
      as (st & E & _ & Hall).
    + now apply single_initial_inv.
    + unfold singleMeasure. cbn [Single.initial Single.remainingTimes Single.currentTime]. lia.
    + exists st. auto.
  - destruct (multi_loop_terminates arrivalTimes serviceTimes priorities servers usePriority
                Hlen Hservers fuel (Multi.initial (length arrivalTimes) servers serviceTimes))
      as (st & E & _ & Hall).
    + now apply multi_initial_inv.
    + unfold multiMeasure. cbn [Multi.initial Multi.remainingTimes Multi.currentTime]. lia.
    + exists st. auto.
Qed.

Lemma loops_end_within_work_plus_arrivals_witness :
  (exists st, Single.loop [0; 0; 1; 1] [2; 3; 1; 2] true 19
                          (Single.initial (length [0; 0; 1; 1]) [5; 5; 2; 2]) = Some st /\
              forallb id (Single.servedMask st) = true) /\
  (exists st, Multi.loop [0; 0; 1; 1] [2; 3; 1; 2] 2 true 19
                         (Multi.initial (length [0; 0; 1; 1]) 2 [5; 5; 2; 2]) = Some st /\
              forallb id (Multi.servedMask st) = true).
Proof.
  apply (loops_end_within_work_plus_arrivals [0; 0; 1; 1] [5; 5; 2; 2] [2; 3; 1; 2] 2 true 19);
    [reflexivity | repeat constructor; lia | lia | vm_compute; reflexivity].
Defined.

(** ** The calculator on doubles *)

(** Shifting the significand [2^52 * m] right by 52 bits gives [m] back,
    with nothing lost. *)
Lemma shr_52_exact (m : positive) :
  SpecFloat.iter_pos shr_1 52 (Build_shr_record (Zpos (Pos.mul 4503599627370496 m)) false false)
  = Build_shr_record (Zpos m) false false.
Proof. reflexivity. Qed.

Lemma digits2_shift_52 (m : positive) :
  Zpos (digits2_pos (Pos.mul 4503599627370496 m)) = Zpos (digits2_pos m) + 52.
Proof. cbv [Pos.mul digits2_pos]. fold digits2_pos. lia. Qed.

(** Multiplying by 1 is exact for every double, the special values
    included. *)
Lemma SF64mul_one_l (x : spec_float) :
  valid_binary x = true -> SF64mul (Prim2SF 1%float) x = x.
Proof.
  intros Hv. change (Prim2SF 1%float) with (S754_finite false 4503599627370496 (-52)).
  destruct x as [sx|sx| |sx m e]; try reflexivity.
  cbn [SpecFloat.valid_binary] in Hv. unfold bounded, canonical_mantissa in Hv.
  apply andb_prop in Hv as [Hc Hb]. apply Z.eqb_eq in Hc.
  unfold SF64mul, SFmul. cbn [xorb].
  unfold binary_round_aux, shr_fexp. unfold Zdigits2 at 1.
  rewrite digits2_shift_52.
  replace (Z.pos (digits2_pos m) + 52 + (-52 + e)) with (Z.pos (digits2_pos m) + e) by lia.
  rewrite Hc. replace (e - (-52 + e)) with 52 by lia.
  cbn [shr shr_record_of_loc]. rewrite shr_52_exact.
  cbn [shr_m loc_of_shr_record round_nearest_even Zdigits2].
  replace (-52 + e + 52) with e by lia. rewrite Hc, Z.sub_diag.
  cbn [shr shr_m]. now rewrite Hb.
Qed.

Lemma float_mul_one_l (x : float) : (1 * x)%float = x.
Proof.
  apply Prim2SF_inj. rewrite mul_spec. apply SF64mul_one_l, Prim2SF_valid.
Qed.

Lemma ofZ_one : Binary64.ofZ 1 = 1%float.
Proof. vm_compute. reflexivity. Qed.

(** X7.  On doubles [factorial(k)] is exactly [k!] for every [k] up to
    22; at 23 the product is rounded and is [k!] no more; at 171 it
    overflows to [Infinity]; and on a negative argument, where the loop
    does not run, it is 1. *)
Theorem factorial_exact_up_to_22 :
  (forall k : nat, (k <= 22)%nat ->
     integer_value (Binary64.factorial (Z.of_nat k)) = Some (zfact k)) /\
  integer_value (Binary64.factorial 23) <> Some (zfact 23) /\
  (Binary64.factorial 170 <? infinity)%float = true /\
  Binary64.factorial 171 = infinity /\
  (forall z : Z, z < 0 -> Binary64.factorial z = 1%float).
Proof.
  split; [|split; [|split; [|split]]].
  - intros k Hk.
    do 23 (destruct k as [|k]; [vm_compute; reflexivity|]). lia.
  - vm_compute. discriminate.
  - vm_compute. reflexivity.
  - vm_compute. reflexivity.
  - intros z Hz. destruct z; try lia. reflexivity.
Qed.

(** ** The claims on the simulation *)

(** C1.  In every variant, once the run returns, the durations of the
    chunks that carry a customer's label add up to the customer's service
    time; and the run does return. *)
Theorem chunk_durations_sum_to_service_time
  (v : Variant) (interArrivals serviceTimes priorities : list Z)
  (servers : nat) (usePriority : bool) :
  length serviceTimes = length interArrivals ->
  length priorities = length interArrivals ->
  Forall (fun t => 1 <= t) serviceTimes ->
  (1 <= servers)%nat ->
  (exists fuel res,
     runSimulation v interArrivals serviceTimes priorities servers usePriority fuel = Some res)
  /\
  forall fuel res,
    runSimulation v interArrivals serviceTimes priorities servers usePriority fuel = Some res ->
    forall i, (i < length interArrivals)%nat ->
      chunkTotal (customerLabel i) (resultChunks res) = serviceTimes !!! i.
Proof.
  intros Hlen _ Hge1 Hservers.
  split; [now apply runSimulation_completes|].
  intros fuel res Hrun i Hi. rewrite <- length_cumSum in Hi.
  destruct (runSimulation_inv interArrivals serviceTimes priorities servers usePriority
              Hlen Hge1 Hservers v fuel res Hrun)
    as [(st & I & Hall & ->)|(st & I & Hall & ->)];
    cbn [Single.result Multi.result resultChunks].
  - rewrite (si_chunks _ _ _ I i Hi).
    rewrite (single_all_done (cumSum interArrivals) serviceTimes st i I Hall Hi). lia.
  - assert (Hs : Multi.servedMask st !!! i = true).
    { apply forallb_id_true; [exact Hall|]. now rewrite (mg_len_served _ _ _ _ _ _ _ I). }
    destruct (mg_off _ _ _ _ _ _ _ I i Hi (multi_served_off _ _ _ st i I Hs)) as [-> _].
    rewrite (proj1 (mg_served _ _ _ _ _ _ _ I i Hi) Hs). lia.
Qed.

Lemma chunk_durations_sum_to_service_time_witness :
  (exists fuel res, runSimulation VMMS [0; 0; 1; 0] [5; 5; 2; 2] [2; 3; 1; 2] 2 true fuel
                    = Some res)
  /\
  forall fuel res,
    runSimulation VMMS [0; 0; 1; 0] [5; 5; 2; 2] [2; 3; 1; 2] 2 true fuel = Some res ->
    forall i, (i < length [0; 0; 1; 0])%nat ->
      chunkTotal (customerLabel i) (resultChunks res) = [5; 5; 2; 2] !!! i.
Proof.
  apply (chunk_durations_sum_to_service_time VMMS [0; 0; 1; 0] [5; 5; 2; 2] [2; 3; 1; 2] 2 true);
    [reflexivity | reflexivity | repeat constructor; lia | lia].
Defined.

(** C2.  For service times that are integers at least 1 and at least one
    server, the loop of the single-server variants and the loop of the
    multi-server variants return; in the state they return every customer
    is marked served and has its completion time stamped: it is the end of
    one of the customer's chunks.  Every variant then returns its result. *)
Theorem event_loops_terminate_all_served
  (interArrivals serviceTimes priorities : list Z) (servers : nat) (usePriority : bool) :
  length serviceTimes = length interArrivals ->
  length priorities = length interArrivals ->
  Forall (fun t => 1 <= t) serviceTimes ->
  (1 <= servers)%nat ->
  let arrivalTimes := cumSum interArrivals in
  (exists fuel st,
     Single.loop arrivalTimes priorities usePriority fuel
                 (Single.initial (length arrivalTimes) serviceTimes) = Some st /\
     forallb id (Single.servedMask st) = true /\
     forall i, (i < length arrivalTimes)%nat ->
       stamped arrivalTimes serviceTimes (Single.serviceEnds st) (Single.chunks st) i) /\
  (exists fuel st,
     Multi.loop arrivalTimes priorities servers usePriority fuel
                (Multi.initial (length arrivalTimes) servers serviceTimes) = Some st /\
     forallb id (Multi.servedMask st) = true /\
     forall i, (i < length arrivalTimes)%nat ->
       stamped arrivalTimes serviceTimes (Multi.serviceEnd st) (Multi.chunks st) i) /\
  forall v, exists fuel res,
    runSimulation v interArrivals serviceTimes priorities servers usePriority fuel = Some res.
Proof.
  intros Hlen _ Hge1 Hservers arrivalTimes.
  pose proof (sim_positive interArrivals serviceTimes servers Hlen Hge1 Hservers) as Hpos.
  split; [|split; [|intros v; now apply runSimulation_completes]].
  - destruct (single_run_completes interArrivals serviceTimes priorities servers usePriority
                Hlen Hge1 Hservers)
      as (fuel & st & E & I & Hall).
    exists fuel, st. split; [exact E|]. split; [exact Hall|]. intros i Hi.
    assert (Hs : Single.servedMask st !!! i = true).
    { apply forallb_id_true; [exact Hall|]. now rewrite (si_len_served _ _ _ I). }
    destruct (si_stamp _ _ _ I i Hi Hs) as (H0 & H1 & H2). split; [|exact H2].
    destruct (si_begun _ _ _ I i Hi) as [B1 B2].
    destruct (Z.eq_dec (Single.serviceStarts st !!! i) (-1)) as [E1|E1].
    + specialize (B1 E1).
      rewrite (single_all_done (cumSum interArrivals) serviceTimes st i I Hall Hi) in B1.
      pose proof (Hpos i Hi). lia.
    + specialize (B2 E1). fold arrivalTimes in B2. lia.
  - destruct (multi_run_completes interArrivals serviceTimes priorities servers usePriority
                Hlen Hge1 Hservers) as (fuel & st & E & I & Hall).
    exists fuel, st. split; [exact E|]. split; [exact Hall|]. intros i Hi.
    assert (Hs : Multi.servedMask st !!! i = true).
    { apply forallb_id_true; [exact Hall|]. now rewrite (mg_len_served _ _ _ _ _ _ _ I). }
    destruct (mg_stamp _ _ _ _ _ _ _ I i Hi Hs) as (H0 & H1 & H2 & H3). split; [|exact H3].
    destruct (mg_off _ _ _ _ _ _ _ I i Hi (multi_served_off _ _ _ st i I Hs)) as (_ & _ & O3).
    specialize (O3 H0). fold arrivalTimes in O3. lia.
Qed.

Lemma event_loops_terminate_all_served_witness :
  let arrivalTimes := cumSum [0; 0; 1; 0] in
  (exists fuel st,
     Single.loop arrivalTimes [2; 3; 1; 2] true fuel
                 (Single.initial (length arrivalTimes) [5; 5; 2; 2]) = Some st /\
     forallb id (Single.servedMask st) = true /\
     forall i, (i < length arrivalTimes)%nat ->
       stamped arrivalTimes [5; 5; 2; 2] (Single.serviceEnds st) (Single.chunks st) i) /\
  (exists fuel st,
     Multi.loop arrivalTimes [2; 3; 1; 2] 2 true fuel
                (Multi.initial (length arrivalTimes) 2 [5; 5; 2; 2]) = Some st /\
     forallb id (Multi.servedMask st) = true /\
     forall i, (i < length arrivalTimes)%nat ->
       stamped arrivalTimes [5; 5; 2; 2] (Multi.serviceEnd st) (Multi.chunks st) i) /\
  forall v, exists fuel res,
    runSimulation v [0; 0; 1; 0] [5; 5; 2; 2] [2; 3; 1; 2] 2 true fuel = Some res.
Proof.
  apply (event_loops_terminate_all_served [0; 0; 1; 0] [5; 5; 2; 2] [2; 3; 1; 2] 2 true);
    [reflexivity | reflexivity | repeat constructor; lia | lia].
Defined.

(** C8.  In every variant the utilization of a returned result is a
    finite number between 0 and 100; and the run does return. *)
Theorem server_utilization_is_percentage
  (v : Variant) (interArrivals serviceTimes priorities : list Z)
  (servers : nat) (usePriority : bool) :
  length serviceTimes = length interArrivals ->
  length priorities = length interArrivals ->
  Forall (fun t => 1 <= t) serviceTimes ->
  (1 <= servers)%nat ->
  (exists fuel res,
     runSimulation v interArrivals serviceTimes priorities servers usePriority fuel = Some res)
  /\
  forall fuel res,
    runSimulation v interArrivals serviceTimes priorities servers usePriority fuel = Some res ->
    is_percentage (serverUtilization (averages res)).
Proof.
  intros Hlen _ Hge1 Hservers.
  split; [now apply runSimulation_completes|].
  intros fuel res Hrun.
  destruct (runSimulation_inv interArrivals serviceTimes priorities servers usePriority
              Hlen Hge1 Hservers v fuel res Hrun)
    as [(st & I & Hall & ->)|(st & I & Hall & ->)];
    cbn [Single.result Multi.result averages buildAverages serverUtilization].
  - exact (single_utilization_percentage (cumSum interArrivals) serviceTimes
             (sim_lengths interArrivals serviceTimes Hlen)
             (sim_positive interArrivals serviceTimes servers Hlen Hge1 Hservers) st I Hall).
  - now apply multi_utilization_percentage.
Qed.

Lemma server_utilization_is_percentage_witness :
  (exists fuel res, runSimulation VMM1 [0; 3; 1; 0] [1; 1; 2; 2] [2; 3; 1; 2] 1 false fuel
                    = Some res)
  /\
  forall fuel res,
    runSimulation VMM1 [0; 3; 1; 0] [1; 1; 2; 2] [2; 3; 1; 2] 1 false fuel = Some res ->
    is_percentage (serverUtilization (averages res)).
Proof.
  apply (server_utilization_is_percentage VMM1 [0; 3; 1; 0] [1; 1; 2; 2] [2; 3; 1; 2] 1 false);
    [reflexivity | reflexivity | repeat constructor; lia | lia].
Defined.

(** C4.  Four customers arrive at times 0, 0, 1, 1 with priorities 2, 3,
    1, 2 and two servers.  At time 1 the preemption loop first replaces
    customer 0 on server 0 by customer 2 and appends customer 0 to the
    pool, which becomes [[3; 0]].  For server 1 the [reduce] then returns
    customer 3, although customer 0 has the same priority and the lower
    index: the tie is broken by position in the pool, not by index. *)
Theorem preemption_tie_break_skips_lower_index :
  let arrivalTimes := cumSum [0; 0; 1; 0] in
  let priorities := [2; 3; 1; 2] in
  let st1 := match Multi.step arrivalTimes priorities 2 true (Multi.initial 4 2 [5; 5; 2; 2]) with
             | Multi.Continue st | Multi.Break st => st
             end in
  let sp := fold_left (Multi.assignServer priorities true) (seq 0 2)
                      (st1, Multi.waitingPool arrivalTimes st1) in
  let sp0 := Multi.preemptServer priorities sp 0 in
  let sp1 := Multi.preemptServer priorities sp0 1 in
  Multi.currentTime st1 = 1 /\
  Multi.serverOccupancy st1 = [Some 0%nat; Some 1%nat] /\
  snd sp = [2%nat; 3%nat] /\
  Multi.serverOccupancy (fst sp0) = [Some 2%nat; Some 1%nat] /\
  snd sp0 = [3%nat; 0%nat] /\
  pickPriority priorities (snd sp0) = 3%nat /\
  priorities !!! 0%nat = priorities !!! 3%nat /\
  Multi.serverOccupancy (fst sp1) = [Some 2%nat; Some 3%nat] /\
  ~ lowest_index_tie_break true priorities (snd sp0) (pickPriority priorities (snd sp0)) /\
  option_map (fun res => map (fun c => (label c, start c, end_ c)) (resultChunks res))
             (mmsSSimulation [0; 0; 1; 0] [5; 5; 2; 2] priorities 2 true 10)
  = Some [("C1", 0, 1); ("C2", 0, 1); ("C3", 1, 3); ("C4", 1, 3); ("C1", 3, 7); ("C2", 3, 7)].
Proof.
  cbv zeta. repeat (split; [vm_compute; reflexivity|]). split; [|vm_compute; reflexivity].
  intros [_ H].
  assert (E : pickPriority [2; 3; 1; 2] [3%nat; 0%nat] = 3%nat) by reflexivity.
  assert (Hin : 0%nat ∈ [3%nat; 0%nat]) by (constructor; constructor).
  match type of H with
  | forall c, c ∈ ?pool -> _ =>
      assert (Ep : pool = [3%nat; 0%nat]) by (vm_compute; reflexivity)
  end.
  rewrite Ep in H. specialize (H 0%nat Hin). cbv beta iota in H. rewrite E in H.
  destruct H as [_ H]. specialize (H eq_refl). lia.
Qed.

(** ** The one-server case of [calculateMMS], on doubles *)

(** C9 as stated fails on doubles: at [lambda = 3], [mu = 5], which
    satisfy [0 < lambda < mu], [calculateMM1] returns
    [Lq = 0.8999999999999999] and [calculateMMS] with one server returns
    [Lq = 0.8999999999999998]; [Wq], [W] and [L] differ as well.  The
    two functions round different sequences of operations. *)
Lemma mms_one_server_metrics_differ :
  let input := Binary64.mkInput 3 5 (Some 1) None None None in
  let r1 := Binary64.calculateMM1 input in
  let rs := Binary64.calculateMMS pow_by_products input in
  (0 <? Binary64.lambda input)%float = true /\
  (Binary64.lambda input <? Binary64.mu input)%float = true /\
  Binary64.Lq r1 = 0x1.cccccccccccccp-1%float /\
  Binary64.Lq rs = 0x1.ccccccccccccbp-1%float /\
  Binary64.Wq r1 = 0x1.3333333333333p-2%float /\
  Binary64.Wq rs = 0x1.3333333333332p-2%float /\
  Binary64.W r1 = 0x1p-1%float /\
  Binary64.W rs = 0x1.fffffffffffffp-2%float /\
  Binary64.L r1 = 0x1.8p+0%float /\
  Binary64.L rs = 0x1.7ffffffffffffp+0%float /\
  ~ (Binary64.rho rs = Binary64.rho r1 /\ Binary64.stable rs = Binary64.stable r1 /\
     Binary64.Lq rs = Binary64.Lq r1 /\ Binary64.Wq rs = Binary64.Wq r1 /\
     Binary64.W rs = Binary64.W r1 /\ Binary64.L rs = Binary64.L r1).
Proof.
  cbv zeta. repeat (split; [vm_compute; reflexivity|]).
  intros (_ & _ & H & _). apply (f_equal Prim2SF) in H. vm_compute in H. discriminate H.
Qed.

(** C9, amended.  For every [lambda] and [mu], [calculateMMS] with one
    server returns the same [rho] and the same stability flag as
    [calculateMM1]: [1 * mu] is [mu] exactly, so both divide [lambda] by
    the same double and compare the same quotient with 1. *)
Theorem mms_one_server_same_rho_and_stability
        (Math_pow : float -> Z -> float) (input : Binary64.QueuingInput) :
  default 1 (Binary64.s input) = 1 ->
  let r1 := Binary64.calculateMM1 input in
  let rs := Binary64.calculateMMS Math_pow input in
  Binary64.rho rs = Binary64.rho r1 /\ Binary64.stable rs = Binary64.stable r1.
Proof.
  intros Hs. cbv zeta. unfold Binary64.calculateMMS, Binary64.calculateMM1. cbv zeta.
  rewrite Hs, ofZ_one, float_mul_one_l.
  assert (E : (1 <=? 0)%float = false) by reflexivity. rewrite E, orb_false_r.
  destruct ((Binary64.mu input <=? 0)%float || (Binary64.lambda input <? 0)%float);
    [split; reflexivity|].
  destruct (1 <=? Binary64.lambda input / Binary64.mu input)%float; split; reflexivity.
Qed.

Lemma mms_one_server_same_rho_and_stability_witness :
  let input := Binary64.mkInput 3 5 (Some 1) None None None in
  let r1 := Binary64.calculateMM1 input in
  let rs := Binary64.calculateMMS pow_by_products input in
  Binary64.rho rs = Binary64.rho r1 /\ Binary64.stable rs = Binary64.stable r1.
Proof.
  apply (mms_one_server_same_rho_and_stability
           pow_by_products (Binary64.mkInput 3 5 (Some 1) None None None)).
  reflexivity.
Defined.
